(** * Deployment of custom object instances (salesforce adapter)

    A shallow embedding of [custom_object_instances_deploy.ts]: the identity
    hash used to match local instances with remote records, the three bulk
    executors, the three deploy paths (add, remove, modify) and the
    exported [deployCustomObjectInstancesGroup].

    JavaScript objects are insertion-ordered association lists, instances
    live in a store and are referred to by their object identity, and the
    client is an oracle whose calls are recorded in a log. *)

From Stdlib Require Import ZArith Ascii String DecimalString.
From Stdlib Require DecimalZ.
From stdpp Require Import gmap strings list.

Local Open Scope string_scope.
Local Open Scope list_scope.

Set Warnings "-register-all".

(** ** JavaScript values *)

(** The values an instance or a record holds: primitives, [null],
    [undefined] and nested plain objects (the compound fields).  A number is
    an integral one; arrays are left out. *)
Inductive Value : Type :=
| VUndefined
| VNull
| VBool (b : bool)
| VNum (n : Z)
| VStr (s : string)
| VObj (entries : list (string * Value)).

(** [Values] is the type of a plain object: its own properties in the order
    [Object.entries] lists them. *)
Abbreviation Values := (list (string * Value)).

Definition isUndefined (v : Value) : bool :=
  match v with VUndefined => true | _ => false end.

Definition isNull (v : Value) : bool :=
  match v with VNull => true | _ => false end.

Module Js.

(** [o[k]]: the value of property [k], [undefined] when [o] has none (no
    field is named after a member of [Object.prototype]). *)
Fixpoint get (o : Values) (k : string) : Value :=
  match o with
  | [] => VUndefined
  | (k', v) :: r => if String.eqb k' k then v else get r k
  end.

Fixpoint has (o : Values) (k : string) : bool :=
  match o with
  | [] => false
  | (k', _) :: r => String.eqb k' k || has r k
  end.

Definition isDigit (c : ascii) : bool :=
  (48 <=? nat_of_ascii c)%nat && (nat_of_ascii c <=? 57)%nat.

Fixpoint digitsValue (s : string) (acc : N) : option N :=
  match s with
  | EmptyString => Some acc
  | String c r =>
      if isDigit c
      then digitsValue r (10 * acc + N.of_nat (nat_of_ascii c - 48))%N
      else None
  end.

(** A property name is an array index when it is the canonical decimal
    form of an integer below 2^32 - 1; such names are listed first, in
    ascending order, whatever the order of insertion. *)
Definition arrayIndex (k : string) : option N :=
  match k with
  | EmptyString => None
  | String c r =>
      if Ascii.eqb c "0" && negb (String.eqb r "") then None
      else match digitsValue k 0 with
           | Some n => if (n <? 4294967295)%N then Some n else None
           | None => None
           end
  end.

Fixpoint replace (o : Values) (k : string) (v : Value) : Values :=
  match o with
  | [] => []
  | (k', v') :: r =>
      if String.eqb k' k then (k', v) :: r else (k', v') :: replace r k v
  end.

(** Where a new array-index property [n] goes: before the first property
    that is not an index or is a larger index. *)
Fixpoint insertIndex (o : Values) (n : N) (k : string) (v : Value) : Values :=
  match o with
  | [] => [(k, v)]
  | (k', v') :: r =>
      match arrayIndex k' with
      | Some m => if (m <? n)%N then (k', v') :: insertIndex r n k v
                  else (k, v) :: (k', v') :: r
      | None => (k, v) :: (k', v') :: r
      end
  end.

(** [o[k] = v] *)
Definition set (o : Values) (k : string) (v : Value) : Values :=
  if has o k then replace o k v
  else match arrayIndex k with
       | Some n => insertIndex o n k v
       | None => o ++ [(k, v)]
       end.

(** [Object.fromEntries]: the entries are set one after the other. *)
Definition fromEntries (es : list (string * Value)) : Values :=
  foldl (fun o e => set o (fst e) (snd e)) [] es.

(** [Object.entries] *)
Definition entries (o : Values) : list (string * Value) := o.

End Js.

(** ** [JSON.stringify] on these values *)

Module Json.

Definition dquote : ascii := "034"%char.
Definition backslash : ascii := "\"%char.

Definition hexDigit (n : nat) : ascii :=
  match String.get n "0123456789abcdef" with
  | Some c => c
  | None => "0"%char
  end.

(** The escape of one character inside a JSON string literal. *)
Definition escapeChar (c : ascii) : string :=
  let n := nat_of_ascii c in
  if Ascii.eqb c dquote then String backslash (String dquote "")
  else if Ascii.eqb c backslash then String backslash (String backslash "")
  else if (n =? 8)%nat then String backslash "b"
  else if (n =? 9)%nat then String backslash "t"
  else if (n =? 10)%nat then String backslash "n"
  else if (n =? 12)%nat then String backslash "f"
  else if (n =? 13)%nat then String backslash "r"
  else if (n <? 32)%nat
       then String backslash
              (String "u" (String "0" (String "0"
                 (String (hexDigit (n / 16)) (String (hexDigit (n mod 16)) "")))))
  else String c "".

Fixpoint escape (s : string) : string :=
  match s with
  | EmptyString => ""
  | String c r => escapeChar c +:+ escape r
  end.

Definition quote (s : string) : string :=
  String dquote (escape s +:+ String dquote "").

(** The text of an integral number in decimal digits, which is how
    JavaScript prints one below 10^21 in magnitude. *)
Definition numberToString (n : Z) : string :=
  NilEmpty.string_of_int (Z.to_int n).

(** The text of a value that is not [undefined]; a property whose value is
    [undefined] is left out of its object. *)
Fixpoint serialize (v : Value) : string :=
  match v with
  | VUndefined => ""
  | VNull => "null"
  | VBool true => "true"
  | VBool false => "false"
  | VNum n => numberToString n
  | VStr s => quote s
  | VObj es =>
      "{" +:+
      (fix members (first : bool) (es : list (string * Value)) : string :=
         match es with
         | [] => "}"
         | (k, x) :: r =>
             if isUndefined x then members first r
             else (if first then "" else ",") +:+ quote k +:+ ":"
                  +:+ serialize x +:+ members false r
         end) true es
  end.

(** The members of an object, after the opening brace. *)
Fixpoint members (first : bool) (es : list (string * Value)) : string :=
  match es with
  | [] => "}"
  | (k, x) :: r =>
      if isUndefined x then members first r
      else (if first then "" else ",") +:+ quote k +:+ ":"
           +:+ serialize x +:+ members false r
  end.

(** [JSON.stringify(o)] for an object [o]. *)
Definition stringify (o : Values) : string := serialize (VObj o).


(** *** Reading back

    What is read back from a text decides what the text determines. *)

Definition hexValue (c : ascii) : nat :=
  let n := nat_of_ascii c in
  if (48 <=? n)%nat && (n <=? 57)%nat then n - 48
  else if (97 <=? n)%nat && (n <=? 102)%nat then n - 87
  else 0.

(** The character at the head of an escaped text, and the rest; nothing
    at a closing quote. *)
Definition unescapeChar (s : string) : option (ascii * string) :=
  match s with
  | EmptyString => None
  | String c r =>
      if Ascii.eqb c dquote then None
      else if Ascii.eqb c backslash then
        match r with
        | String d r' =>
            if Ascii.eqb d "u" then
              match r' with
              | String _ (String _ (String h1 (String h2 r''))) =>
                  Some (ascii_of_nat (16 * hexValue h1 + hexValue h2), r'')
              | _ => None
              end
            else if Ascii.eqb d "b" then Some (ascii_of_nat 8, r')
            else if Ascii.eqb d "t" then Some (ascii_of_nat 9, r')
            else if Ascii.eqb d "n" then Some (ascii_of_nat 10, r')
            else if Ascii.eqb d "f" then Some (ascii_of_nat 12, r')
            else if Ascii.eqb d "r" then Some (ascii_of_nat 13, r')
            else Some (d, r')
        | EmptyString => None
        end
      else Some (c, r)
  end.

(** The characters of the text of a number. *)
Definition numChar (c : ascii) : bool :=
  Js.isDigit c || Ascii.eqb c "-".

Fixpoint allNumChars (s : string) : bool :=
  match s with
  | EmptyString => true
  | String c r => numChar c && allNumChars r
  end.

(** What follows a value inside an object: a comma or a closing brace,
    or nothing at the end of the text. *)
Definition delimited (r : string) : bool :=
  match r with
  | EmptyString => true
  | String c _ => Ascii.eqb c "," || Ascii.eqb c "}"
  end.

Definition headNotNum (r : string) : bool :=
  match r with
  | EmptyString => true
  | String c _ => negb (numChar c)
  end.

(** The kind of value a text starts with, read off its first character
    (a number is what starts with none of the others). *)
Inductive Kind : Type := KNull | KBool | KString | KObject | KNumber.

Definition kindOfText (s : string) : Kind :=
  match s with
  | EmptyString => KNumber
  | String c _ =>
      if Ascii.eqb c "n" then KNull
      else if Ascii.eqb c "t" || Ascii.eqb c "f" then KBool
      else if Ascii.eqb c dquote then KString
      else if Ascii.eqb c "{" then KObject
      else KNumber
  end.

Definition kindOfValue (v : Value) : Kind :=
  match v with
  | VUndefined => KNumber
  | VNull => KNull
  | VBool _ => KBool
  | VNum _ => KNumber
  | VStr _ => KString
  | VObj _ => KObject
  end.

(** A value without the properties [JSON.stringify] leaves out. *)
Fixpoint prune (v : Value) : Value :=
  match v with
  | VObj es =>
      VObj ((fix go (es : list (string * Value)) : list (string * Value) :=
               match es with
               | [] => []
               | (k, x) :: r =>
                   if isUndefined x then go r else (k, prune x) :: go r
               end) es)
  | _ => v
  end.

Fixpoint pruneEntries (es : list (string * Value)) : list (string * Value) :=
  match es with
  | [] => []
  | (k, x) :: r =>
      if isUndefined x then pruneEntries r else (k, prune x) :: pruneEntries r
  end.

End Json.

(** The text of [v], followed by a delimiter, can be read back: it
    determines [v] up to the properties left out, and where it ends. *)
Definition prefixFree (v : Value) : Prop :=
  isUndefined v = false ->
  forall (v' : Value) (r r' : string),
    isUndefined v' = false ->
    Json.delimited r = true -> Json.delimited r' = true ->
    Json.serialize v +:+ r = Json.serialize v' +:+ r' ->
    Json.prune v = Json.prune v' /\ r = r'.

(** ** Types, fields and instances *)

Inductive PrimitiveTypes : Type := STRING | NUMBER | BOOLEAN | UNKNOWN.

Inductive TypeElement : Type :=
| PrimitiveType (primitive : PrimitiveTypes)
| ObjectType (typeName : string) (fields : list (string * TypeElement))
| ContainerType (inner : TypeElement).

Record Field : Type := mkField { field_name : string; field_type : TypeElement }.

(** [Object.values(type.fields)] *)
Definition typeFields (t : TypeElement) : list Field :=
  match t with
  | ObjectType _ fs => map (fun f => mkField (fst f) (snd f)) fs
  | _ => []
  end.

(** [type.fields[name]] *)
Definition typeField (t : TypeElement) (name : string) : option Field :=
  match t with
  | ObjectType _ fs =>
      (fun f : string * TypeElement => mkField (fst f) (snd f))
        <$> List.find (fun f => String.eqb (fst f) name) fs
  | _ => None
  end.

Record ElemID : Type := mkElemID { elem_name : string; elem_fullName : string }.

(** An instance element.  [V] is what its [value] property is: the identity
    of a mutable object for a live instance, the object's properties for an
    instance as a callee reads it. *)
Record InstanceOf (V : Type) : Type :=
  mkInstance { elemID : ElemID; refType : TypeElement; value : V }.
Arguments mkInstance {V} _ _ _.
Arguments elemID {V} _.
Arguments refType {V} _.
Arguments value {V} _.

Abbreviation loc := nat.
Abbreviation InstanceElement := (InstanceOf loc).
Abbreviation InstanceState := (InstanceOf Values).

(** A record of the remote store is a plain object. *)
Abbreviation SalesforceRecord := Values.

Definition CUSTOM_OBJECT_ID_FIELD : string := "Id".

(** [BatchResultInfo] of jsforce: [id] and [errors] are optional. *)
Record BatchResultInfo : Type :=
  mkResult { result_id : option string;
             result_success : bool;
             result_errors : option (list string) }.

Inductive JsError : Type :=
| Error (message : string)
| TypeError (message : string).

Inductive BulkOperation : Type := OpInsert | OpUpdate | OpDelete.

(** One call on the client, with what the client answered. *)
Inductive ClientEvent : Type :=
| EvQuery (query : string) (answer : JsError + list SalesforceRecord)
| EvBulk (typeName : string) (operation : BulkOperation)
         (records : list SalesforceRecord)
         (answer : JsError + list BatchResultInfo).

(** The remote store as the deploy sees it: an answer to each call, which
    may depend on the calls made before; [inl] is a rejected call. *)
Record SalesforceClient : Type :=
  mkClient {
    queryAll : list ClientEvent -> string -> JsError + list SalesforceRecord;
    bulkLoadOperation :
      list ClientEvent -> string -> BulkOperation -> list SalesforceRecord ->
      JsError + list BatchResultInfo }.

Inductive Change : Type :=
| AdditionChange (after : InstanceElement)
| RemovalChange (before : InstanceElement)
| ModificationChange (before after : InstanceElement).

Inductive ActionName : Type := ActAdd | ActRemove | ActModify.

Definition action (c : Change) : ActionName :=
  match c with
  | AdditionChange _ => ActAdd
  | RemovalChange _ => ActRemove
  | ModificationChange _ _ => ActModify
  end.

Definition isAdditionChange (c : Change) : bool :=
  match c with AdditionChange _ => true | _ => false end.
Definition isRemovalChange (c : Change) : bool :=
  match c with RemovalChange _ => true | _ => false end.
Definition isModificationChange (c : Change) : bool :=
  match c with ModificationChange _ _ => true | _ => false end.

Definition getChangeElement (c : Change) : InstanceElement :=
  match c with
  | AdditionChange a => a
  | RemovalChange b => b
  | ModificationChange _ a => a
  end.

Record DeployResult : Type :=
  mkDeployResult { appliedChanges : list Change; errors : list JsError }.

Record ActionResult : Type :=
  mkActionResult { successInstances : list InstanceElement;
                   errorMessages : list string }.

(** ** Collaborators that are not part of this file *)

Record Externals : Type :=
  mkExternals {
    DataManagement : Type;
    (** [hash.toMD5] of lowerdash *)
    toMD5 : string -> string;
    (** [apiName] of the transformer, on a type, on a field (relative) and
        on an instance *)
    apiName_type : TypeElement -> string;
    apiName_field : Field -> string;
    apiName_instance : InstanceState -> string;
    instancesToCreateRecords : list InstanceState -> list SalesforceRecord;
    instancesToUpdateRecords : list InstanceState -> list SalesforceRecord;
    instancesToDeleteRecords : list InstanceState -> list SalesforceRecord;
    (** membership in [Types.compoundDataTypes] *)
    isCompoundDataType : TypeElement -> bool;
    capitalizeFirstLetter : string -> string;
    getIdFields : TypeElement -> DataManagement -> list Field * option (list string);
    (** [buildSelectQueries] applied to [Object.fromEntries] of the entries
        computed for each instance *)
    buildSelectQueries :
      string -> list (option Field) -> list (list (list (string * string))) ->
      list string;
    transformRecordToValues : TypeElement -> SalesforceRecord -> Values;
    isListCustomSettingsObject : TypeElement -> bool;
    (** [buildDataManagement] on [includeObjects] and the default id fields *)
    buildDataManagement : list string -> list string -> DataManagement;
    (** [InstanceElement.isEqual] *)
    isEqual : InstanceState -> InstanceState -> bool }.

(** ** The world: instance values and the log of client calls *)

Record World : Type :=
  mkWorld { store : gmap loc Values; calls : list ClientEvent }.

(** A computation reads and writes the world and returns or throws. *)
Definition M (A : Type) : Type := World -> (JsError + A) * World.

#[global] Instance M_ret : MRet M := fun A a w => (inr a, w).
#[global] Instance M_bind : MBind M := fun A B f m w =>
  match m w with
  | (inr a, w') => f a w'
  | (inl e, w') => (inl e, w')
  end.

Definition throw {A : Type} (e : JsError) : M A := fun w => (inl e, w).

(** [try { m } catch (error) { h error }] *)
Definition tryCatch {A : Type} (m : M A) (h : JsError -> M A) : M A :=
  fun w => match m w with
           | (inr a, w') => (inr a, w')
           | (inl e, w') => h e w'
           end.

Definition liftResult {A : Type} (r : JsError + A) : M A :=
  match r with inl e => throw e | inr a => mret a end.

(** [instance.value], read now; an object the store does not hold reads as
    an empty one. *)
Definition readValue (i : InstanceElement) : M Values :=
  fun w => (inr (default [] (store w !! value i)), w).

Definition readInstance (i : InstanceElement) : M InstanceState :=
  v ← readValue i; mret (mkInstance (elemID i) (refType i) v).

(** [instance.value[k] = v] *)
Definition writeValue (i : InstanceElement) (k : string) (v : Value) : M unit :=
  fun w =>
    (inr tt,
     mkWorld (<[value i := Js.set (default [] (store w !! value i)) k v]> (store w))
             (calls w)).

(** [await client.queryAll(query)], all pages *)
Definition callQueryAll (client : SalesforceClient) (query : string)
  : M (list SalesforceRecord) :=
  fun w =>
    let answer := queryAll client (calls w) query in
    (answer, mkWorld (store w) (calls w ++ [EvQuery query answer])).

(** [await client.bulkLoadOperation(typeName, operation, records)] *)
Definition callBulkLoadOperation (client : SalesforceClient) (typeName : string)
    (operation : BulkOperation) (records : list SalesforceRecord)
  : M (list BatchResultInfo) :=
  fun w =>
    let answer := bulkLoadOperation client (calls w) typeName operation records in
    (answer, mkWorld (store w) (calls w ++ [EvBulk typeName operation records answer])).

(** [l.map(f)] for an [f] that reads or writes the world, left to right *)
Fixpoint mapM {A B : Type} (f : A -> M B) (l : list A) : M (list B) :=
  match l with
  | [] => mret []
  | x :: r => y ← f x; ys ← mapM f r; mret (y :: ys)
  end.

(** [l.forEach(f)] *)
Fixpoint forEach {A : Type} (f : A -> M unit) (l : list A) : M unit :=
  match l with
  | [] => mret tt
  | x :: r => f x ≫= fun _ : unit => forEach f r
  end.

(** [l.filter(p)] for a [p] that reads the world *)
Fixpoint filterM {A : Type} (p : A -> M bool) (l : list A) : M (list A) :=
  match l with
  | [] => mret []
  | x :: r =>
      p x ≫= fun b : bool =>
      filterM p r ≫= fun ys : list A =>
      mret (if b then x :: ys else ys)
  end.

(** [_.partition(l, p)] for a [p] that reads the world *)
Fixpoint partitionM {A : Type} (p : A -> M bool) (l : list A) : M (list A * list A) :=
  match l with
  | [] => mret ([], [])
  | x :: r =>
      p x ≫= fun b : bool =>
      partitionM p r ≫= fun yn : list A * list A =>
      mret (if b then (x :: fst yn, snd yn) else (fst yn, x :: snd yn))
  end.

(** ** The deploy of custom object instances *)

Definition newline : string := String "010"%char "".
Definition tab : string := String "009"%char "".

(** [array.join(sep)] on strings *)
Definition join (sep : string) (l : list string) : string := String.concat sep l.

(** [[...new Set(l)]]: the first occurrence of each element is kept. *)
Fixpoint uniq (l : list string) : list string :=
  match l with
  | [] => []
  | x :: r => x :: List.filter (fun y => negb (String.eqb x y)) (uniq r)
  end.

Abbreviation InstanceAndResult := (InstanceElement * BatchResultInfo)%type.

(** [data] of a modification change: [before] and [after]. *)
Abbreviation ChangeData := (InstanceElement * InstanceElement)%type.

(** [getErrorMessagesFromInstAndResults]; the text between the name and the
    errors is a colon, a line break, four spaces and a tab. *)
Definition getErrorMessagesFromInstAndResults
    (instancesAndResults : list InstanceAndResult) : list string :=
  map (fun ir : InstanceAndResult =>
         elem_name (elemID (fst ir)) +:+ ":" +:+ newline +:+ "    " +:+ tab +:+
         match result_errors (snd ir) with
         | Some errs => join (newline +:+ tab) errs
         | None => "undefined"
         end)
      instancesAndResults.

(** [getAndLogErrors]; [logErroredInstances] only writes to the log of the
    process and is left out. *)
Definition getAndLogErrors (instancesAndResults : list InstanceAndResult)
  : list string :=
  let errored :=
    List.filter (fun ir : InstanceAndResult =>
                   negb (result_success (snd ir)) && bool_decide (is_Some (result_errors (snd ir))))
                instancesAndResults in
  getErrorMessagesFromInstAndResults errored.

(** [groupInstancesAndResultsByIndex]: [results[index]] is [undefined] past
    the end of [results]. *)
Definition groupInstancesAndResultsByIndex
    (results : list BatchResultInfo) (instances : list InstanceElement)
  : list (InstanceElement * option BatchResultInfo) :=
  imap (fun index instance => (instance, results !! index)) instances.

(** Both users of the grouped list start by reading [result.success] of
    every element, which raises a [TypeError] on an [undefined] result. *)
Fixpoint definedResults (l : list (InstanceElement * option BatchResultInfo))
  : JsError + list InstanceAndResult :=
  match l with
  | [] => inr []
  | (i, Some r) :: t =>
      match definedResults t with
      | inr t' => inr ((i, r) :: t')
      | inl e => inl e
      end
  | (_, None) :: _ => inl (TypeError "Cannot read property 'success' of undefined")
  end.

Definition getActionResult (instancesAndResults : list InstanceAndResult)
  : ActionResult :=
  let successInstances :=
    map fst (List.filter (fun ir : InstanceAndResult => result_success (snd ir))
                         instancesAndResults) in
  let errorMessages := getAndLogErrors instancesAndResults in
  mkActionResult successInstances errorMessages.

Definition escapeWhereChar (c : ascii) : string :=
  if Ascii.eqb c "\"%char || Ascii.eqb c "'"%char
  then String "\"%char (String c "")
  else String c "".

Fixpoint escapeWhereStr (str : string) : string :=
  match str with
  | EmptyString => ""
  | String c r => escapeWhereChar c +:+ escapeWhereStr r
  end.

Definition formatValueForWhere (field : Field) (v : Value) : JsError + string :=
  match v with
  | VUndefined => inr "null"
  | _ =>
      match field_type field with
      | PrimitiveType STRING =>
          match v with
          | VStr s => inr ("'" +:+ escapeWhereStr s +:+ "'")
          | VNull => inl (TypeError "Cannot read property 'replace' of null")
          | _ => inl (TypeError "str.replace is not a function")
          end
      | PrimitiveType _ =>
          match v with
          | VNull => inl (TypeError "Cannot read property 'toString' of null")
          | VBool true => inr "true"
          | VBool false => inr "false"
          | VNum n => inr (Json.numberToString n)
          | VStr s => inr s
          | _ => inr "[object Object]"
          end
      | _ => inl (Error ("Can not create WHERE clause for non-primitive field "
                         +:+ field_name field))
      end
  end.

(** [l.map(f)] for an [f] that may throw *)
Fixpoint mapE {A B : Type} (f : A -> JsError + B) (l : list A) : JsError + list B :=
  match l with
  | [] => inr []
  | x :: r =>
      match f x with
      | inl e => inl e
      | inr y => match mapE f r with
                 | inl e => inl e
                 | inr ys => inr (y :: ys)
                 end
      end
  end.

(** [v?.[k]] *)
Definition optionalGet (v : Value) (k : string) : Value :=
  match v with
  | VObj o => Js.get o k
  | _ => VUndefined
  end.

Section Deploy.

Variable E : Externals.

Definition isCompoundFieldType (type : TypeElement) : bool :=
  match type with
  | ObjectType _ _ => isCompoundDataType E type
  | _ => false
  end.

Definition getFieldNamesToValues (vals : Values) (field : Field)
  : JsError + list (string * string) :=
  let fieldType := field_type field in
  if isCompoundFieldType fieldType
  then mapE (fun innerField =>
               match formatValueForWhere innerField
                       (optionalGet (Js.get vals (field_name field))
                                    (field_name innerField)) with
               | inl e => inl e
               | inr s => inr (capitalizeFirstLetter E (field_name innerField), s)
               end)
            (typeFields fieldType)
  else match formatValueForWhere field (Js.get vals (field_name field)) with
       | inl e => inl e
       | inr s => inr [(apiName_field E field, s)]
       end.

Definition getRecordsBySaltoIds (type : TypeElement)
    (instances : list InstanceElement) (saltoIdFields : list Field)
    (client : SalesforceClient) : M (list SalesforceRecord) :=
  instanceIdValues ←
    mapM (fun inst =>
            vals ← readValue inst;
            liftResult (mapE (getFieldNamesToValues vals) saltoIdFields))
         instances;
  let saltoIdFieldsWithIdField :=
    match List.find (fun field => String.eqb (field_name field) CUSTOM_OBJECT_ID_FIELD)
                    saltoIdFields with
    | None => typeField type CUSTOM_OBJECT_ID_FIELD :: map Some saltoIdFields
    | Some _ => map Some saltoIdFields
    end in
  let queries :=
    buildSelectQueries E (apiName_type E type) saltoIdFieldsWithIdField
                       instanceIdValues in
  records ← mapM (callQueryAll client) queries;
  mret (concat records).

Definition getDataManagementFromCustomSettings (instances : list InstanceElement)
  : JsError + DataManagement E :=
  match instances with
  | [] => inl (TypeError "Cannot read property 'getType' of undefined")
  | i :: _ =>
      inr (buildDataManagement E ["^" +:+ apiName_type E (refType i)] ["Name"])
  end.

Definition emptyActionResult : ActionResult := mkActionResult [] [].

Definition resultIdValue (r : BatchResultInfo) : Value :=
  match result_id r with
  | Some s => VStr s
  | None => VUndefined
  end.

Definition insertInstances (typeName : string) (instances : list InstanceElement)
    (client : SalesforceClient) : M ActionResult :=
  if (length instances =? 0)%nat then mret emptyActionResult
  else
    states ← mapM readInstance instances;
    results ← callBulkLoadOperation client typeName OpInsert
                (instancesToCreateRecords E states);
    instancesAndResults ←
      liftResult (definedResults (groupInstancesAndResultsByIndex results instances));
    let successInstAndRes :=
      List.filter (fun ir : InstanceAndResult => result_success (snd ir))
                  instancesAndResults in
    forEach (fun ir : InstanceAndResult =>
               writeValue (fst ir) CUSTOM_OBJECT_ID_FIELD (resultIdValue (snd ir)))
            successInstAndRes;;
    let errorMessages := getAndLogErrors instancesAndResults in
    mret (mkActionResult (map fst successInstAndRes) errorMessages).

Definition updateInstances (typeName : string) (instances : list InstanceElement)
    (client : SalesforceClient) : M ActionResult :=
  if (length instances =? 0)%nat then mret emptyActionResult
  else
    states ← mapM readInstance instances;
    results ← callBulkLoadOperation client typeName OpUpdate
                (instancesToUpdateRecords E states);
    instancesAndResults ←
      liftResult (definedResults (groupInstancesAndResultsByIndex results instances));
    mret (getActionResult instancesAndResults).

Definition deleteInstances (typeName : string) (instances : list InstanceElement)
    (client : SalesforceClient) : M ActionResult :=
  states ← mapM readInstance instances;
  results ← callBulkLoadOperation client typeName OpDelete
              (instancesToDeleteRecords E states);
  instancesAndResults ←
    liftResult (definedResults (groupInstancesAndResultsByIndex results instances));
  mret (getActionResult instancesAndResults).

(** [cloneWithoutNulls] on a property value: a nested object, of which
    [_.isObject] holds, is cloned, anything else is kept. *)
Fixpoint cloneWithoutNullsValue (v : Value) : Value :=
  match v with
  | VObj o =>
      VObj (Js.fromEntries
              ((fix go (es : list (string * Value)) : list (string * Value) :=
                  match es with
                  | [] => []
                  | (k, x) :: r =>
                      if isNull x then go r
                      else (k, cloneWithoutNullsValue x) :: go r
                  end) (Js.entries o)))
  | _ => v
  end.

Definition cloneWithoutNulls (val : Values) : Values :=
  Js.fromEntries
    (map (fun kv : string * Value => (fst kv, cloneWithoutNullsValue (snd kv)))
         (List.filter (fun kv : string * Value => negb (isNull (snd kv)))
                      (Js.entries val))).

(** Modelled from the spec: [safeJsonStringify] of adapter-utils is not
    among the sources; the spec's canonical serialization is taken to be
    [JSON.stringify], which is what it is on values without cycles. *)
Definition safeJsonStringify (o : Values) : string := Json.stringify o.

(** The object built from the id fields, in their order. *)
Definition idFieldsValues (idFieldsNames : list string) (vals : Values) : Values :=
  Js.fromEntries (map (fun fieldName => (fieldName, Js.get vals fieldName)) idFieldsNames).

Definition computeSaltoIdHash (idFieldsNames : list string) (vals : Values) : string :=
  toMD5 E (safeJsonStringify (idFieldsValues idFieldsNames vals)).

Definition computeRecordSaltoIdHash (type : TypeElement)
    (idFieldsNames : list string) (record : SalesforceRecord) : string :=
  let recordValues := transformRecordToValues E type record in
  let recordValuesWithoutNulls := cloneWithoutNulls recordValues in
  computeSaltoIdHash idFieldsNames recordValuesWithoutNulls.

(** [_.keyBy]: a later record takes the place of an earlier one with the
    same key.  The keys are digests, none of which names an inherited
    property of the object [_.keyBy] returns, so a map stands for it. *)
Definition keyBy (records : list SalesforceRecord)
    (key : SalesforceRecord -> string) : gmap string SalesforceRecord :=
  foldl (fun m r => <[key r := r]> m) ∅ records.

Definition deployAddInstances (instances : list InstanceElement)
    (idFields : list Field) (client : SalesforceClient) : M DeployResult :=
  match instances with
  | [] => throw (TypeError "Cannot read property 'getType' of undefined")
  | first :: _ =>
      let type := refType first in
      let typeName := apiName_type E type in
      let idFieldsNames := map field_name idFields in
      records ← getRecordsBySaltoIds type instances idFields client;
      let existingRecordsLookup :=
        keyBy records (computeRecordSaltoIdHash type idFieldsNames) in
      parts ← partitionM
                (fun instance =>
                   vals ← readValue instance;
                   mret (bool_decide
                           (is_Some (existingRecordsLookup
                                       !! computeSaltoIdHash idFieldsNames vals))))
                instances;
      let existingInstances := fst parts in
      let newInstances := snd parts in
      inserted ← insertInstances typeName newInstances client;
      forEach (fun instance =>
                 vals ← readValue instance;
                 match existingRecordsLookup !! computeSaltoIdHash idFieldsNames vals with
                 | Some record =>
                     writeValue instance CUSTOM_OBJECT_ID_FIELD
                                (Js.get record CUSTOM_OBJECT_ID_FIELD)
                 | None => throw (TypeError "Cannot read property 'Id' of undefined")
                 end)
              existingInstances;;
      updated ← updateInstances (apiName_type E type) existingInstances client;
      let allSuccessInstances :=
        successInstances inserted ++ successInstances updated in
      mret (mkDeployResult
              (map AdditionChange allSuccessInstances)
              (map Error (errorMessages inserted ++ errorMessages updated)))
  end.

Definition deployRemoveInstances (instances : list InstanceElement)
    (client : SalesforceClient) : M DeployResult :=
  match instances with
  | [] => throw (TypeError "Cannot read property 'getType' of undefined")
  | first :: _ =>
      deleted ← deleteInstances (apiName_type E (refType first)) instances client;
      mret (mkDeployResult
              (map RemovalChange (successInstances deleted))
              (map Error (errorMessages deleted)))
  end.

Definition sameApiName (changeData : ChangeData) : M bool :=
  b ← readInstance (fst changeData);
  a ← readInstance (snd changeData);
  mret (String.eqb (apiName_instance E b) (apiName_instance E a)).

Definition diffApiNameError (changeData : ChangeData) : M JsError :=
  b ← readInstance (fst changeData);
  a ← readInstance (snd changeData);
  mret (Error ("Failed to update as api name prev=" +:+ apiName_instance E b
               +:+ " and new=" +:+ apiName_instance E a +:+ " are different")).

(** [successInstances.find(instance => instance.isEqual(changeData.after))]
    as a condition *)
Definition foundEqual (successInstances : list InstanceElement)
    (changeData : ChangeData) : M bool :=
  a ← readInstance (snd changeData);
  ss ← mapM readInstance successInstances;
  mret (existsb (fun s => isEqual E s a) ss).

Definition deployModifyChanges (changes : list ChangeData)
    (client : SalesforceClient) : M DeployResult :=
  let changesData := changes in
  match changesData with
  | [] => throw (TypeError "Cannot read property 'after' of undefined")
  | first :: _ =>
      let instancesType := apiName_type E (refType (snd first)) in
      parts ← partitionM sameApiName changesData;
      let validData := fst parts in
      let diffApiNameData := snd parts in
      let afters := map snd validData in
      updated ← updateInstances instancesType afters client;
      successData ← filterM (foundEqual (successInstances updated)) validData;
      diffApiNameErrors ← mapM diffApiNameError diffApiNameData;
      let errors := map Error (errorMessages updated) ++ diffApiNameErrors in
      mret (mkDeployResult
              (map (fun d : ChangeData => ModificationChange (fst d) (snd d)) successData)
              errors)
  end.

(** The [data] of each change when all are modifications. *)
Fixpoint modificationData (changes : list Change) : option (list ChangeData) :=
  match changes with
  | [] => Some []
  | ModificationChange b a :: r => cons (b, a) <$> modificationData r
  | _ :: _ => None
  end.

Definition deployCustomObjectInstancesGroup (changes : list Change)
    (client : SalesforceClient) (dataManagement : option (DataManagement E))
  : M DeployResult :=
  tryCatch
    (let instances := map getChangeElement changes in
     let instanceTypes := uniq (map (fun inst => apiName_type E (refType inst)) instances) in
     if (1 <? length instanceTypes)%nat
     then throw (Error ("Custom Object Instances change group should have a single type but got: "
                        +:+ join "," instanceTypes))
     else
       match instances with
       | [] => throw (TypeError "Cannot read property 'getType' of undefined")
       | first :: _ =>
           actualDataManagement ←
             (if isListCustomSettingsObject E (refType first)
              then liftResult (getDataManagementFromCustomSettings instances)
                     ≫= fun d => mret (Some d)
              else mret dataManagement);
           match actualDataManagement with
           | None =>
               throw (Error "dataManagement must be defined in the salesforce.nacl config to deploy Custom Object instances")
           | Some actualDataManagement =>
               if forallb isAdditionChange changes
               then
                 let ids := getIdFields E (refType first) actualDataManagement in
                 let idFields := fst ids in
                 match snd ids with
                 | Some (f :: fs) =>
                     throw (Error ("Failed to add instances of type "
                                   +:+ default "undefined" (head instanceTypes)
                                   +:+ " due to invalid SaltoIdFields - "
                                   +:+ join "," (f :: fs)))
                 | _ => deployAddInstances instances idFields client
                 end
               else if forallb isRemovalChange changes
               then deployRemoveInstances instances client
               else
                 match modificationData changes with
                 | Some data => deployModifyChanges data client
                 | None =>
                     throw (Error "Custom Object Instances change group must have one action")
                 end
           end
       end)
    (fun error => mret (mkDeployResult [] [error])).

End Deploy.

(** ** Reading a world *)

(** An instance as a callee reads it in world [w]. *)
Definition instanceState (w : World) (i : InstanceElement) : InstanceState :=
  mkInstance (elemID i) (refType i) (default [] (store w !! value i)).

Definition valueIn (w : World) (i : InstanceElement) : Values :=
  default [] (store w !! value i).

(** The bulk calls of a log. *)
Definition isBulk (ev : ClientEvent) : bool :=
  match ev with EvBulk _ _ _ _ => true | EvQuery _ _ => false end.

Definition bulkCalls (log : list ClientEvent) : list ClientEvent :=
  List.filter isBulk log.

(** What a step that only reads the store and queries the client leaves
    unchanged: the store and the bulk calls of the log. *)
Definition sameStoreAndBulk (w w' : World) : Prop :=
  store w' = store w /\ bulkCalls (calls w') = bulkCalls (calls w).

(** The results of a bulk call paired with the instances submitted, as an
    executor reads them: [irs] are the pairs when [instances] is not empty
    and the call, logged after [log], answered one result for each. *)
Definition answeredBy (typeName : string) (operation : BulkOperation)
    (records : list SalesforceRecord) (instances : list InstanceElement)
    (irs : list InstanceAndResult) (log log' : list ClientEvent) : Prop :=
  (instances = [] /\ irs = [] /\ log' = log)
  \/ (exists results,
        instances <> []
        /\ log' = log ++ [EvBulk typeName operation records (inr results)]
        /\ definedResults (groupInstancesAndResultsByIndex results instances) = inr irs).

(** The pairs whose result reports success. *)
Definition succeeded (irs : list InstanceAndResult) : list InstanceAndResult :=
  List.filter (fun ir : InstanceAndResult => result_success (snd ir)) irs.

(** The store after [instance.value[Id] = result.id] for each pair. *)
Definition writeIds (st : gmap loc Values) (l : list InstanceAndResult)
  : gmap loc Values :=
  foldl (fun st ir =>
           <[value (fst ir) :=
               Js.set (default [] (st !! value (fst ir)))
                      CUSTOM_OBJECT_ID_FIELD (resultIdValue (snd ir))]> st)
        st l.

(** What a bulk executor leaves behind when it issues its call: the log
    with that one call added. *)
Definition afterBulk (client : SalesforceClient) (typeName : string)
    (operation : BulkOperation) (records : list SalesforceRecord) (w : World)
  : World :=
  mkWorld (store w)
          (calls w ++ [EvBulk typeName operation records
                         (bulkLoadOperation client (calls w) typeName operation records)]).

(** ** The identity fields of some values *)

(** The id fields that have a value: a property whose value is [undefined]
    does not show in the text that is digested. *)
Definition definedFields (vals : Values) (idFieldsNames : list string) : list string :=
  List.filter (fun f => negb (isUndefined (Js.get vals f))) idFieldsNames.

(** A value of a record as [cloneWithoutNulls] leaves it: [null] is read as
    [undefined], a nested object is cloned. *)
Definition normalizeNull (v : Value) : Value :=
  if isNull v then VUndefined else cloneWithoutNullsValue v.

(** [null] or [undefined]. *)
Definition isNullish (v : Value) : bool := isNull v || isUndefined v.

(** ** Matching instances with fetched records *)

Section Matching.

Variable E : Externals.
Variables (type : TypeElement) (idFieldsNames : list string).
Variable records : list SalesforceRecord.

(** The record found for the values of an instance, if any. *)
Definition matchedRecord (vals : Values) : option SalesforceRecord :=
  keyBy records (computeRecordSaltoIdHash E type idFieldsNames)
    !! computeSaltoIdHash E idFieldsNames vals.

(** The condition of the partition of [deployAddInstances]. *)
Definition isExisting (w : World) (i : InstanceElement) : bool :=
  bool_decide (is_Some (matchedRecord (valueIn w i))).

Definition existingOf (w : World) (instances : list InstanceElement) :=
  List.filter (isExisting w) instances.

Definition newOf (w : World) (instances : list InstanceElement) :=
  List.filter (fun i => negb (isExisting w i)) instances.

(** The store after the [Id] of its record is written into an instance,
    and into each instance of a list. *)
Definition writeMatchedOne (st : gmap loc Values) (x : InstanceElement)
  : gmap loc Values :=
  match matchedRecord (default [] (st !! value x)) with
  | Some record =>
      <[value x := Js.set (default [] (st !! value x)) CUSTOM_OBJECT_ID_FIELD
                          (Js.get record CUSTOM_OBJECT_ID_FIELD)]> st
  | None => st
  end.

Definition writeMatched (st : gmap loc Values) (l : list InstanceElement)
  : gmap loc Values :=
  foldl writeMatchedOne st l.

End Matching.

(** ** The modify path, read in a world *)

Section ModifyReading.

Variable E : Externals.
Variable w : World.

(** The condition of the partition of [deployModifyChanges]. *)
Definition sameApiNameIn (changeData : ChangeData) : bool :=
  String.eqb (apiName_instance E (instanceState w (fst changeData)))
             (apiName_instance E (instanceState w (snd changeData))).

Definition diffApiNameErrorIn (changeData : ChangeData) : JsError :=
  Error ("Failed to update as api name prev="
         +:+ apiName_instance E (instanceState w (fst changeData))
         +:+ " and new=" +:+ apiName_instance E (instanceState w (snd changeData))
         +:+ " are different").

Definition foundEqualIn (successInstances : list InstanceElement)
    (changeData : ChangeData) : bool :=
  existsb (fun s => isEqual E s (instanceState w (snd changeData)))
          (map (instanceState w) successInstances).

Definition validDataOf (changes : list ChangeData) : list ChangeData :=
  List.filter sameApiNameIn changes.

Definition diffApiNameDataOf (changes : list ChangeData) : list ChangeData :=
  List.filter (fun d => negb (sameApiNameIn d)) changes.

End ModifyReading.

(** The bulk call an executor adds to the log for [instances], none when
    there is no instance. *)
Definition bulkCallFor (client : SalesforceClient) (typeName : string)
    (operation : BulkOperation) (records : list SalesforceRecord)
    (instances : list InstanceElement) (log : list ClientEvent)
  : list ClientEvent :=
  match instances with
  | [] => []
  | _ :: _ => [EvBulk typeName operation records
                 (bulkLoadOperation client log typeName operation records)]
  end.

(** ** Rejected calls *)

(** The error of a call the client rejected. *)
Definition rejection (ev : ClientEvent) : option JsError :=
  match ev with
  | EvQuery _ (inl e) => Some e
  | EvBulk _ _ _ (inl e) => Some e
  | _ => None
  end.

(** A computation fails fast: it only adds calls to the log, and when one
    of the calls it adds is rejected, it throws the error of that call. *)
Definition failFast {A : Type} (m : M A) : Prop :=
  forall w,
  exists evs,
    calls (snd (m w)) = calls w ++ evs
    /\ forall ev e, ev ∈ evs -> rejection ev = Some e -> fst (m w) = inl e.

(** The data management the exported function goes on with. *)
Definition actualDataManagementOf (E : Externals) (first : InstanceElement)
    (dataManagement : option (DataManagement E)) : option (DataManagement E) :=
  if isListCustomSettingsObject E (refType first)
  then Some (buildDataManagement E ["^" +:+ apiName_type E (refType first)] ["Name"])
  else dataManagement.

(** [instanceTypes] of the exported function. *)
Definition instanceTypesOf (E : Externals) (changes : list Change) : list string :=
  uniq (map (fun inst => apiName_type E (refType inst)) (map getChangeElement changes)).

(** What the exported function does once the types are one and the data
    management is settled. *)
Definition groupDispatchOf (E : Externals) (client : SalesforceClient)
    (changes : list Change) (first : InstanceElement) (d : DataManagement E)
  : M DeployResult :=
  if forallb isAdditionChange changes
  then
    match snd (getIdFields E (refType first) d) with
    | Some (f :: fs) =>
        throw (Error ("Failed to add instances of type "
                      +:+ default "undefined" (head (instanceTypesOf E changes))
                      +:+ " due to invalid SaltoIdFields - "
                      +:+ join "," (f :: fs)))
    | _ => deployAddInstances E (map getChangeElement changes)
             (fst (getIdFields E (refType first) d)) client
    end
  else if forallb isRemovalChange changes
  then deployRemoveInstances E (map getChangeElement changes) client
  else
    match modificationData changes with
    | Some data => deployModifyChanges E data client
    | None => throw (Error "Custom Object Instances change group must have one action")
    end.

(** ** A sample environment

    Concrete collaborators, used to run the definitions on examples. *)
Module Sample.

Definition typeNameOf (t : TypeElement) : string :=
  match t with ObjectType n _ => n | _ => "" end.

Definition fullNameOf (i : InstanceState) : string :=
  match Js.get (value i) "fullName" with VStr s => s | _ => "" end.

(** The collaborators, for a given digest. *)
Definition envWith (digest : string -> string) : Externals :=
  {| DataManagement := list string;
     toMD5 := digest;
     apiName_type := typeNameOf;
     apiName_field := field_name;
     apiName_instance := fullNameOf;
     instancesToCreateRecords := map value;
     instancesToUpdateRecords := map value;
     instancesToDeleteRecords :=
       map (fun i : InstanceState =>
              [(CUSTOM_OBJECT_ID_FIELD, Js.get (value i) CUSTOM_OBJECT_ID_FIELD)]);
     isCompoundDataType := fun _ => false;
     capitalizeFirstLetter := fun s => s;
     getIdFields := fun _ names =>
       (map (fun n => mkField n (PrimitiveType STRING)) names, None);
     buildSelectQueries := fun typeName _ _ => ["SELECT Id FROM " +:+ typeName];
     transformRecordToValues := fun _ r => r;
     isListCustomSettingsObject := fun _ => false;
     buildDataManagement := fun _ names => names;
     isEqual := fun a b =>
       String.eqb (elem_fullName (elemID a)) (elem_fullName (elemID b))
       && String.eqb (Json.stringify (value a)) (Json.stringify (value b)) |}.

(** The digest of the examples is the identity, which, as a digest does in
    practice, gives two texts the same digest only when they are the same. *)
Definition env : Externals := envWith (fun s => s).

(** A client that answers every query with [records] and a bulk call with
    the answer given for its operation. *)
Definition client (records : list SalesforceRecord)
    (onInsert onUpdate onDelete : JsError + list BatchResultInfo)
  : SalesforceClient :=
  {| queryAll := fun _ _ => inr records;
     bulkLoadOperation := fun _ _ op _ =>
       match op with
       | OpInsert => onInsert
       | OpUpdate => onUpdate
       | OpDelete => onDelete
       end |}.

Definition account : TypeElement :=
  ObjectType "Account" [("Id", PrimitiveType STRING); ("Name", PrimitiveType STRING)].

Definition inst (l : loc) (name : string) : InstanceElement :=
  mkInstance (mkElemID name ("salesforce.Account.instance." +:+ name)) account l.

Definition ok (id : string) : BatchResultInfo := mkResult (Some id) true None.
Definition failed (errs : list string) : BatchResultInfo :=
  mkResult None false (Some errs).

Definition world (values : list (loc * Values)) : World :=
  mkWorld (list_to_map values) [].

(** An Add of one instance whose name the remote store already holds. *)
Definition nameField : list Field := [mkField "Name" (PrimitiveType STRING)].
Definition acme : InstanceElement := inst 0 "acme".
Definition remoteAcme : SalesforceRecord := [("Id", VStr "001"); ("Name", VStr "Acme")].
Definition upsertWorld : World := world [(0, [("Name", VStr "Acme")])].
Definition upsertClient : SalesforceClient :=
  client [remoteAcme] (inr []) (inr [ok "001"]) (inr []).
Definition upsertRun : (JsError + DeployResult) * World :=
  deployAddInstances env [acme] nameField upsertClient upsertWorld.

(** The same Add when the remote store rejects the update of the record. *)
Definition failedUpsertClient : SalesforceClient :=
  client [remoteAcme] (inr []) (inr [failed ["locked"]]) (inr []).
Definition failedUpsertRun : (JsError + DeployResult) * World :=
  deployAddInstances env [acme] nameField failedUpsertClient upsertWorld.

(** An Add of two instances with the same name, which the remote store
    does not hold. *)
Definition twin : InstanceElement := inst 1 "twin".
Definition twinsWorld : World :=
  world [(0, [("Name", VStr "Acme")]); (1, [("Name", VStr "Acme")])].
Definition twinsClient : SalesforceClient :=
  client [] (inr [ok "001"; ok "002"]) (inr []) (inr []).
Definition twinsRun : (JsError + DeployResult) * World :=
  deployAddInstances env [acme; twin] nameField twinsClient twinsWorld.

(** An Add of three instances the remote store does not hold, the second
    of which it rejects. *)
Definition third : InstanceElement := inst 2 "third".
Definition trioWorld : World :=
  world [(0, [("Name", VStr "Acme")]); (1, [("Name", VStr "Twin")]);
         (2, [("Name", VStr "Third")])].
Definition trioClient : SalesforceClient :=
  client [] (inr [ok "001"; failed ["duplicate value"; "bad name"]; ok "003"])
         (inr []) (inr []).

(** A Modify of two instances, the second of which changes its api name. *)
Definition before0 : InstanceElement := inst 10 "kept".
Definition after0 : InstanceElement := inst 11 "kept".
Definition before1 : InstanceElement := inst 12 "renamed".
Definition after1 : InstanceElement := inst 13 "renamed".
Definition modifyWorld : World :=
  world [(10, [("fullName", VStr "A"); ("Id", VStr "001"); ("Name", VStr "old")]);
         (11, [("fullName", VStr "A"); ("Id", VStr "001"); ("Name", VStr "new")]);
         (12, [("fullName", VStr "B"); ("Id", VStr "002")]);
         (13, [("fullName", VStr "C"); ("Id", VStr "002")])].
Definition modifyClient : SalesforceClient :=
  client [] (inr []) (inr [ok "001"]) (inr []).

End Sample.

(** ** Primitive types *)

(** [isPrimitiveType] of adapter-api *)
Definition isPrimitiveType (t : TypeElement) : bool :=
  match t with PrimitiveType _ => true | _ => false end.

(** ** Results that are reported nowhere *)

(** A pair whose result reports neither success nor errors. *)
Definition unreported (ir : InstanceAndResult) : bool :=
  negb (result_success (snd ir))
  && negb (bool_decide (is_Some (result_errors (snd ir)))).

(** ** The calls of a computation *)

(** A computation adds to the log only calls of which [P] holds. *)
Definition emits {A : Type} (P : ClientEvent -> Prop) (m : M A) : Prop :=
  forall w, exists evs, calls (snd (m w)) = calls w ++ evs /\ Forall P evs.

(** The calls a group of changes may issue: queries and inserts for
    additions only, updates for additions or for modifications, deletes for
    removals only, and every bulk call for the type of the first instance. *)
Definition callOfGroup (E : Externals) (changes : list Change) (ev : ClientEvent)
  : Prop :=
  match ev with
  | EvQuery _ _ => forallb isAdditionChange changes = true
  | EvBulk typeName operation _ _ =>
      head (map (fun c => apiName_type E (refType (getChangeElement c))) changes)
      = Some typeName
      /\ match operation with
         | OpInsert => forallb isAdditionChange changes = true
         | OpUpdate => forallb isAdditionChange changes
                       || forallb isModificationChange changes = true
         | OpDelete => forallb isRemovalChange changes = true
         end
  end.


(** ** Objects as JavaScript lists them *)

(** Whether [null] occurs in a value, at any depth. *)
Fixpoint containsNull (v : Value) : bool :=
  match v with
  | VNull => true
  | VObj es =>
      (fix any (es : list (string * Value)) : bool :=
         match es with
         | [] => false
         | (_, x) :: r => containsNull x || any r
         end) es
  | _ => false
  end.

(** The value of a decimal digit. *)
Definition digitOf (c : ascii) : N := N.of_nat (nat_of_ascii c - 48).

(** Whether property [k] is listed before property [k'] in an object that
    has both: array indices in ascending order, then the other names. *)
Definition keyBefore (k k' : string) : Prop :=
  match Js.arrayIndex k, Js.arrayIndex k' with
  | Some n, Some m => (n < m)%N
  | None, Some _ => False
  | _, _ => k <> k'
  end.

(** The properties of an object in an order in which JavaScript lists
    them, no name twice. *)
Fixpoint ordered (o : Values) : Prop :=
  match o with
  | [] => True
  | (k, _) :: r =>
      Forall (fun kv : string * Value => keyBefore k (fst kv)) r /\ ordered r
  end.

(** A value whose objects, at any depth, list their properties so. *)
Fixpoint wellListed (v : Value) : Prop :=
  match v with
  | VObj es =>
      ordered es
      /\ (fix all (es : list (string * Value)) : Prop :=
            match es with
            | [] => True
            | (_, x) :: r => wellListed x /\ all r
            end) es
  | _ => True
  end.

(** ** More sample collaborators *)

Module Cases.

(** A client that answers every bulk call with the same results. *)
Definition answering (results : list BatchResultInfo) : SalesforceClient :=
  Sample.client [] (inr results) (inr results) (inr results).

Definition upper (c : ascii) : ascii :=
  let n := nat_of_ascii c in
  if (97 <=? n)%nat && (n <=? 122)%nat then ascii_of_nat (n - 32) else c.

Definition capitalize (s : string) : string :=
  match s with
  | String c r => String (upper c) r
  | EmptyString => ""
  end.

Definition whereOf (pairs : list (list (string * string))) : string :=
  join " AND " (map (fun p : string * string => fst p +:+ "=" +:+ snd p)
                    (concat pairs)).

(** Collaborators with a compound type, a list custom settings type, and
    one query for each instance. *)
Definition env : Externals :=
  {| DataManagement := list string;
     toMD5 := fun s => s;
     apiName_type := Sample.typeNameOf;
     apiName_field := field_name;
     apiName_instance := Sample.fullNameOf;
     instancesToCreateRecords := map value;
     instancesToUpdateRecords := map value;
     instancesToDeleteRecords :=
       map (fun i : InstanceState =>
              [(CUSTOM_OBJECT_ID_FIELD, Js.get (value i) CUSTOM_OBJECT_ID_FIELD)]);
     isCompoundDataType := fun t => String.eqb (Sample.typeNameOf t) "Address";
     capitalizeFirstLetter := capitalize;
     getIdFields := fun _ names =>
       (map (fun n => mkField n (PrimitiveType STRING)) names, None);
     buildSelectQueries := fun typeName _ idValues =>
       map (fun pairs => "SELECT Id FROM " +:+ typeName +:+ " WHERE " +:+ whereOf pairs)
           idValues;
     transformRecordToValues := fun _ r => r;
     isListCustomSettingsObject := fun t => String.eqb (Sample.typeNameOf t) "Settings";
     buildDataManagement := fun _ names => names;
     isEqual := fun a b =>
       String.eqb (elem_fullName (elemID a)) (elem_fullName (elemID b))
       && String.eqb (Json.stringify (value a)) (Json.stringify (value b)) |}.

Definition address : TypeElement :=
  ObjectType "Address" [("city", PrimitiveType STRING); ("street", PrimitiveType STRING)].

Definition billingAddress : Field := mkField "BillingAddress" address.

Definition settings : TypeElement :=
  ObjectType "Settings" [("Id", PrimitiveType STRING); ("Name", PrimitiveType STRING)].

Definition setting : InstanceElement :=
  mkInstance (mkElemID "main" "salesforce.Settings.instance.main") settings 0.

(** An id field that holds a list. *)
Definition tags : Field := mkField "Tags" (ContainerType (PrimitiveType STRING)).
Definition taggedWorld : World := Sample.world [(0, [("Tags", VStr "a")])].

(** An instance with a number for its name. *)
Definition numberedWorld : World := Sample.world [(0, [("Name", VNum 5)])].

(** Two instances the remote store holds. *)
Definition storedWorld : World :=
  Sample.world [(0, [("Name", VStr "Acme"); ("Id", VStr "001")]);
                (1, [("Name", VStr "Twin"); ("Id", VStr "002")])].

(** A Modify of two instances that keep their api names. *)
Definition before2 : InstanceElement := Sample.inst 14 "other".
Definition after2 : InstanceElement := Sample.inst 15 "other".
Definition modifyTwoWorld : World :=
  Sample.world
    [(10, [("fullName", VStr "A"); ("Id", VStr "001"); ("Name", VStr "old")]);
     (11, [("fullName", VStr "A"); ("Id", VStr "001"); ("Name", VStr "new")]);
     (14, [("fullName", VStr "D"); ("Id", VStr "004"); ("Name", VStr "old")]);
     (15, [("fullName", VStr "D"); ("Id", VStr "004"); ("Name", VStr "new")])].

(** A client that knows one account by its name. *)
Definition acmeQuery : string := "SELECT Id FROM Account WHERE Name='Acme'".
Definition answerOf (query : string) : list SalesforceRecord :=
  if String.eqb query acmeQuery then [Sample.remoteAcme] else [].
Definition directory : SalesforceClient :=
  {| queryAll := fun _ query => inr (answerOf query);
     bulkLoadOperation := fun _ _ _ _ => inr [] |}.

(** A client that inserts and rejects every update. *)
Definition locked : JsError := Error "UNABLE_TO_LOCK_ROW".
Definition rejectingUpdates : SalesforceClient :=
  Sample.client [Sample.remoteAcme] (inr [Sample.ok "002"]) (inl locked) (inr []).

End Cases.

(** * Properties *)

(** ** The definitions on examples *)

Example fromEntries_lists_indices_first :
  Js.fromEntries [("b", VNum 1); ("2", VNum 2); ("a", VNum 3); ("1", VNum 4);
                  ("b", VNum 5); ("01", VNull)]
  = [("1", VNum 4); ("2", VNum 2); ("b", VNum 5); ("a", VNum 3); ("01", VNull)].
Proof. reflexivity. Qed.

Example stringify_leaves_out_undefined :
  Json.stringify [("a", VNum (-12)); ("u", VUndefined);
                  ("c", VObj [("d", VNull); ("e", VBool true)])]
  = "{" +:+ Json.quote "a" +:+ ":-12," +:+ Json.quote "c" +:+ ":{"
    +:+ Json.quote "d" +:+ ":null," +:+ Json.quote "e" +:+ ":true}}".
Proof. reflexivity. Qed.

Example escape_control_characters :
  Json.escape (String "010"%char (String "001"%char (String Json.dquote "a\")))
  = "\n\u0001\" +:+ String Json.dquote "a\\".
Proof. reflexivity. Qed.

Example cloneWithoutNulls_nested :
  cloneWithoutNulls [("Name", VStr "Acme"); ("Phone", VNull);
                     ("Address", VObj [("city", VNull); ("street", VStr "Main")])]
  = [("Name", VStr "Acme"); ("Address", VObj [("street", VStr "Main")])].
Proof. reflexivity. Qed.

Example rejected_insert_is_the_one_error :
  fst (deployCustomObjectInstancesGroup Sample.env [AdditionChange Sample.acme]
         (Sample.client [] (inl (Error "socket hang up")) (inr []) (inr []))
         (Some ["Name"]) Sample.upsertWorld)
  = inr (mkDeployResult [] [Error "socket hang up"]).
Proof. vm_compute. reflexivity. Qed.

Example mixed_group_is_one_error :
  fst (deployCustomObjectInstancesGroup Sample.env
         [AdditionChange Sample.acme; RemovalChange Sample.twin]
         (Sample.client [] (inr []) (inr []) (inr []))
         (Some ["Name"]) Sample.twinsWorld)
  = inr (mkDeployResult []
           [Error "Custom Object Instances change group must have one action"]).
Proof. vm_compute. reflexivity. Qed.

(** ** The monad *)

Lemma bind_inr {A B : Type} (m : M A) (f : A -> M B) w a w' :
  m w = (inr a, w') -> (m ≫= f) w = f a w'.
Proof. intros H. unfold mbind, M_bind. now rewrite H. Qed.

Lemma bind_inl {A B : Type} (m : M A) (f : A -> M B) w e w' :
  m w = (inl e, w') -> (m ≫= f) w = (inl e, w').
Proof. intros H. unfold mbind, M_bind. now rewrite H. Qed.

Lemma bind_inv {A B : Type} (m : M A) (f : A -> M B) w b w2 :
  (m ≫= f) w = (inr b, w2) ->
  exists a w1, m w = (inr a, w1) /\ f a w1 = (inr b, w2).
Proof.
  unfold mbind, M_bind. destruct (m w) as [[e|a] w1]; intros H.
  - discriminate.
  - eauto.
Qed.

Lemma readValue_run i w : readValue i w = (inr (valueIn w i), w).
Proof. reflexivity. Qed.

Lemma readInstance_run i w : readInstance i w = (inr (instanceState w i), w).
Proof. reflexivity. Qed.

Lemma mapM_readInstance l w :
  mapM readInstance l w = (inr (map (instanceState w) l), w).
Proof.
  induction l as [|x r IH]; [reflexivity|].
  cbn [mapM]. rewrite (bind_inr _ _ _ _ _ (readInstance_run x w)).
  rewrite (bind_inr _ _ _ _ _ IH). reflexivity.
Qed.

Lemma forEach_writeIds (l : list InstanceAndResult) w :
  forEach (fun ir : InstanceAndResult =>
             writeValue (fst ir) CUSTOM_OBJECT_ID_FIELD (resultIdValue (snd ir))) l w
  = (inr tt, mkWorld (writeIds (store w) l) (calls w)).
Proof.
  revert w. induction l as [|ir r IH]; intros w.
  - destruct w; reflexivity.
  - cbn [forEach]. unfold mbind, M_bind, writeValue at 1. rewrite IH. reflexivity.
Qed.

(** ** The bulk executors *)

Section Executors.

Variable E : Externals.
Variables (client : SalesforceClient) (typeName : string).

Lemma callBulk_run op records w :
  callBulkLoadOperation client typeName op records w
  = (bulkLoadOperation client (calls w) typeName op records,
     afterBulk client typeName op records w).
Proof. reflexivity. Qed.

Lemma insertInstances_nil w :
  insertInstances E typeName [] client w = (inr emptyActionResult, w).
Proof. reflexivity. Qed.

Lemma updateInstances_nil w :
  updateInstances E typeName [] client w = (inr emptyActionResult, w).
Proof. reflexivity. Qed.

(** The run of [updateInstances] on a list that is not empty. *)
Lemma updateInstances_cons i rest w :
  let instances := i :: rest in
  let records := instancesToUpdateRecords E (map (instanceState w) instances) in
  let w1 := afterBulk client typeName OpUpdate records w in
  updateInstances E typeName instances client w
  = match bulkLoadOperation client (calls w) typeName OpUpdate records with
    | inl e => (inl e, w1)
    | inr results =>
        match definedResults (groupInstancesAndResultsByIndex results instances) with
        | inl e => (inl e, w1)
        | inr irs => (inr (getActionResult irs), w1)
        end
    end.
Proof.
  intros instances records w1. unfold updateInstances.
  change (length instances =? 0)%nat with false. cbv iota.
  rewrite (bind_inr _ _ _ _ _ (mapM_readInstance instances w)).
  unfold mbind at 1, M_bind at 1. rewrite callBulk_run. fold records. fold w1.
  destruct (bulkLoadOperation client (calls w) typeName OpUpdate records) as [e|results];
    [reflexivity|].
  unfold mbind, M_bind.
  destruct (definedResults _) as [e|irs]; reflexivity.
Qed.

Lemma deleteInstances_run instances w :
  let records := instancesToDeleteRecords E (map (instanceState w) instances) in
  let w1 := afterBulk client typeName OpDelete records w in
  deleteInstances E typeName instances client w
  = match bulkLoadOperation client (calls w) typeName OpDelete records with
    | inl e => (inl e, w1)
    | inr results =>
        match definedResults (groupInstancesAndResultsByIndex results instances) with
        | inl e => (inl e, w1)
        | inr irs => (inr (getActionResult irs), w1)
        end
    end.
Proof.
  intros records w1. unfold deleteInstances.
  rewrite (bind_inr _ _ _ _ _ (mapM_readInstance instances w)).
  unfold mbind at 1, M_bind at 1. rewrite callBulk_run. fold records. fold w1.
  destruct (bulkLoadOperation client (calls w) typeName OpDelete records) as [e|results];
    [reflexivity|].
  unfold mbind, M_bind.
  destruct (definedResults _) as [e|irs]; reflexivity.
Qed.

(** The run of [insertInstances] on a list that is not empty: the ids of
    the records that succeeded are written after the call. *)
Lemma insertInstances_cons i rest w :
  let instances := i :: rest in
  let records := instancesToCreateRecords E (map (instanceState w) instances) in
  let w1 := afterBulk client typeName OpInsert records w in
  insertInstances E typeName instances client w
  = match bulkLoadOperation client (calls w) typeName OpInsert records with
    | inl e => (inl e, w1)
    | inr results =>
        match definedResults (groupInstancesAndResultsByIndex results instances) with
        | inl e => (inl e, w1)
        | inr irs =>
            let succ := List.filter (fun ir : InstanceAndResult => result_success (snd ir)) irs in
            (inr (mkActionResult (map fst succ) (getAndLogErrors irs)),
             mkWorld (writeIds (store w) succ) (calls w1))
        end
    end.
Proof.
  intros instances records w1. unfold insertInstances.
  change (length instances =? 0)%nat with false. cbv iota.
  rewrite (bind_inr _ _ _ _ _ (mapM_readInstance instances w)).
  unfold mbind at 1, M_bind at 1. rewrite callBulk_run. fold records. fold w1.
  destruct (bulkLoadOperation client (calls w) typeName OpInsert records) as [e|results];
    [reflexivity|].
  unfold mbind at 1, M_bind at 1.
  destruct (definedResults _) as [e|irs]; [reflexivity|].
  cbn [liftResult]. unfold mret at 1, M_ret at 1.
  unfold mbind, M_bind. rewrite forEach_writeIds. reflexivity.
Qed.

End Executors.

(** ** Properties of objects *)

Lemma has_false_get o k : Js.has o k = false -> Js.get o k = VUndefined.
Proof.
  induction o as [|[k' v'] r IH]; cbn; [reflexivity|].
  destruct (String.eqb k' k); cbn; [discriminate|exact IH].
Qed.

Lemma get_replace o k v k' :
  Js.has o k = true ->
  Js.get (Js.replace o k v) k' = if String.eqb k k' then v else Js.get o k'.
Proof.
  induction o as [|[k0 v0] r IH]; cbn; [discriminate|].
  destruct (String.eqb k0 k) eqn:Hk; cbn.
  - apply String.eqb_eq in Hk. subst k0. intros _.
    destruct (String.eqb k k'); reflexivity.
  - intros H. destruct (String.eqb k0 k') eqn:Hk'.
    + apply String.eqb_eq in Hk'. subst k0.
      rewrite String.eqb_sym in Hk. rewrite Hk. reflexivity.
    + apply IH, H.
Qed.

Lemma get_insertIndex o n k v k' :
  Js.has o k = false ->
  Js.get (Js.insertIndex o n k v) k' = if String.eqb k k' then v else Js.get o k'.
Proof.
  induction o as [|[k0 v0] r IH]; cbn.
  - reflexivity.
  - destruct (String.eqb k0 k) eqn:Hk; cbn; [discriminate|]. intros H.
    assert (Hhd : Js.get ((k, v) :: (k0, v0) :: r) k'
                  = if String.eqb k k' then v else Js.get ((k0, v0) :: r) k')
      by reflexivity.
    destruct (Js.arrayIndex k0) as [m|]; [destruct (m <? n)%N|]; try exact Hhd.
    cbn. destruct (String.eqb k0 k') eqn:Hk'.
    + apply String.eqb_eq in Hk'. subst k0.
      rewrite String.eqb_sym in Hk. rewrite Hk. reflexivity.
    + apply IH, H.
Qed.

Lemma get_snoc o k v k' :
  Js.has o k = false ->
  Js.get (o ++ [(k, v)]) k' = if String.eqb k k' then v else Js.get o k'.
Proof.
  induction o as [|[k0 v0] r IH]; cbn.
  - reflexivity.
  - destruct (String.eqb k0 k) eqn:Hk; cbn; [discriminate|]. intros H.
    destruct (String.eqb k0 k') eqn:Hk'.
    + apply String.eqb_eq in Hk'. subst k0.
      rewrite String.eqb_sym in Hk. rewrite Hk. reflexivity.
    + apply IH, H.
Qed.

(** Reading after [o[k] = v]. *)
Lemma get_set o k v k' :
  Js.get (Js.set o k v) k' = if String.eqb k k' then v else Js.get o k'.
Proof.
  unfold Js.set. destruct (Js.has o k) eqn:Hh.
  - apply get_replace, Hh.
  - destruct (Js.arrayIndex k); [apply get_insertIndex|apply get_snoc]; exact Hh.
Qed.

Lemma get_set_eq o k v : Js.get (Js.set o k v) k = v.
Proof. rewrite get_set, String.eqb_refl. reflexivity. Qed.

Lemma get_set_ne o k v k' : k <> k' -> Js.get (Js.set o k v) k' = Js.get o k'.
Proof.
  intros H. rewrite get_set. apply String.eqb_neq in H. rewrite H. reflexivity.
Qed.

(** ** Writes into the store *)

Lemma elem_of_map {A B : Type} (f : A -> B) (l : list A) (x : A) :
  x ∈ l -> f x ∈ map f l.
Proof. rewrite !list_elem_of_In. apply in_map. Qed.

Lemma writeIds_lookup_notin (l : list InstanceAndResult) st l0 :
  l0 ∉ map (fun ir : InstanceAndResult => value (fst ir)) l ->
  writeIds st l !! l0 = st !! l0.
Proof.
  revert st. induction l as [|ir t IH]; intros st Hn; [reflexivity|].
  cbn in Hn. apply not_elem_of_cons in Hn as [Hne Hn].
  cbn. rewrite IH by exact Hn. rewrite lookup_insert_ne by (intros Heq; apply Hne; symmetry; exact Heq). reflexivity.
Qed.

Lemma writeIds_lookup_in (l : list InstanceAndResult) st x r :
  NoDup (map (fun ir : InstanceAndResult => value (fst ir)) l) ->
  (x, r) ∈ l ->
  writeIds st l !! value x
  = Some (Js.set (default [] (st !! value x)) CUSTOM_OBJECT_ID_FIELD (resultIdValue r)).
Proof.
  revert st. induction l as [|ir t IH]; intros st Hnd Hin.
  - apply elem_of_nil in Hin. contradiction.
  - cbn in Hnd. apply NoDup_cons in Hnd as [Hhd Hnd].
    apply elem_of_cons in Hin as [Heq|Hin]; cbn.
    + subst ir. cbn in *. rewrite writeIds_lookup_notin by exact Hhd.
      apply lookup_insert_eq.
    + rewrite (IH _ Hnd Hin). rewrite lookup_insert_ne; [reflexivity|].
      intros Heq. apply Hhd.
      refine (eq_rect_r (fun z => z ∈ _) _ Heq).
      apply (elem_of_map (fun ir : InstanceAndResult => value (fst ir)) _ _ Hin).
  Qed.

Section MatchingFacts.

Variable E : Externals.
Variables (type : TypeElement) (idFieldsNames : list string).
Variable records : list SalesforceRecord.

Local Abbreviation matched := (matchedRecord E type idFieldsNames records).
Local Abbreviation writeM := (writeMatched E type idFieldsNames records).
Local Abbreviation writeOne := (writeMatchedOne E type idFieldsNames records).

Lemma writeMatched_cons st x t : writeM st (x :: t) = writeM (writeOne st x) t.
Proof. reflexivity. Qed.

Lemma writeMatchedOne_lookup_ne st x l0 :
  value x <> l0 -> writeOne st x !! l0 = st !! l0.
Proof.
  intros Hne. unfold writeMatchedOne. destruct (matched _); [|reflexivity].
  apply lookup_insert_ne, Hne.
Qed.

Lemma writeMatched_lookup_notin l st l0 :
  l0 ∉ map value l -> writeM st l !! l0 = st !! l0.
Proof.
  revert st. induction l as [|x t IH]; intros st Hn; [reflexivity|].
  cbn in Hn. apply not_elem_of_cons in Hn as [Hne Hn].
  rewrite writeMatched_cons, IH by exact Hn.
  apply writeMatchedOne_lookup_ne. intros Heq. apply Hne. symmetry. exact Heq.
Qed.

Lemma writeMatched_lookup_in (l : list InstanceElement) st x record :
  NoDup (map value l) ->
  x ∈ l ->
  matched (default [] (st !! value x)) = Some record ->
  writeM st l !! value x
  = Some (Js.set (default [] (st !! value x)) CUSTOM_OBJECT_ID_FIELD
                 (Js.get record CUSTOM_OBJECT_ID_FIELD)).
Proof.
  revert st. induction l as [|y t IH]; intros st Hnd Hin Hm.
  - apply elem_of_nil in Hin. contradiction.
  - cbn in Hnd. apply NoDup_cons in Hnd as [Hhd Hnd].
    rewrite writeMatched_cons.
    apply elem_of_cons in Hin as [Heq|Hin].
    + subst y. rewrite writeMatched_lookup_notin by exact Hhd.
      unfold writeMatchedOne. rewrite Hm. apply lookup_insert_eq.
    + assert (Hne : value y <> value x).
      { intros Heq. apply Hhd. rewrite Heq. apply (elem_of_map value _ _ Hin). }
      rewrite (IH (writeOne st y) Hnd Hin).
      * rewrite writeMatchedOne_lookup_ne by exact Hne. reflexivity.
      * rewrite writeMatchedOne_lookup_ne by exact Hne. exact Hm.
Qed.

(** The loop that writes the [Id]s does not throw when every instance has
    a record and the instances are distinct objects. *)
Lemma forEach_writeMatched (l : list InstanceElement) w :
  NoDup (map value l) ->
  (forall x, x ∈ l -> is_Some (matched (valueIn w x))) ->
  forEach (fun instance =>
             vals ← readValue instance;
             match keyBy records (computeRecordSaltoIdHash E type idFieldsNames)
                     !! computeSaltoIdHash E idFieldsNames vals with
             | Some record =>
                 writeValue instance CUSTOM_OBJECT_ID_FIELD
                            (Js.get record CUSTOM_OBJECT_ID_FIELD)
             | None => throw (TypeError "Cannot read property 'Id' of undefined")
             end) l w
  = (inr tt, mkWorld (writeM (store w) l) (calls w)).
Proof.
  revert w. induction l as [|x t IH]; intros w Hnd Hall.
  - destruct w; reflexivity.
  - cbn in Hnd. apply NoDup_cons in Hnd as [Hhd Hnd].
    cbn [forEach]. unfold mbind at 1, M_bind at 1.
    rewrite (bind_inr _ _ _ _ _ (readValue_run x w)).
    destruct (Hall x) as [record Hrec]; [apply elem_of_cons; auto|].
    pose proof Hrec as Hrec'. unfold matchedRecord in Hrec'. rewrite Hrec'.
    unfold writeValue at 1. rewrite IH.
    + rewrite writeMatched_cons. unfold writeMatchedOne.
      unfold valueIn in Hrec. cbn [store]. rewrite Hrec. reflexivity.
    + exact Hnd.
    + intros y Hy. unfold valueIn. cbn.
      rewrite lookup_insert_ne.
      * apply Hall. apply elem_of_cons; auto.
      * intros Heq. apply Hhd. rewrite Heq.
        apply (elem_of_map value _ _ Hy).
Qed.

End MatchingFacts.

(** ** Lists *)

Lemma NoDup_map_eq {A B : Type} (f : A -> B) (l : list A) x y :
  NoDup (map f l) -> x ∈ l -> y ∈ l -> f x = f y -> x = y.
Proof.
  induction l as [|a t IH]; intros Hnd Hx Hy Hf.
  - apply elem_of_nil in Hx. contradiction.
  - cbn in Hnd. apply NoDup_cons in Hnd as [Hhd Hnd].
    apply elem_of_cons in Hx as [Hx|Hx]; apply elem_of_cons in Hy as [Hy|Hy].
    + congruence.
    + subst a. exfalso. apply Hhd. rewrite Hf. apply elem_of_map, Hy.
    + subst a. exfalso. apply Hhd. rewrite <- Hf. apply elem_of_map, Hx.
    + apply IH; assumption.
Qed.

Lemma elem_of_filter_bool {A : Type} (p : A -> bool) (l : list A) x :
  x ∈ List.filter p l <-> x ∈ l /\ p x = true.
Proof. rewrite !list_elem_of_In. apply filter_In. Qed.

Lemma elem_of_map_inv {A B : Type} (f : A -> B) (l : list A) y :
  y ∈ map f l -> exists x, f x = y /\ x ∈ l.
Proof.
  rewrite list_elem_of_In. intros H. apply in_map_iff in H as [x [Hx Hin]].
  exists x. split; [exact Hx|]. apply list_elem_of_In, Hin.
Qed.

Lemma NoDup_map_filter {A B : Type} (f : A -> B) (p : A -> bool) (l : list A) :
  NoDup (map f l) -> NoDup (map f (List.filter p l)).
Proof.
  induction l as [|a t IH]; intros Hnd; [exact Hnd|].
  cbn in Hnd. apply NoDup_cons in Hnd as [Hhd Hnd]. cbn.
  destruct (p a); [|apply IH, Hnd].
  cbn. apply NoDup_cons. split; [|apply IH, Hnd].
  intros Hin. apply Hhd. apply elem_of_map_inv in Hin as [x [Hx Hin]].
  rewrite <- Hx. apply elem_of_map. apply elem_of_filter_bool in Hin. tauto.
Qed.

(** ** Grouping results with instances *)

Lemma imap_group_fst (results : list BatchResultInfo) (instances : list InstanceElement) :
  map fst (groupInstancesAndResultsByIndex results instances) = instances.
Proof.
  unfold groupInstancesAndResultsByIndex.
  revert results. induction instances as [|i t IH]; intros results; [reflexivity|].
  cbn. f_equal. destruct results as [|r rs].
  - specialize (IH []). etransitivity; [|exact IH]. f_equal.
  - specialize (IH rs). etransitivity; [|exact IH]. f_equal.
Qed.

Lemma definedResults_fst l irs :
  definedResults l = inr irs -> map fst irs = map fst l.
Proof.
  revert irs. induction l as [|[i [r|]] t IH]; intros irs H; cbn in H.
  - injection H as <-. reflexivity.
  - destruct (definedResults t) as [e|t']; [discriminate|].
    injection H as <-. cbn. f_equal. apply IH. reflexivity.
  - discriminate.
Qed.

Lemma definedResults_instances results instances irs :
  definedResults (groupInstancesAndResultsByIndex results instances) = inr irs ->
  map fst irs = instances.
Proof.
  intros H. rewrite (definedResults_fst _ _ H). apply imap_group_fst.
Qed.

(** The pairs are the instances with the results at their positions. *)
Lemma definedResults_lookup results instances irs j x :
  definedResults (groupInstancesAndResultsByIndex results instances) = inr irs ->
  instances !! j = Some x ->
  exists r, results !! j = Some r /\ irs !! j = Some (x, r).
Proof.
  unfold groupInstancesAndResultsByIndex.
  revert results irs j. induction instances as [|i t IH]; intros results irs j H Hj.
  - discriminate.
  - cbn in H. destruct results as [|r rs]; [discriminate|]. cbn in H.
    destruct (definedResults (imap _ t)) as [e|t'] eqn:Ht; [discriminate|].
    injection H as <-. destruct j as [|j]; cbn in Hj |- *.
    + injection Hj as <-. eauto.
    + eapply (IH rs t' j); [|exact Hj]. rewrite <- Ht. f_equal.
Qed.

(** ** Fetching the records *)

Lemma bulkCalls_app l1 l2 : bulkCalls (l1 ++ l2) = bulkCalls l1 ++ bulkCalls l2.
Proof. apply List.filter_app. Qed.

Lemma mapM_invariant {A B : Type} (P : World -> World -> Prop) (f : A -> M B) l :
  (forall w, P w w) ->
  (forall w1 w2 w3, P w1 w2 -> P w2 w3 -> P w1 w3) ->
  (forall x w, P w (snd (f x w))) ->
  forall w, P w (snd (mapM f l w)).
Proof.
  intros Hrefl Htrans Hf. induction l as [|x r IH]; intros w; cbn [mapM].
  - apply Hrefl.
  - unfold mbind, M_bind. specialize (Hf x w).
    destruct (f x w) as [[e|y] w1]; cbn in *; [exact Hf|].
    specialize (IH w1). destruct (mapM f r w1) as [[e|ys] w2]; cbn in *;
      eapply Htrans; eauto.
Qed.

Lemma sameStoreAndBulk_refl w : sameStoreAndBulk w w.
Proof. split; reflexivity. Qed.

Lemma sameStoreAndBulk_trans w1 w2 w3 :
  sameStoreAndBulk w1 w2 -> sameStoreAndBulk w2 w3 -> sameStoreAndBulk w1 w3.
Proof. intros [H1 H2] [H3 H4]. split; congruence. Qed.

Lemma getRecordsBySaltoIds_frame E type instances idFields client w :
  sameStoreAndBulk w (snd (getRecordsBySaltoIds E type instances idFields client w)).
Proof.
  unfold getRecordsBySaltoIds. unfold mbind at 1, M_bind at 1.
  pose proof (mapM_invariant sameStoreAndBulk
                (fun inst => vals ← readValue inst;
                             liftResult (mapE (getFieldNamesToValues E vals) idFields))
                instances sameStoreAndBulk_refl sameStoreAndBulk_trans) as H1.
  specialize (H1 (fun x w0 => ltac:(
    unfold mbind, M_bind, readValue; cbn;
    destruct (mapE _ idFields); apply sameStoreAndBulk_refl)) w).
  destruct (mapM _ instances w) as [[e|vals] w1]; cbn in *; [exact H1|].
  unfold mbind, M_bind.
  pose proof (mapM_invariant sameStoreAndBulk (callQueryAll client)
                (buildSelectQueries E (apiName_type E type)
                   match List.find (fun field => String.eqb (field_name field) CUSTOM_OBJECT_ID_FIELD) idFields with
                   | Some _ => map Some idFields
                   | None => typeField type CUSTOM_OBJECT_ID_FIELD :: map Some idFields
                   end vals)
                sameStoreAndBulk_refl sameStoreAndBulk_trans) as H2.
  specialize (H2 (fun x w0 => ltac:(
    split; cbn; [reflexivity|]; rewrite bulkCalls_app; cbn; apply app_nil_r)) w1).
  destruct (mapM (callQueryAll client) _ w1) as [[e|rs] w2]; cbn in *;
    eapply sameStoreAndBulk_trans; eauto.
Qed.

(** ** The partition *)

Lemma partitionM_reads {A : Type} (p : A -> M bool) (q : World -> A -> bool) l w :
  (forall x, p x w = (inr (q w x), w)) ->
  partitionM p l w
  = (inr (List.filter (q w) l, List.filter (fun x => negb (q w x)) l), w).
Proof.
  intros Hp. induction l as [|x r IH]; [reflexivity|].
  cbn [partitionM]. rewrite (bind_inr _ _ _ _ _ (Hp x)).
  rewrite (bind_inr _ _ _ _ _ IH). cbn. destruct (q w x); reflexivity.
Qed.

(** ** [keyBy] *)

Lemma keyBy_snoc records (key : SalesforceRecord -> string) r :
  keyBy (records ++ [r]) key = <[key r := r]> (keyBy records key).
Proof. unfold keyBy. rewrite foldl_app. reflexivity. Qed.

(** A key is found exactly when some record has it, and the record found
    carries that key. *)
Lemma keyBy_lookup_Some records (key : SalesforceRecord -> string) h r :
  keyBy records key !! h = Some r -> r ∈ records /\ key r = h.
Proof.
  induction records as [|x t IH] using rev_ind.
  - unfold keyBy. cbn. rewrite lookup_empty. discriminate.
  - rewrite keyBy_snoc. destruct (decide (key x = h)) as [Heq|Hne].
    + rewrite Heq, lookup_insert_eq. intros [= <-].
      split; [apply elem_of_app; right; apply list_elem_of_singleton; reflexivity|exact Heq].
    + rewrite lookup_insert_ne by exact Hne. intros H. apply IH in H as [H1 H2].
      split; [apply elem_of_app; left; exact H1|exact H2].
Qed.

Lemma keyBy_lookup_is_Some records (key : SalesforceRecord -> string) r :
  r ∈ records -> is_Some (keyBy records key !! key r).
Proof.
  induction records as [|x t IH] using rev_ind; intros Hin.
  - apply elem_of_nil in Hin. contradiction.
  - rewrite keyBy_snoc. destruct (decide (key x = key r)) as [Heq|Hne].
    + rewrite Heq, lookup_insert_eq. eauto.
    + rewrite lookup_insert_ne by exact Hne. apply IH.
      apply elem_of_app in Hin as [Hin|Hin]; [exact Hin|].
      apply list_elem_of_singleton in Hin. congruence.
Qed.

(** ** The add path *)

Section AddPath.

Variable E : Externals.
Variable client : SalesforceClient.
Variable idFields : list Field.
Variables (first : InstanceElement) (rest : list InstanceElement).

Local Abbreviation instances := (first :: rest).
Local Abbreviation type := (refType first).
Local Abbreviation typeName := (apiName_type E (refType first)).
Local Abbreviation ids := (map field_name idFields).

Lemma isExisting_store records w w' i :
  store w' = store w ->
  isExisting E type ids records w' i = isExisting E type ids records w i.
Proof. intros H. unfold isExisting, valueIn. rewrite H. reflexivity. Qed.

Lemma existingOf_store records w w' l :
  store w' = store w ->
  existingOf E type ids records w' l = existingOf E type ids records w l.
Proof.
  intros H. unfold existingOf. apply filter_ext. intros i.
  apply isExisting_store, H.
Qed.

Lemma newOf_store records w w' l :
  store w' = store w ->
  newOf E type ids records w' l = newOf E type ids records w l.
Proof.
  intros H. unfold newOf. apply filter_ext. intros i.
  f_equal. apply isExisting_store, H.
Qed.

(** An existing instance and a new one are different objects. *)
Lemma existing_not_new records w x :
  NoDup (map value instances) ->
  x ∈ existingOf E type ids records w instances ->
  value x ∉ map value (newOf E type ids records w instances).
Proof.
  intros Hnd Hx Hin. apply elem_of_filter_bool in Hx as [Hx Hex].
  apply elem_of_map_inv in Hin as [y [Hy Hin]].
  apply elem_of_filter_bool in Hin as [Hin Hnew].
  assert (y = x) by (eapply NoDup_map_eq; eauto). subst y.
  rewrite Hex in Hnew. discriminate.
Qed.

(** [insertInstances] writes into the instances it is given only. *)
Lemma insertInstances_store_notin tn l w a w' l0 :
  insertInstances E tn l client w = (a, w') ->
  l0 ∉ map value l ->
  store w' !! l0 = store w !! l0.
Proof.
  destruct l as [|i t].
  - rewrite insertInstances_nil. intros [= _ <-] _. reflexivity.
  - rewrite insertInstances_cons. cbv zeta.
    destruct (bulkLoadOperation _ _ _ _ _) as [e|results].
    { intros [= _ <-] _. reflexivity. }
    destruct (definedResults _) as [e|irs] eqn:Hirs.
    { intros [= _ <-] _. reflexivity. }
    intros [= _ <-] Hn. cbn [store]. apply writeIds_lookup_notin.
    intros Hin. apply Hn. apply elem_of_map_inv in Hin as [[x r] [Hx Hin]].
    apply elem_of_filter_bool in Hin as [Hin _].
    rewrite <- (definedResults_instances _ _ _ Hirs). cbn in Hx. rewrite <- Hx.
    apply (elem_of_map (fun i => value i)).
    apply (elem_of_map fst _ _ Hin).
Qed.

(** The steps of a run of [deployAddInstances] that returns. *)
Lemma deployAddInstances_inv w res w' :
  NoDup (map value instances) ->
  deployAddInstances E instances idFields client w = (inr res, w') ->
  exists records w1 inserted w2 updated,
    getRecordsBySaltoIds E type instances idFields client w = (inr records, w1)
    /\ insertInstances E typeName (newOf E type ids records w instances) client w1
       = (inr inserted, w2)
    /\ updateInstances E typeName (existingOf E type ids records w instances) client
         (mkWorld (writeMatched E type ids records (store w2)
                     (existingOf E type ids records w instances))
                  (calls w2))
       = (inr updated, w')
    /\ res = mkDeployResult
               (map AdditionChange (successInstances inserted ++ successInstances updated))
               (map Error (errorMessages inserted ++ errorMessages updated)).
Proof.
  intros Hnd Hrun. unfold deployAddInstances in Hrun.
  apply bind_inv in Hrun as (records & w1 & Hrec & Hrun).
  pose proof (getRecordsBySaltoIds_frame E type instances idFields client w) as [Hst1 _].
  rewrite Hrec in Hst1. cbn [snd] in Hst1.
  cbv beta zeta in Hrun.
  apply bind_inv in Hrun as (parts & wp & Hpart & Hrun).
  rewrite (partitionM_reads _ (isExisting E type ids records)) in Hpart
    by (intros x; reflexivity).
  change (List.filter (isExisting E type ids records w1) instances)
    with (existingOf E type ids records w1 instances) in Hpart.
  change (List.filter (fun x => negb (isExisting E type ids records w1 x)) instances)
    with (newOf E type ids records w1 instances) in Hpart.
  assert (Hparts : parts = (existingOf E type ids records w1 instances,
                            newOf E type ids records w1 instances) /\ wp = w1)
    by (split; congruence).
  destruct Hparts as [-> ->]. clear Hpart. cbn [fst snd] in Hrun.
  rewrite (existingOf_store _ _ _ _ Hst1), (newOf_store _ _ _ _ Hst1) in Hrun.
  apply bind_inv in Hrun as (inserted & w2 & Hins & Hrun).
  apply bind_inv in Hrun as ([] & w2' & Hfor & Hrun).
  rewrite forEach_writeMatched in Hfor.
  - injection Hfor as <-.
    apply bind_inv in Hrun as (updated & w3 & Hupd & Hrun).
    injection Hrun as <- <-.
    exists records, w1, inserted, w2, updated. repeat split; assumption.
  - apply NoDup_map_filter, Hnd.
  - intros x Hx.
    assert (Hv : valueIn w2 x = valueIn w x).
    { unfold valueIn.
      rewrite (insertInstances_store_notin _ _ _ _ _ _ Hins
                 (existing_not_new records w x Hnd Hx)).
      rewrite Hst1. reflexivity. }
    rewrite Hv. apply elem_of_filter_bool in Hx as [_ Hx].
    unfold isExisting in Hx. apply bool_decide_eq_true in Hx. exact Hx.
Qed.

End AddPath.

(** ** Runs of the executors that return *)

Section ExecutorRuns.

Variable E : Externals.
Variables (client : SalesforceClient) (typeName : string).

Lemma answeredBy_fst op records instances irs log log' :
  answeredBy typeName op records instances irs log log' -> map fst irs = instances.
Proof.
  intros [(-> & -> & _)|(results & _ & _ & H)]; [reflexivity|].
  apply (definedResults_instances _ _ _ H).
Qed.

Lemma insertInstances_inv instances w a w' :
  insertInstances E typeName instances client w = (inr a, w') ->
  exists irs,
    answeredBy typeName OpInsert
      (instancesToCreateRecords E (map (instanceState w) instances))
      instances irs (calls w) (calls w')
    /\ a = mkActionResult (map fst (succeeded irs)) (getAndLogErrors irs)
    /\ store w' = writeIds (store w) (succeeded irs).
Proof.
  destruct instances as [|i t].
  - rewrite insertInstances_nil. intros [= <- <-]. exists [].
    split; [left; auto|]. split; reflexivity.
  - rewrite insertInstances_cons. cbv zeta.
    destruct (bulkLoadOperation _ _ _ _ _) as [e|results] eqn:Hans; [discriminate|].
    destruct (definedResults _) as [e|irs] eqn:Hirs; [discriminate|].
    intros [= <- <-]. exists irs. split; [|split; reflexivity].
    right. exists results. split; [discriminate|]. split; [|exact Hirs].
    unfold afterBulk. cbn [calls]. cbn [map] in Hans |- *. rewrite Hans. reflexivity.
Qed.

Lemma updateInstances_inv instances w a w' :
  updateInstances E typeName instances client w = (inr a, w') ->
  exists irs,
    answeredBy typeName OpUpdate
      (instancesToUpdateRecords E (map (instanceState w) instances))
      instances irs (calls w) (calls w')
    /\ a = getActionResult irs
    /\ store w' = store w.
Proof.
  destruct instances as [|i t].
  - rewrite updateInstances_nil. intros [= <- <-]. exists [].
    split; [left; auto|]. split; reflexivity.
  - rewrite updateInstances_cons. cbv zeta.
    destruct (bulkLoadOperation _ _ _ _ _) as [e|results] eqn:Hans; [discriminate|].
    destruct (definedResults _) as [e|irs] eqn:Hirs; [discriminate|].
    intros [= <- <-]. exists irs. split; [|split; reflexivity].
    right. exists results. split; [discriminate|]. split; [|exact Hirs].
    unfold afterBulk. cbn [calls]. cbn [map] in Hans |- *. rewrite Hans. reflexivity.
Qed.

End ExecutorRuns.

Lemma instanceState_store w w' l :
  store w' = store w -> map (instanceState w') l = map (instanceState w) l.
Proof.
  intros H. apply map_ext. intros i. unfold instanceState. rewrite H. reflexivity.
Qed.

Lemma succeeded_values_subset (irs : list InstanceAndResult) l0 :
  l0 ∈ map (fun ir : InstanceAndResult => value (fst ir)) (succeeded irs) ->
  l0 ∈ map value (map fst irs).
Proof.
  intros H. apply elem_of_map_inv in H as [[x r] [Hx Hin]].
  apply elem_of_filter_bool in Hin as [Hin _]. cbn in Hx. rewrite <- Hx.
  apply elem_of_map. apply (elem_of_map fst _ _ Hin).
Qed.

Lemma succeeded_NoDup (irs : list InstanceAndResult) :
  NoDup (map value (map fst irs)) ->
  NoDup (map (fun ir : InstanceAndResult => value (fst ir)) (succeeded irs)).
Proof.
  intros H. apply NoDup_map_filter. rewrite map_map in H. exact H.
Qed.

Section AddOutcome.

Variable E : Externals.
Variable client : SalesforceClient.
Variable idFields : list Field.
Variables (first : InstanceElement) (rest : list InstanceElement).

Local Abbreviation instances := (first :: rest).
Local Abbreviation type := (refType first).
Local Abbreviation typeName := (apiName_type E (refType first)).
Local Abbreviation ids := (map field_name idFields).

(** A run of [deployAddInstances] that returns, on distinct instances:
    the records fetched, the two bulk calls with what they answered, the
    result, and the store left behind. *)
Lemma deployAddInstances_outcome w res w' :
  NoDup (map value instances) ->
  deployAddInstances E instances idFields client w = (inr res, w') ->
  exists records w1 w2 insIrs updIrs,
    getRecordsBySaltoIds E type instances idFields client w = (inr records, w1)
    /\ answeredBy typeName OpInsert
         (instancesToCreateRecords E
            (map (instanceState w) (newOf E type ids records w instances)))
         (newOf E type ids records w instances) insIrs (calls w1) (calls w2)
    /\ answeredBy typeName OpUpdate
         (instancesToUpdateRecords E
            (map (instanceState w') (existingOf E type ids records w instances)))
         (existingOf E type ids records w instances) updIrs (calls w2) (calls w')
    /\ res = mkDeployResult
               (map AdditionChange
                    (map fst (succeeded insIrs) ++ map fst (succeeded updIrs)))
               (map Error (getAndLogErrors insIrs ++ getAndLogErrors updIrs))
    /\ store w' = writeMatched E type ids records
                    (writeIds (store w) (succeeded insIrs))
                    (existingOf E type ids records w instances).
Proof.
  intros Hnd Hrun.
  destruct (deployAddInstances_inv E client idFields first rest w res w' Hnd Hrun)
    as (records & w1 & inserted & w2 & updated & Hrec & Hins & Hupd & Hres).
  pose proof (getRecordsBySaltoIds_frame E type instances idFields client w) as [Hst1 _].
  rewrite Hrec in Hst1. cbn [snd] in Hst1.
  apply insertInstances_inv in Hins as (insIrs & Hans1 & -> & Hst2).
  apply updateInstances_inv in Hupd as (updIrs & Hans2 & -> & Hst3).
  cbn [store calls] in Hans2, Hst3.
  exists records, w1, w2, insIrs, updIrs.
  split; [exact Hrec|]. split.
  { rewrite (instanceState_store w w1 _ Hst1) in Hans1. exact Hans1. }
  split.
  { assert (Hs : store (mkWorld (writeMatched E type ids records (store w2)
                                   (existingOf E type ids records w instances))
                                (calls w2)) = store w')
      by (symmetry; exact Hst3).
    rewrite (instanceState_store _ _ _ Hs) in Hans2. exact Hans2. }
  split; [exact Hres|].
  rewrite Hst3, Hst2, Hst1. reflexivity.
Qed.

Variables (w w' : World) (records : list SalesforceRecord).
Variables (insIrs : list InstanceAndResult).
Hypothesis Hnd : NoDup (map value instances).
Hypothesis HinsFst : map fst insIrs = newOf E type ids records w instances.
Hypothesis Hstore :
  store w' = writeMatched E type ids records
               (writeIds (store w) (succeeded insIrs))
               (existingOf E type ids records w instances).

(** An instance that has a record ends with the [Id] of that record. *)
Lemma outcome_existing x record :
  x ∈ instances ->
  matchedRecord E type ids records (valueIn w x) = Some record ->
  valueIn w' x
  = Js.set (valueIn w x) CUSTOM_OBJECT_ID_FIELD (Js.get record CUSTOM_OBJECT_ID_FIELD).
Proof.
  intros Hx Hm.
  assert (Hex : x ∈ existingOf E type ids records w instances).
  { apply elem_of_filter_bool. split; [exact Hx|].
    unfold isExisting. apply bool_decide_eq_true. rewrite Hm. eauto. }
  assert (Hw : writeIds (store w) (succeeded insIrs) !! value x = store w !! value x).
  { apply writeIds_lookup_notin. intros Hin.
    apply succeeded_values_subset in Hin. rewrite HinsFst in Hin.
    exact (existing_not_new E idFields first rest records w x Hnd Hex Hin). }
  unfold valueIn at 1. rewrite Hstore.
  rewrite (writeMatched_lookup_in E type ids records _ _ x record).
  - rewrite Hw. reflexivity.
  - apply NoDup_map_filter, Hnd.
  - exact Hex.
  - rewrite Hw. exact Hm.
Qed.

Lemma new_not_existing x :
  x ∈ newOf E type ids records w instances ->
  value x ∉ map value (existingOf E type ids records w instances).
Proof.
  intros Hx Hin. apply elem_of_map_inv in Hin as [y [Hy Hin]].
  apply (existing_not_new E idFields first rest records w y Hnd Hin).
  rewrite Hy. apply elem_of_map, Hx.
Qed.

(** An inserted instance whose result reports success ends with the [id]
    of that result. *)
Lemma outcome_inserted x r :
  (x, r) ∈ insIrs -> result_success r = true ->
  valueIn w' x = Js.set (valueIn w x) CUSTOM_OBJECT_ID_FIELD (resultIdValue r).
Proof.
  intros Hin Hs.
  assert (Hx : x ∈ newOf E type ids records w instances).
  { rewrite <- HinsFst. apply (elem_of_map fst _ _ Hin). }
  unfold valueIn at 1. rewrite Hstore.
  rewrite writeMatched_lookup_notin by (apply new_not_existing, Hx).
  rewrite (writeIds_lookup_in _ _ x r).
  - reflexivity.
  - apply succeeded_NoDup. rewrite HinsFst. apply NoDup_map_filter, Hnd.
  - apply elem_of_filter_bool. split; [exact Hin|exact Hs].
Qed.

(** An instance that has no record and is not among the inserted ones
    that succeeded is left as it was. *)
Lemma outcome_untouched x :
  x ∈ newOf E type ids records w instances ->
  value x ∉ map (fun ir : InstanceAndResult => value (fst ir)) (succeeded insIrs) ->
  store w' !! value x = store w !! value x.
Proof.
  intros Hx Hn. rewrite Hstore.
  rewrite writeMatched_lookup_notin by (apply new_not_existing, Hx).
  apply writeIds_lookup_notin, Hn.
Qed.

End AddOutcome.

(** ** Matching by hash *)

Section MatchByHash.

Variable E : Externals.
Variables (type : TypeElement) (ids : list string).
Variable records : list SalesforceRecord.

(** An instance has a record exactly when some fetched record has its
    hash, and the record it has is a fetched one with that hash. *)
Lemma matchedRecord_Some vals record :
  matchedRecord E type ids records vals = Some record ->
  record ∈ records
  /\ computeRecordSaltoIdHash E type ids record = computeSaltoIdHash E ids vals.
Proof. apply keyBy_lookup_Some. Qed.

Lemma matchedRecord_of_hash vals record :
  record ∈ records ->
  computeSaltoIdHash E ids vals = computeRecordSaltoIdHash E type ids record ->
  is_Some (matchedRecord E type ids records vals).
Proof.
  intros Hin Hh. unfold matchedRecord. rewrite Hh.
  apply keyBy_lookup_is_Some, Hin.
Qed.

Lemma isExisting_true w x :
  isExisting E type ids records w x = true
  <-> is_Some (matchedRecord E type ids records (valueIn w x)).
Proof. unfold isExisting. apply bool_decide_eq_true. Qed.

Lemma existingOf_elem w l x :
  x ∈ existingOf E type ids records w l
  <-> x ∈ l /\ is_Some (matchedRecord E type ids records (valueIn w x)).
Proof. unfold existingOf. rewrite elem_of_filter_bool, isExisting_true. tauto. Qed.

Lemma newOf_elem w l x :
  x ∈ newOf E type ids records w l
  <-> x ∈ l /\ matchedRecord E type ids records (valueIn w x) = None.
Proof.
  unfold newOf. rewrite elem_of_filter_bool, negb_true_iff.
  rewrite <- not_true_iff_false, isExisting_true, <- eq_None_not_Some. tauto.
Qed.

End MatchByHash.

Lemma answeredBy_log tn op recs l irs log log' :
  answeredBy tn op recs l irs log log' ->
  (l = [] /\ log' = log)
  \/ (exists results, l <> [] /\ log' = log ++ [EvBulk tn op recs (inr results)]).
Proof.
  intros [(H1 & _ & H2)|(results & H1 & H2 & _)]; [left|right]; eauto.
Qed.

(** ** Add change groups *)

(** C1. In an Add change group of distinct instances, an instance whose
    identity hash equals the identity hash of a fetched record is among the
    instances of the bulk update call and not among those of the bulk insert
    call, and once the reconciliation has returned it carries the [Id] of a
    fetched record with that hash, the one the lookup holds. *)
Theorem add_matched_instance_is_updated
    (E : Externals) (client : SalesforceClient) (idFields : list Field)
    (first : InstanceElement) (rest : list InstanceElement)
    (w w1 w' : World) (res : DeployResult)
    (records : list SalesforceRecord) (x : InstanceElement)
    (record : SalesforceRecord) :
  let instances := first :: rest in
  let type := refType first in
  let typeName := apiName_type E type in
  let ids := map field_name idFields in
  NoDup (map value instances) ->
  getRecordsBySaltoIds E type instances idFields client w = (inr records, w1) ->
  deployAddInstances E instances idFields client w = (inr res, w') ->
  x ∈ instances ->
  record ∈ records ->
  computeSaltoIdHash E ids (valueIn w x) = computeRecordSaltoIdHash E type ids record ->
  let existing := existingOf E type ids records w instances in
  let new := newOf E type ids records w instances in
  x ∈ existing /\ (x ∉ new)
  /\ (exists insertCalls updResults,
        bulkCalls (calls w')
        = bulkCalls (calls w) ++ insertCalls
          ++ [EvBulk typeName OpUpdate
                (instancesToUpdateRecords E (map (instanceState w') existing))
                (inr updResults)]
        /\ (insertCalls = []
            \/ exists insResults,
                insertCalls
                = [EvBulk typeName OpInsert
                     (instancesToCreateRecords E (map (instanceState w) new))
                     (inr insResults)]))
  /\ (exists found,
        found ∈ records
        /\ computeRecordSaltoIdHash E type ids found
           = computeSaltoIdHash E ids (valueIn w x)
        /\ Js.get (valueIn w' x) CUSTOM_OBJECT_ID_FIELD
           = Js.get found CUSTOM_OBJECT_ID_FIELD).
Proof.
  intros instances type typeName ids Hnd Hfetch Hrun Hx Hrec Hhash existing new.
  destruct (deployAddInstances_outcome E client idFields first rest w res w' Hnd Hrun)
    as (records' & w1' & w2 & insIrs & updIrs & Hfetch' & Hins & Hupd & Hres & Hst).
  fold instances type in Hfetch'. rewrite Hfetch in Hfetch'.
  injection Hfetch' as <- <-.
  fold instances type typeName ids in Hins, Hupd, Hst. fold existing in Hupd, Hst.
  fold new in Hins.
  destruct (matchedRecord_of_hash E type ids records _ record Hrec Hhash) as [found Hfound].
  assert (Hex : x ∈ existing).
  { apply existingOf_elem. split; [exact Hx|]. rewrite Hfound. eauto. }
  split; [exact Hex|]. split.
  { intros Hn. apply newOf_elem in Hn as [_ Hn]. fold type ids in Hn.
    rewrite Hfound in Hn. discriminate. }
  split.
  - pose proof (getRecordsBySaltoIds_frame E type instances idFields client w) as [_ Hb].
    rewrite Hfetch in Hb. cbn [snd] in Hb.
    apply answeredBy_log in Hupd as [[Hnil _]|(updResults & _ & Hlog')].
    { rewrite Hnil in Hex. apply elem_of_nil in Hex. contradiction. }
    apply answeredBy_log in Hins as [[_ Hlog]|(insResults & _ & Hlog)].
    + exists [], updResults. split; [|left; reflexivity].
      rewrite Hlog', Hlog, bulkCalls_app, Hb. reflexivity.
    + exists [EvBulk typeName OpInsert
                (instancesToCreateRecords E (map (instanceState w) new))
                (inr insResults)], updResults.
      split; [|right; eauto].
      rewrite Hlog', Hlog, !bulkCalls_app, Hb, <- app_assoc. reflexivity.
  - exists found. apply matchedRecord_Some in Hfound as Hf. destruct Hf as [Hin Hh].
    split; [exact Hin|]. split; [exact Hh|].
    rewrite (outcome_existing E idFields first rest w w' records insIrs Hnd
               (answeredBy_fst _ _ _ _ _ _ _ Hins) Hst x found Hx Hfound).
    apply get_set_eq.
Qed.

Lemma add_matched_instance_is_updated_witness :
  Sample.acme ∈ existingOf Sample.env Sample.account ["Name"] [Sample.remoteAcme]
                  Sample.upsertWorld [Sample.acme]
  /\ exists found,
       found ∈ [Sample.remoteAcme]
       /\ Js.get (valueIn (snd Sample.upsertRun) Sample.acme) CUSTOM_OBJECT_ID_FIELD
          = Js.get found CUSTOM_OBJECT_ID_FIELD.
Proof.
  destruct (add_matched_instance_is_updated
              Sample.env Sample.upsertClient Sample.nameField Sample.acme []
              Sample.upsertWorld
              (snd (getRecordsBySaltoIds Sample.env Sample.account [Sample.acme]
                      Sample.nameField Sample.upsertClient Sample.upsertWorld))
              (snd Sample.upsertRun)
              (mkDeployResult [AdditionChange Sample.acme] [])
              [Sample.remoteAcme] Sample.acme Sample.remoteAcme)
    as (Hex & _ & _ & found & Hin & _ & Hid).
  - apply NoDup_singleton.
  - vm_compute. reflexivity.
  - vm_compute. reflexivity.
  - apply list_elem_of_singleton. reflexivity.
  - apply list_elem_of_singleton. reflexivity.
  - vm_compute. reflexivity.
  - split; [exact Hex|]. exists found. split; [exact Hin|exact Hid].
Defined.

Lemma pairs_same_result (irs : list InstanceAndResult) x r r' :
  NoDup (map fst irs) -> (x, r) ∈ irs -> (x, r') ∈ irs -> r = r'.
Proof.
  intros Hnd H1 H2.
  assert (Heq : (x, r) = (x, r')) by (eapply (NoDup_map_eq fst); eauto).
  congruence.
Qed.

Lemma NoDup_of_values (l : list InstanceElement) : NoDup (map value l) -> NoDup l.
Proof.
  induction l as [|a t IH]; intros H; [apply NoDup_nil_2|].
  cbn in H. apply NoDup_cons in H as [Hhd H]. apply NoDup_cons_2; [|apply IH, H].
  intros Hin. apply Hhd, elem_of_map, Hin.
Qed.

(** C10. In an Add change group of distinct instances, an instance that has a
    fetched record carries the [Id] of that record in the instance states the
    bulk update call is built from, and carries it once the deploy has
    returned, also when the result of the update for it reports a failure,
    in which case it is not among the applied changes. *)
Theorem add_matched_id_survives_failed_update
    (E : Externals) (client : SalesforceClient) (idFields : list Field)
    (first : InstanceElement) (rest : list InstanceElement)
    (w w1 w' : World) (res : DeployResult)
    (records : list SalesforceRecord) (x : InstanceElement)
    (record : SalesforceRecord) :
  let instances := first :: rest in
  let type := refType first in
  let typeName := apiName_type E type in
  let ids := map field_name idFields in
  NoDup (map value instances) ->
  getRecordsBySaltoIds E type instances idFields client w = (inr records, w1) ->
  deployAddInstances E instances idFields client w = (inr res, w') ->
  x ∈ instances ->
  matchedRecord E type ids records (valueIn w x) = Some record ->
  let existing := existingOf E type ids records w instances in
  exists log updResults j r,
    calls w'
    = log ++ [EvBulk typeName OpUpdate
                (instancesToUpdateRecords E (map (instanceState w') existing))
                (inr updResults)]
    /\ existing !! j = Some x
    /\ updResults !! j = Some r
    /\ Js.get (value (instanceState w' x)) CUSTOM_OBJECT_ID_FIELD
       = Js.get record CUSTOM_OBJECT_ID_FIELD
    /\ (result_success r = false -> AdditionChange x ∉ appliedChanges res).
Proof.
  intros instances type typeName ids Hnd Hfetch Hrun Hx Hm existing.
  destruct (deployAddInstances_outcome E client idFields first rest w res w' Hnd Hrun)
    as (records' & w1' & w2 & insIrs & updIrs & Hfetch' & Hins & Hupd & Hres & Hst).
  fold instances type in Hfetch'. rewrite Hfetch in Hfetch'.
  injection Hfetch' as <- <-.
  fold instances type typeName ids in Hins, Hupd, Hst. fold existing in Hupd, Hst.
  assert (Hex : x ∈ existing).
  { apply existingOf_elem. split; [exact Hx|]. rewrite Hm. eauto. }
  pose proof (answeredBy_fst _ _ _ _ _ _ _ Hins) as HinsFst.
  pose proof (answeredBy_fst _ _ _ _ _ _ _ Hupd) as HupdFst.
  destruct Hupd as [(Hnil & _)|(updResults & _ & Hlog & Hdef)].
  { rewrite Hnil in Hex. apply elem_of_nil in Hex. contradiction. }
  apply list_elem_of_lookup in Hex as Hj. destruct Hj as [j Hj].
  destruct (definedResults_lookup _ _ _ _ _ Hdef Hj) as (r & Hr & Hir).
  exists (calls w2), updResults, j, r.
  split; [exact Hlog|]. split; [exact Hj|]. split; [exact Hr|]. split.
  - change (value (instanceState w' x)) with (valueIn w' x).
    rewrite (outcome_existing E idFields first rest w w' records insIrs Hnd
               HinsFst Hst x record Hx Hm).
    apply get_set_eq.
  - intros Hfail Happ. rewrite Hres in Happ. cbn [appliedChanges] in Happ.
    apply elem_of_map_inv in Happ as (y & Hy & Hin). injection Hy as ->.
    apply elem_of_app in Hin as [Hin|Hin].
    + apply elem_of_map_inv in Hin as ([y ry] & Hy & Hin). cbn in Hy. subst y.
      apply elem_of_filter_bool in Hin as [Hin _].
      apply (elem_of_map fst) in Hin. rewrite HinsFst in Hin. cbn [fst] in Hin.
      apply newOf_elem in Hin as [_ Hnone]. fold type ids in Hnone.
      rewrite Hm in Hnone. discriminate.
    + apply elem_of_map_inv in Hin as ([y ry] & Hy & Hin). cbn in Hy. subst y.
      apply elem_of_filter_bool in Hin as [Hin Hs]. cbn in Hs.
      assert (ry = r).
      { apply (pairs_same_result updIrs x); [| exact Hin |].
        - rewrite HupdFst. apply NoDup_of_values, NoDup_map_filter, Hnd.
        - apply list_elem_of_lookup. eauto. }
      subst ry. rewrite Hfail in Hs. discriminate.
Qed.

Lemma add_matched_id_survives_failed_update_witness :
  Js.get (value (instanceState (snd Sample.failedUpsertRun) Sample.acme))
         CUSTOM_OBJECT_ID_FIELD
  = Js.get Sample.remoteAcme CUSTOM_OBJECT_ID_FIELD
  /\ fst Sample.failedUpsertRun
     = inr (mkDeployResult [] [Error ("acme:" +:+ newline +:+ "    " +:+ tab +:+ "locked")]).
Proof.
  destruct (add_matched_id_survives_failed_update
              Sample.env Sample.failedUpsertClient Sample.nameField Sample.acme []
              Sample.upsertWorld
              (snd (getRecordsBySaltoIds Sample.env Sample.account [Sample.acme]
                      Sample.nameField Sample.failedUpsertClient Sample.upsertWorld))
              (snd Sample.failedUpsertRun)
              (mkDeployResult
                 [] [Error ("acme:" +:+ newline +:+ "    " +:+ tab +:+ "locked")])
              [Sample.remoteAcme] Sample.acme Sample.remoteAcme)
    as (log & updResults & j & r & _ & _ & _ & Hid & _).
  - apply NoDup_singleton.
  - vm_compute. reflexivity.
  - vm_compute. reflexivity.
  - apply list_elem_of_singleton. reflexivity.
  - vm_compute. reflexivity.
  - split; [exact Hid|]. vm_compute. reflexivity.
Defined.

(** C2, as the code has it. In an Add change group of distinct instances,
    every applied change is an "add" change: the instances the bulk insert
    reports as succeeded, then those the bulk update reports as succeeded.
    An updated one has a fetched record and carries its [Id]; an inserted
    one has none and carries the [id] of its result. *)
Theorem add_applied_changes_are_additions
    (E : Externals) (client : SalesforceClient) (idFields : list Field)
    (first : InstanceElement) (rest : list InstanceElement)
    (w w1 w' : World) (res : DeployResult) (records : list SalesforceRecord) :
  let instances := first :: rest in
  let type := refType first in
  let typeName := apiName_type E type in
  let ids := map field_name idFields in
  NoDup (map value instances) ->
  getRecordsBySaltoIds E type instances idFields client w = (inr records, w1) ->
  deployAddInstances E instances idFields client w = (inr res, w') ->
  let existing := existingOf E type ids records w instances in
  let new := newOf E type ids records w instances in
  (forall c, c ∈ appliedChanges res -> action c = ActAdd)
  /\ exists w2 insIrs updIrs,
       answeredBy typeName OpInsert
         (instancesToCreateRecords E (map (instanceState w) new))
         new insIrs (calls w1) (calls w2)
       /\ answeredBy typeName OpUpdate
            (instancesToUpdateRecords E (map (instanceState w') existing))
            existing updIrs (calls w2) (calls w')
       /\ appliedChanges res
          = map AdditionChange (map fst (succeeded insIrs))
            ++ map AdditionChange (map fst (succeeded updIrs))
       /\ (forall x r, (x, r) ∈ succeeded updIrs ->
             exists record,
               matchedRecord E type ids records (valueIn w x) = Some record
               /\ Js.get (valueIn w' x) CUSTOM_OBJECT_ID_FIELD
                  = Js.get record CUSTOM_OBJECT_ID_FIELD)
       /\ (forall x r, (x, r) ∈ succeeded insIrs ->
             matchedRecord E type ids records (valueIn w x) = None
             /\ Js.get (valueIn w' x) CUSTOM_OBJECT_ID_FIELD = resultIdValue r).
Proof.
  intros instances type typeName ids Hnd Hfetch Hrun existing new.
  destruct (deployAddInstances_outcome E client idFields first rest w res w' Hnd Hrun)
    as (records' & w1' & w2 & insIrs & updIrs & Hfetch' & Hins & Hupd & Hres & Hst).
  fold instances type in Hfetch'. rewrite Hfetch in Hfetch'.
  injection Hfetch' as <- <-.
  fold instances type typeName ids in Hins, Hupd, Hst. fold existing in Hupd, Hst.
  fold new in Hins.
  pose proof (answeredBy_fst _ _ _ _ _ _ _ Hins) as HinsFst.
  pose proof (answeredBy_fst _ _ _ _ _ _ _ Hupd) as HupdFst.
  split.
  { intros c Hc. rewrite Hres in Hc. cbn [appliedChanges] in Hc.
    apply elem_of_map_inv in Hc as (y & <- & _). reflexivity. }
  exists w2, insIrs, updIrs.
  split; [exact Hins|]. split; [exact Hupd|]. split.
  { rewrite Hres. cbn [appliedChanges]. apply map_app. }
  split.
  - intros x r Hin. apply elem_of_filter_bool in Hin as [Hin _].
    apply (elem_of_map fst) in Hin. rewrite HupdFst in Hin. cbn [fst] in Hin.
    apply existingOf_elem in Hin as [Hx [record Hm]].
    exists record. split; [exact Hm|].
    rewrite (outcome_existing E idFields first rest w w' records insIrs Hnd
               HinsFst Hst x record Hx Hm).
    apply get_set_eq.
  - intros x r Hin. apply elem_of_filter_bool in Hin as [Hin Hs].
    split.
    + apply (elem_of_map fst) in Hin. rewrite HinsFst in Hin. cbn [fst] in Hin.
      apply newOf_elem in Hin as [_ Hnone]. exact Hnone.
    + rewrite (outcome_inserted E idFields first rest w w' records insIrs Hnd
                 HinsFst Hst x r Hin Hs).
      apply get_set_eq.
Qed.

Lemma add_applied_changes_are_additions_witness :
  Forall (fun c => action c = ActAdd)
         (appliedChanges (mkDeployResult [AdditionChange Sample.acme] [])).
Proof.
  apply Forall_forall.
  apply (add_applied_changes_are_additions
           Sample.env Sample.upsertClient Sample.nameField Sample.acme []
           Sample.upsertWorld
           (snd (getRecordsBySaltoIds Sample.env Sample.account [Sample.acme]
                   Sample.nameField Sample.upsertClient Sample.upsertWorld))
           (snd Sample.upsertRun)
           (mkDeployResult [AdditionChange Sample.acme] [])
           [Sample.remoteAcme]).
  - apply NoDup_singleton.
  - vm_compute. reflexivity.
  - vm_compute. reflexivity.
Defined.

(** C2 fails as stated: the instance is matched, goes through the bulk
    update with the [Id] of the remote record, succeeds, and is reported as
    an "add" change. *)
Lemma add_existing_is_reported_as_add :
  fst Sample.upsertRun = inr (mkDeployResult [AdditionChange Sample.acme] [])
  /\ bulkCalls (calls (snd Sample.upsertRun))
     = [EvBulk "Account" OpUpdate [[("Name", VStr "Acme"); ("Id", VStr "001")]]
          (inr [Sample.ok "001"])]
  /\ action (AdditionChange Sample.acme) <> ActModify.
Proof.
  split; [vm_compute; reflexivity|]. split; [vm_compute; reflexivity|]. discriminate.
Qed.

(** C8, as the code has it. Two instances of an Add change group with the
    same identity hash raise no error of their own: they fall on the same
    side of the partition, both among the instances of the one bulk insert
    when no fetched record has that hash, both among those of the one bulk
    update, ending with the same [Id], when one has; the errors of the
    outcome are those the bulk calls report for single records. *)
Theorem add_same_hash_same_partition
    (E : Externals) (client : SalesforceClient) (idFields : list Field)
    (first : InstanceElement) (rest : list InstanceElement)
    (w w1 w' : World) (res : DeployResult) (records : list SalesforceRecord)
    (x y : InstanceElement) :
  let instances := first :: rest in
  let type := refType first in
  let typeName := apiName_type E type in
  let ids := map field_name idFields in
  NoDup (map value instances) ->
  getRecordsBySaltoIds E type instances idFields client w = (inr records, w1) ->
  deployAddInstances E instances idFields client w = (inr res, w') ->
  x ∈ instances -> y ∈ instances ->
  computeSaltoIdHash E ids (valueIn w x) = computeSaltoIdHash E ids (valueIn w y) ->
  let existing := existingOf E type ids records w instances in
  let new := newOf E type ids records w instances in
  exists w2 insIrs updIrs,
    answeredBy typeName OpInsert
      (instancesToCreateRecords E (map (instanceState w) new))
      new insIrs (calls w1) (calls w2)
    /\ answeredBy typeName OpUpdate
         (instancesToUpdateRecords E (map (instanceState w') existing))
         existing updIrs (calls w2) (calls w')
    /\ errors res = map Error (getAndLogErrors insIrs ++ getAndLogErrors updIrs)
    /\ ((x ∈ new /\ y ∈ new)
        \/ (x ∈ existing /\ y ∈ existing
            /\ Js.get (valueIn w' x) CUSTOM_OBJECT_ID_FIELD
               = Js.get (valueIn w' y) CUSTOM_OBJECT_ID_FIELD)).
Proof.
  intros instances type typeName ids Hnd Hfetch Hrun Hx Hy Hhash existing new.
  destruct (deployAddInstances_outcome E client idFields first rest w res w' Hnd Hrun)
    as (records' & w1' & w2 & insIrs & updIrs & Hfetch' & Hins & Hupd & Hres & Hst).
  fold instances type in Hfetch'. rewrite Hfetch in Hfetch'.
  injection Hfetch' as <- <-.
  fold instances type typeName ids in Hins, Hupd, Hst. fold existing in Hupd, Hst.
  fold new in Hins.
  pose proof (answeredBy_fst _ _ _ _ _ _ _ Hins) as HinsFst.
  exists w2, insIrs, updIrs.
  split; [exact Hins|]. split; [exact Hupd|]. split; [rewrite Hres; reflexivity|].
  destruct (matchedRecord E type ids records (valueIn w x)) as [record|] eqn:Hm.
  - right.
    assert (Hm' : matchedRecord E type ids records (valueIn w y) = Some record).
    { unfold matchedRecord in Hm |- *. fold ids. rewrite <- Hhash. exact Hm. }
    split; [apply existingOf_elem; split; [exact Hx|rewrite Hm; eauto]|].
    split; [apply existingOf_elem; split; [exact Hy|rewrite Hm'; eauto]|].
    rewrite (outcome_existing E idFields first rest w w' records insIrs Hnd
               HinsFst Hst x record Hx Hm).
    rewrite (outcome_existing E idFields first rest w w' records insIrs Hnd
               HinsFst Hst y record Hy Hm').
    rewrite !get_set_eq. reflexivity.
  - left.
    assert (Hm' : matchedRecord E type ids records (valueIn w y) = None).
    { unfold matchedRecord in Hm |- *. fold ids. rewrite <- Hhash. exact Hm. }
    split; apply newOf_elem; split; assumption.
Qed.

Lemma add_same_hash_same_partition_witness :
  exists w2 insIrs updIrs,
    answeredBy "Account" OpInsert
      [[("Name", VStr "Acme")]; [("Name", VStr "Acme")]]
      [Sample.acme; Sample.twin] insIrs [EvQuery "SELECT Id FROM Account" (inr [])]
      (calls w2)
    /\ answeredBy "Account" OpUpdate [] [] updIrs (calls w2) (calls (snd Sample.twinsRun))
    /\ errors (mkDeployResult [AdditionChange Sample.acme; AdditionChange Sample.twin] [])
       = map Error (getAndLogErrors insIrs ++ getAndLogErrors updIrs)
    /\ ((Sample.acme ∈ [Sample.acme; Sample.twin] /\ Sample.twin ∈ [Sample.acme; Sample.twin])
        \/ (Sample.acme ∈ [] /\ Sample.twin ∈ []
            /\ Js.get (valueIn (snd Sample.twinsRun) Sample.acme) CUSTOM_OBJECT_ID_FIELD
               = Js.get (valueIn (snd Sample.twinsRun) Sample.twin) CUSTOM_OBJECT_ID_FIELD)).
Proof.
  apply (add_same_hash_same_partition
           Sample.env Sample.twinsClient Sample.nameField Sample.acme [Sample.twin]
           Sample.twinsWorld
           (snd (getRecordsBySaltoIds Sample.env Sample.account [Sample.acme; Sample.twin]
                   Sample.nameField Sample.twinsClient Sample.twinsWorld))
           (snd Sample.twinsRun)
           (mkDeployResult [AdditionChange Sample.acme; AdditionChange Sample.twin] [])
           [] Sample.acme Sample.twin).
  - cbn. apply NoDup_cons. split; [|apply NoDup_singleton].
    intros H. apply list_elem_of_singleton in H. discriminate.
  - vm_compute. reflexivity.
  - vm_compute. reflexivity.
  - apply elem_of_cons. left. reflexivity.
  - apply elem_of_cons. right. apply list_elem_of_singleton. reflexivity.
  - vm_compute. reflexivity.
Defined.

(** C8 fails as stated: two instances with the same identity hash and no
    remote record are both inserted, in one call, and no error is raised. *)
Lemma add_same_hash_inserted_twice :
  computeSaltoIdHash Sample.env ["Name"] (valueIn Sample.twinsWorld Sample.acme)
  = computeSaltoIdHash Sample.env ["Name"] (valueIn Sample.twinsWorld Sample.twin)
  /\ fst Sample.twinsRun
     = inr (mkDeployResult [AdditionChange Sample.acme; AdditionChange Sample.twin] [])
  /\ bulkCalls (calls (snd Sample.twinsRun))
     = [EvBulk "Account" OpInsert
          [[("Name", VStr "Acme")]; [("Name", VStr "Acme")]]
          (inr [Sample.ok "001"; Sample.ok "002"])].
Proof.
  split; [reflexivity|]. split; vm_compute; reflexivity.
Qed.

(** ** An Add change group that is all new, or all existing *)

Lemma filter_all_false {A : Type} (p : A -> bool) (l : list A) :
  (forall x, x ∈ l -> p x = false) -> List.filter p l = [].
Proof.
  induction l as [|a t IH]; intros H; [reflexivity|].
  cbn. rewrite (H a) by (apply elem_of_cons; auto).
  apply IH. intros x Hx. apply H. apply elem_of_cons. auto.
Qed.

Lemma filter_all_true {A : Type} (p : A -> bool) (l : list A) :
  (forall x, x ∈ l -> p x = true) -> List.filter p l = l.
Proof.
  induction l as [|a t IH]; intros H; [reflexivity|].
  cbn. rewrite (H a) by (apply elem_of_cons; auto).
  f_equal. apply IH. intros x Hx. apply H. apply elem_of_cons. auto.
Qed.

(** When no instance has a record, the deploy is the bulk insert of all. *)
Lemma deployAddInstances_all_new
    (E : Externals) (client : SalesforceClient) (idFields : list Field)
    (first : InstanceElement) (rest : list InstanceElement)
    (w w1 : World) (records : list SalesforceRecord) :
  let instances := first :: rest in
  let type := refType first in
  let ids := map field_name idFields in
  getRecordsBySaltoIds E type instances idFields client w = (inr records, w1) ->
  (forall x, x ∈ instances -> matchedRecord E type ids records (valueIn w x) = None) ->
  deployAddInstances E instances idFields client w
  = match insertInstances E (apiName_type E type) instances client w1 with
    | (inl e, w2) => (inl e, w2)
    | (inr inserted, w2) =>
        (inr (mkDeployResult
                (map AdditionChange (successInstances inserted))
                (map Error (errorMessages inserted))), w2)
    end.
Proof.
  intros instances type ids Hfetch Hnone. subst instances type ids.
  pose proof (getRecordsBySaltoIds_frame E (refType first) (first :: rest)
                idFields client w) as [Hst1 _].
  rewrite Hfetch in Hst1. cbn [snd] in Hst1.
  unfold deployAddInstances. cbv zeta.
  rewrite (bind_inr _ _ _ _ _ Hfetch).
  rewrite (bind_inr _ _ _ _ _
             (partitionM_reads _
                (isExisting E (refType first) (map field_name idFields) records)
                (first :: rest) w1 (fun x => eq_refl))).
  cbn [fst snd].
  rewrite (filter_all_false
             (isExisting E (refType first) (map field_name idFields) records w1)
             (first :: rest)).
  2:{ intros x Hx. apply not_true_iff_false. rewrite isExisting_true.
      unfold valueIn. rewrite Hst1. fold (valueIn w x).
      rewrite (Hnone x Hx). apply is_Some_None. }
  rewrite (filter_all_true
             (fun x => negb (isExisting E (refType first) (map field_name idFields)
                               records w1 x))
             (first :: rest)).
  2:{ intros x Hx. apply negb_true_iff, not_true_iff_false. rewrite isExisting_true.
      unfold valueIn. rewrite Hst1. fold (valueIn w x).
      rewrite (Hnone x Hx). apply is_Some_None. }
  unfold mbind at 1, M_bind at 1.
  destruct (insertInstances E (apiName_type E (refType first)) (first :: rest) client w1)
    as [[e|inserted] w2]; [reflexivity|].
  cbn [forEach]. unfold mbind at 1, M_bind at 1. unfold mret at 1, M_ret at 1.
  rewrite (bind_inr _ _ _ _ _ (updateInstances_nil E client _ w2)).
  cbn [successInstances errorMessages emptyActionResult].
  rewrite !app_nil_r. reflexivity.
Qed.

(** When every instance has a record, the deploy is the bulk update of
    all, after the [Id]s of the records are written. *)
Lemma deployAddInstances_all_existing
    (E : Externals) (client : SalesforceClient) (idFields : list Field)
    (first : InstanceElement) (rest : list InstanceElement)
    (w w1 : World) (records : list SalesforceRecord) :
  let instances := first :: rest in
  let type := refType first in
  let ids := map field_name idFields in
  NoDup (map value instances) ->
  getRecordsBySaltoIds E type instances idFields client w = (inr records, w1) ->
  (forall x, x ∈ instances ->
             is_Some (matchedRecord E type ids records (valueIn w x))) ->
  deployAddInstances E instances idFields client w
  = match updateInstances E (apiName_type E type) instances client
            (mkWorld (writeMatched E type ids records (store w) instances)
                     (calls w1)) with
    | (inl e, w2) => (inl e, w2)
    | (inr updated, w2) =>
        (inr (mkDeployResult
                (map AdditionChange (successInstances updated))
                (map Error (errorMessages updated))), w2)
    end.
Proof.
  intros instances type ids Hnd Hfetch Hall. subst instances type ids.
  pose proof (getRecordsBySaltoIds_frame E (refType first) (first :: rest)
                idFields client w) as [Hst1 _].
  rewrite Hfetch in Hst1. cbn [snd] in Hst1.
  assert (Hall1 : forall x, x ∈ first :: rest ->
            is_Some (matchedRecord E (refType first) (map field_name idFields)
                       records (valueIn w1 x))).
  { intros x Hx. unfold valueIn. rewrite Hst1. apply Hall, Hx. }
  unfold deployAddInstances. cbv zeta.
  rewrite (bind_inr _ _ _ _ _ Hfetch).
  rewrite (bind_inr _ _ _ _ _
             (partitionM_reads _
                (isExisting E (refType first) (map field_name idFields) records)
                (first :: rest) w1 (fun x => eq_refl))).
  cbn [fst snd].
  rewrite (filter_all_true
             (isExisting E (refType first) (map field_name idFields) records w1)
             (first :: rest)).
  2:{ intros x Hx. apply isExisting_true, Hall1, Hx. }
  rewrite (filter_all_false
             (fun x => negb (isExisting E (refType first) (map field_name idFields)
                               records w1 x))
             (first :: rest)).
  2:{ intros x Hx. apply negb_false_iff, isExisting_true, Hall1, Hx. }
  rewrite (bind_inr _ _ _ _ _ (insertInstances_nil E client _ w1)).
  rewrite (bind_inr _ _ _ _ _
             (forEach_writeMatched E (refType first) (map field_name idFields)
                records (first :: rest) w1 Hnd Hall1)).
  rewrite Hst1.
  unfold mbind at 1, M_bind at 1.
  destruct (updateInstances E (apiName_type E (refType first)) (first :: rest) client _)
    as [[e|updated] w2]; reflexivity.
Qed.

(** The two Adds of the examples end as they do for every digest. *)
Lemma upsert_for_every_digest (digest : string -> string) :
  fst (deployAddInstances (Sample.envWith digest) [Sample.acme] Sample.nameField
         Sample.upsertClient Sample.upsertWorld)
  = inr (mkDeployResult [AdditionChange Sample.acme] []).
Proof.
  assert (Hm : matchedRecord (Sample.envWith digest) Sample.account ["Name"]
                 [Sample.remoteAcme] [("Name", VStr "Acme")]
               = Some Sample.remoteAcme).
  { unfold matchedRecord, keyBy. cbn [foldl].
    replace (computeSaltoIdHash (Sample.envWith digest) ["Name"] [("Name", VStr "Acme")])
      with (computeRecordSaltoIdHash (Sample.envWith digest) Sample.account ["Name"]
              Sample.remoteAcme)
      by (unfold computeRecordSaltoIdHash, computeSaltoIdHash; cbn [toMD5 Sample.envWith];
          f_equal).
    apply lookup_insert_eq. }
  rewrite (deployAddInstances_all_existing
             (Sample.envWith digest) Sample.upsertClient Sample.nameField
             Sample.acme [] Sample.upsertWorld
             (mkWorld (store Sample.upsertWorld)
                      [EvQuery "SELECT Id FROM Account" (inr [Sample.remoteAcme])])
             [Sample.remoteAcme]).
  - unfold writeMatched. cbn [foldl]. unfold writeMatchedOne.
    change (default [] (store Sample.upsertWorld !! value Sample.acme))
      with [("Name", VStr "Acme")].
    change (map field_name Sample.nameField) with ["Name"].
    change (refType Sample.acme) with Sample.account.
    rewrite Hm. vm_compute. reflexivity.
  - apply NoDup_singleton.
  - vm_compute. reflexivity.
  - intros x Hx. apply list_elem_of_singleton in Hx. subst x.
    change (valueIn Sample.upsertWorld Sample.acme) with [("Name", VStr "Acme")].
    change (map field_name Sample.nameField) with ["Name"].
    change (refType Sample.acme) with Sample.account.
    rewrite Hm. eauto.
Qed.

Lemma twins_for_every_digest (digest : string -> string) :
  fst (deployAddInstances (Sample.envWith digest) [Sample.acme; Sample.twin]
         Sample.nameField Sample.twinsClient Sample.twinsWorld)
  = inr (mkDeployResult [AdditionChange Sample.acme; AdditionChange Sample.twin] []).
Proof. vm_compute. reflexivity. Qed.

(** C3. Three instances of an Add change group, distinct and without a
    record to match, are the insert candidates.  When the bulk insert
    reports success for the first and the third and a failure with errors
    for the second, the deploy returns exactly two applied "add" changes and
    exactly one error, and the value of the second instance is never
    written: it has the properties it had. *)
Theorem add_partial_failure_isolated
    (E : Externals) (client : SalesforceClient) (idFields : list Field)
    (i0 i1 i2 : InstanceElement) (w w1 : World) (records : list SalesforceRecord)
    (r0 r1 r2 : BatchResultInfo) (errs : list string) :
  let instances := [i0; i1; i2] in
  let type := refType i0 in
  let ids := map field_name idFields in
  NoDup (map value instances) ->
  getRecordsBySaltoIds E type instances idFields client w = (inr records, w1) ->
  (forall x, x ∈ instances -> matchedRecord E type ids records (valueIn w x) = None) ->
  bulkLoadOperation client (calls w1) (apiName_type E type) OpInsert
    (instancesToCreateRecords E (map (instanceState w) instances))
  = inr [r0; r1; r2] ->
  result_success r0 = true ->
  result_success r1 = false -> result_errors r1 = Some errs ->
  result_success r2 = true ->
  exists w',
    deployAddInstances E instances idFields client w
    = (inr (mkDeployResult
              [AdditionChange i0; AdditionChange i2]
              [Error (elem_name (elemID i1) +:+ ":" +:+ newline +:+ "    " +:+ tab
                      +:+ join (newline +:+ tab) errs)]),
       w')
    /\ store w' !! value i1 = store w !! value i1
    /\ valueIn w' i0 = Js.set (valueIn w i0) CUSTOM_OBJECT_ID_FIELD (resultIdValue r0)
    /\ valueIn w' i2 = Js.set (valueIn w i2) CUSTOM_OBJECT_ID_FIELD (resultIdValue r2).
Proof.
  intros instances type ids Hnd Hfetch Hnone Hans Hs0 Hs1 He1 Hs2.
  subst instances type ids.
  pose proof (getRecordsBySaltoIds_frame E (refType i0) [i0; i1; i2]
                idFields client w) as [Hst1 _].
  rewrite Hfetch in Hst1. cbn [snd] in Hst1.
  rewrite (deployAddInstances_all_new E client idFields i0 [i1; i2] w w1 records
             Hfetch Hnone).
  rewrite insertInstances_cons. cbv zeta.
  rewrite (instanceState_store w w1 [i0; i1; i2] Hst1), Hans.
  change (definedResults (groupInstancesAndResultsByIndex [r0; r1; r2] [i0; i1; i2]))
    with (@inr JsError _ [(i0, r0); (i1, r1); (i2, r2)]).
  cbv iota. cbn [List.filter snd fst]. rewrite Hs0, Hs1, Hs2.
  unfold getAndLogErrors, getErrorMessagesFromInstAndResults.
  cbn [List.filter snd fst negb andb]. rewrite Hs0, Hs1, Hs2, He1.
  cbn [negb andb map fst snd successInstances errorMessages].
  rewrite bool_decide_eq_true_2 by eauto. cbn [map fst snd]. rewrite He1.
  eexists. split; [reflexivity|].
  cbn [map] in Hnd.
  apply NoDup_cons in Hnd as [Hn0 Hnd]. apply NoDup_cons in Hnd as [Hn1 Hnd].
  apply NoDup_cons in Hnd as [Hn2 _].
  assert (H01 : value i0 <> value i1).
  { intros H. apply Hn0. rewrite H. apply elem_of_cons. auto. }
  assert (H02 : value i0 <> value i2).
  { intros H. apply Hn0. rewrite H. apply elem_of_cons. right.
    apply elem_of_cons. auto. }
  assert (H12 : value i1 <> value i2).
  { intros H. apply Hn1. rewrite H. apply elem_of_cons. auto. }
  unfold valueIn. cbn [store writeIds foldl fst snd]. rewrite Hst1.
  split; [|split].
  - rewrite !lookup_insert_ne by congruence. reflexivity.
  - rewrite lookup_insert_ne by congruence. rewrite lookup_insert_eq. reflexivity.
  - rewrite lookup_insert_eq. rewrite lookup_insert_ne by congruence. reflexivity.
Qed.

Lemma add_partial_failure_isolated_witness :
  exists w',
    deployAddInstances Sample.env [Sample.acme; Sample.twin; Sample.third]
      Sample.nameField Sample.trioClient Sample.trioWorld
    = (inr (mkDeployResult
              [AdditionChange Sample.acme; AdditionChange Sample.third]
              [Error ("twin:" +:+ newline +:+ "    " +:+ tab +:+ "duplicate value"
                      +:+ newline +:+ tab +:+ "bad name")]),
       w')
    /\ store w' !! 1 = Some [("Name", VStr "Twin")].
Proof.
  destruct (add_partial_failure_isolated
              Sample.env Sample.trioClient Sample.nameField
              Sample.acme Sample.twin Sample.third Sample.trioWorld
              (snd (getRecordsBySaltoIds Sample.env Sample.account
                      [Sample.acme; Sample.twin; Sample.third]
                      Sample.nameField Sample.trioClient Sample.trioWorld))
              [] (Sample.ok "001")
              (Sample.failed ["duplicate value"; "bad name"]) (Sample.ok "003")
              ["duplicate value"; "bad name"])
    as (w' & Hrun & Hkeep & _).
  - cbn. repeat (apply NoDup_cons; split;
                   [rewrite ?elem_of_cons, elem_of_nil; intuition discriminate|]).
    apply NoDup_nil_2.
  - vm_compute. reflexivity.
  - intros x _. apply lookup_empty.
  - reflexivity.
  - reflexivity.
  - reflexivity.
  - reflexivity.
  - reflexivity.
  - exists w'. split; [exact Hrun|].
    etransitivity; [exact Hkeep|vm_compute; reflexivity].
Defined.

(** ** Modify change groups *)

Lemma filterM_reads {A : Type} (p : A -> M bool) (q : World -> A -> bool) l w :
  (forall x, p x w = (inr (q w x), w)) ->
  filterM p l w = (inr (List.filter (q w) l), w).
Proof.
  intros Hp. induction l as [|x r IH]; [reflexivity|].
  cbn [filterM]. rewrite (bind_inr _ _ _ _ _ (Hp x)).
  rewrite (bind_inr _ _ _ _ _ IH). cbn. destruct (q w x); reflexivity.
Qed.

Lemma mapM_reads {A B : Type} (f : A -> M B) (g : World -> A -> B) l w :
  (forall x, f x w = (inr (g w x), w)) ->
  mapM f l w = (inr (map (g w) l), w).
Proof.
  intros Hf. induction l as [|x r IH]; [reflexivity|].
  cbn [mapM]. rewrite (bind_inr _ _ _ _ _ (Hf x)).
  rewrite (bind_inr _ _ _ _ _ IH). reflexivity.
Qed.

Lemma foundEqual_run E succ d w :
  foundEqual E succ d w = (inr (foundEqualIn E w succ d), w).
Proof.
  unfold foundEqual. rewrite (bind_inr _ _ _ _ _ (readInstance_run (snd d) w)).
  rewrite (bind_inr _ _ _ _ _ (mapM_readInstance succ w)). reflexivity.
Qed.

(** With a result for every instance, the pairs are the instances zipped
    with the results. *)
Lemma definedResults_zip results instances :
  length instances <= length results ->
  definedResults (groupInstancesAndResultsByIndex results instances)
  = inr (zip instances results).
Proof.
  unfold groupInstancesAndResultsByIndex.
  revert results. induction instances as [|i t IH]; intros results Hlen; [reflexivity|].
  destruct results as [|r rs]; [cbn in Hlen; lia|].
  cbn in Hlen. cbn. specialize (IH rs ltac:(lia)).
  match goal with
  | |- match definedResults ?l with _ => _ end = _ =>
      assert (Hl : definedResults l = inr (zip t rs))
        by (rewrite <- IH; f_equal);
      rewrite Hl
  end.
  reflexivity.
Qed.

Section ModifyPath.

Variable E : Externals.
Variable client : SalesforceClient.
Variables (first : ChangeData) (rest : list ChangeData).

Local Abbreviation changes := (first :: rest).
Local Abbreviation instancesType := (apiName_type E (refType (snd first))).

(** The run of [deployModifyChanges] on a group that is not empty. *)
Lemma deployModifyChanges_run w :
  let validData := validDataOf E w changes in
  let diffApiNameData := diffApiNameDataOf E w changes in
  deployModifyChanges E changes client w
  = match updateInstances E instancesType (map snd validData) client w with
    | (inl e, w1) => (inl e, w1)
    | (inr updated, w1) =>
        (inr (mkDeployResult
                (map (fun d : ChangeData => ModificationChange (fst d) (snd d))
                     (List.filter (foundEqualIn E w1 (successInstances updated))
                                  validData))
                (map Error (errorMessages updated)
                 ++ map (diffApiNameErrorIn E w1) diffApiNameData)),
         w1)
    end.
Proof.
  intros validData diffApiNameData. unfold deployModifyChanges. cbv zeta.
  rewrite (bind_inr _ _ _ _ _
             (partitionM_reads _ (sameApiNameIn E) changes w (fun x => eq_refl))).
  cbn [fst snd].
  change (List.filter (sameApiNameIn E w) changes) with validData.
  change (List.filter (fun x => negb (sameApiNameIn E w x)) changes)
    with diffApiNameData.
  unfold mbind at 1, M_bind at 1.
  destruct (updateInstances E instancesType (map snd validData) client w)
    as [[e|updated] w1]; [reflexivity|].
  rewrite (bind_inr _ _ _ _ _
             (filterM_reads _ (fun w0 => foundEqualIn E w0 (successInstances updated))
                validData w1 (fun x => foundEqual_run E _ x w1))).
  rewrite (bind_inr _ _ _ _ _
             (mapM_reads _ (diffApiNameErrorIn E) diffApiNameData w1
                (fun x => eq_refl))).
  reflexivity.
Qed.

End ModifyPath.

Lemma modification_change_inj (d d' : ChangeData) :
  ModificationChange (fst d) (snd d) = ModificationChange (fst d') (snd d') -> d = d'.
Proof. destruct d, d'. cbn. congruence. Qed.

(** C5. In a Modify change group, the changes whose before and after api
    names differ are left out of the bulk update: its records are built
    from the after-instances of the other changes only.  When the update
    call is answered with a result for each of these, the deploy returns;
    its errors are the errors the update reports for single records followed
    by exactly one error for each change left out, naming both api names;
    no change left out is applied, and every other change whose record the
    update reports as succeeded is applied. *)
Theorem modify_identity_change_rejected
    (E : Externals) (client : SalesforceClient)
    (first : ChangeData) (rest : list ChangeData)
    (w : World) (results : list BatchResultInfo) :
  let changes := first :: rest in
  let instancesType := apiName_type E (refType (snd first)) in
  let validData := validDataOf E w changes in
  let diffApiNameData := diffApiNameDataOf E w changes in
  let afters := map snd validData in
  let records := instancesToUpdateRecords E (map (instanceState w) afters) in
  (forall s, isEqual E s s = true) ->
  bulkLoadOperation client (calls w) instancesType OpUpdate records = inr results ->
  length afters <= length results ->
  exists res w',
    deployModifyChanges E changes client w = (inr res, w')
    /\ store w' = store w
    /\ calls w'
       = calls w ++ bulkCallFor client instancesType OpUpdate records afters (calls w)
    /\ errors res
       = map Error (getAndLogErrors (zip afters results))
         ++ map (diffApiNameErrorIn E w) diffApiNameData
    /\ (forall d, d ∈ diffApiNameData ->
          ModificationChange (fst d) (snd d) ∉ appliedChanges res)
    /\ (forall j d r,
          validData !! j = Some d -> results !! j = Some r ->
          result_success r = true ->
          ModificationChange (fst d) (snd d) ∈ appliedChanges res).
Proof.
  intros changes instancesType validData diffApiNameData afters records
         Hrefl Hans Hlen.
  pose proof (deployModifyChanges_run E client first rest w) as Hrun.
  cbv zeta in Hrun. fold changes instancesType validData diffApiNameData in Hrun.
  fold afters in Hrun.
  assert (Hupd : exists w1,
             updateInstances E instancesType afters client w
             = (inr (getActionResult (zip afters results)), w1)
             /\ store w1 = store w
             /\ calls w1 = calls w ++ bulkCallFor client instancesType OpUpdate
                                        records afters (calls w)).
  { subst records. destruct afters as [|a t] eqn:Haft.
    - exists w. rewrite updateInstances_nil. cbn. rewrite app_nil_r. auto.
    - eexists. rewrite updateInstances_cons. cbv zeta. rewrite Hans.
      rewrite (definedResults_zip results (a :: t) Hlen).
      split; [reflexivity|]. split; [reflexivity|].
      unfold afterBulk, bulkCallFor. cbn [calls]. reflexivity. }
  destruct Hupd as (w1 & Hupd & Hst & Hcalls).
  rewrite Hupd in Hrun.
  assert (Hdiff : forall d, diffApiNameErrorIn E w1 d = diffApiNameErrorIn E w d).
  { intros d. unfold diffApiNameErrorIn, instanceState. rewrite Hst. reflexivity. }
  eexists _, w1. split; [exact Hrun|]. split; [exact Hst|]. split; [exact Hcalls|].
  cbn [errors appliedChanges getActionResult errorMessages successInstances].
  split; [f_equal; apply map_ext; exact Hdiff|]. split.
  - intros d Hd Happ. apply elem_of_map_inv in Happ as (d' & Heq & Hin).
    apply modification_change_inj in Heq. subst d'.
    apply elem_of_filter_bool in Hin as [Hin _].
    apply elem_of_filter_bool in Hin as [_ Hsame].
    apply elem_of_filter_bool in Hd as [_ Hd].
    rewrite Hsame in Hd. discriminate.
  - intros j d r Hj Hr Hs.
    apply (elem_of_map (fun d : ChangeData => ModificationChange (fst d) (snd d))).
    apply elem_of_filter_bool. split; [apply list_elem_of_lookup; eauto|].
    unfold foundEqualIn. apply existsb_exists.
    exists (instanceState w1 (snd d)). split; [|apply Hrefl].
    apply in_map. apply list_elem_of_In.
    apply (elem_of_map fst _ (snd d, r)).
    apply elem_of_filter_bool. split; [|exact Hs].
    apply list_elem_of_lookup. exists j.
    apply lookup_zip_with_Some. exists (snd d), r.
    split; [reflexivity|]. split; [|exact Hr].
    subst afters. rewrite list_lookup_fmap. rewrite Hj. reflexivity.
Qed.

Lemma modify_identity_change_rejected_witness :
  exists res w',
    deployModifyChanges Sample.env
      [(Sample.before0, Sample.after0); (Sample.before1, Sample.after1)]
      Sample.modifyClient Sample.modifyWorld
    = (inr res, w')
    /\ errors res
       = [Error "Failed to update as api name prev=B and new=C are different"]
    /\ ModificationChange Sample.before0 Sample.after0 ∈ appliedChanges res
    /\ calls w'
       = [EvBulk "Account" OpUpdate
            [[("fullName", VStr "A"); ("Id", VStr "001"); ("Name", VStr "new")]]
            (inr [Sample.ok "001"])].
Proof.
  destruct (modify_identity_change_rejected
              Sample.env Sample.modifyClient
              (Sample.before0, Sample.after0) [(Sample.before1, Sample.after1)]
              Sample.modifyWorld [Sample.ok "001"])
    as (res & w' & Hrun & _ & Hcalls & Herr & _ & Happ).
  - intros s. cbn. rewrite !String.eqb_refl. reflexivity.
  - reflexivity.
  - vm_compute. lia.
  - exists res, w'. split; [exact Hrun|]. split; [exact Herr|].
    split; [|exact Hcalls].
    apply (Happ 0 (Sample.before0, Sample.after0) (Sample.ok "001"));
      reflexivity.
Defined.

(** ** Failing fast *)

Lemma failFast_ret {A : Type} (a : A) : failFast (mret a).
Proof.
  intros w. exists []. split; [cbn; rewrite app_nil_r; reflexivity|].
  intros ev e Hin. apply elem_of_nil in Hin. contradiction.
Qed.

Lemma failFast_throw {A : Type} (e : JsError) : failFast (@throw A e).
Proof.
  intros w. exists []. split; [cbn; rewrite app_nil_r; reflexivity|].
  intros ev e' Hin. apply elem_of_nil in Hin. contradiction.
Qed.

Lemma failFast_liftResult {A : Type} (r : JsError + A) : failFast (liftResult r).
Proof. destruct r; [apply failFast_throw|apply failFast_ret]. Qed.

Lemma failFast_bind {A B : Type} (m : M A) (f : A -> M B) :
  failFast m -> (forall a, failFast (f a)) -> failFast (m ≫= f).
Proof.
  intros Hm Hf w. destruct (Hm w) as (evs1 & Hc1 & Hr1).
  unfold mbind, M_bind. destruct (m w) as [[e1|a] w1] eqn:Hmw; cbn [fst snd] in *.
  - exists evs1. split; [exact Hc1|].
    intros ev e Hin Hrej. specialize (Hr1 ev e Hin Hrej). congruence.
  - destruct (Hf a w1) as (evs2 & Hc2 & Hr2).
    exists (evs1 ++ evs2). split; [rewrite Hc2, Hc1, app_assoc; reflexivity|].
    intros ev e Hin Hrej. apply elem_of_app in Hin as [Hin|Hin].
    + specialize (Hr1 ev e Hin Hrej). discriminate.
    + exact (Hr2 ev e Hin Hrej).
Qed.

Lemma failFast_readValue i : failFast (readValue i).
Proof.
  intros w. exists []. split; [cbn; rewrite app_nil_r; reflexivity|].
  intros ev e Hin. apply elem_of_nil in Hin. contradiction.
Qed.

Lemma failFast_writeValue i k v : failFast (writeValue i k v).
Proof.
  intros w. exists []. split; [cbn; rewrite app_nil_r; reflexivity|].
  intros ev e Hin. apply elem_of_nil in Hin. contradiction.
Qed.

Lemma failFast_readInstance i : failFast (readInstance i).
Proof.
  apply failFast_bind; [apply failFast_readValue|intros; apply failFast_ret].
Qed.

Lemma failFast_callQueryAll client q : failFast (callQueryAll client q).
Proof.
  intros w. eexists. split; [reflexivity|].
  intros ev e Hin Hrej. apply list_elem_of_singleton in Hin. subst ev.
  cbn in Hrej |- *. destruct (queryAll client (calls w) q); congruence.
Qed.

Lemma failFast_callBulk client tn op records :
  failFast (callBulkLoadOperation client tn op records).
Proof.
  intros w. eexists. split; [reflexivity|].
  intros ev e Hin Hrej. apply list_elem_of_singleton in Hin. subst ev.
  cbn in Hrej |- *. destruct (bulkLoadOperation client (calls w) tn op records); congruence.
Qed.

Lemma failFast_mapM {A B : Type} (f : A -> M B) l :
  (forall x, failFast (f x)) -> failFast (mapM f l).
Proof.
  intros Hf. induction l as [|x r IH]; cbn [mapM]; [apply failFast_ret|].
  apply failFast_bind; [apply Hf|]. intros y.
  apply failFast_bind; [apply IH|]. intros ys. apply failFast_ret.
Qed.

Lemma failFast_forEach {A : Type} (f : A -> M unit) l :
  (forall x, failFast (f x)) -> failFast (forEach f l).
Proof.
  intros Hf. induction l as [|x r IH]; cbn [forEach]; [apply failFast_ret|].
  apply failFast_bind; [apply Hf|]. intros _. apply IH.
Qed.

Lemma failFast_partitionM {A : Type} (p : A -> M bool) l :
  (forall x, failFast (p x)) -> failFast (partitionM p l).
Proof.
  intros Hp. induction l as [|x r IH]; cbn [partitionM]; [apply failFast_ret|].
  apply failFast_bind; [apply Hp|]. intros b.
  apply failFast_bind; [apply IH|]. intros yn. apply failFast_ret.
Qed.

Lemma failFast_filterM {A : Type} (p : A -> M bool) l :
  (forall x, failFast (p x)) -> failFast (filterM p l).
Proof.
  intros Hp. induction l as [|x r IH]; cbn [filterM]; [apply failFast_ret|].
  apply failFast_bind; [apply Hp|]. intros b.
  apply failFast_bind; [apply IH|]. intros ys. apply failFast_ret.
Qed.

Create HintDb failfast.
#[local] Hint Resolve failFast_ret failFast_throw failFast_liftResult
  failFast_readValue failFast_writeValue failFast_readInstance
  failFast_callQueryAll failFast_callBulk : failfast.

(** Every step of a computation built from binds fails fast. *)
Ltac fail_fast :=
  repeat first
    [ apply failFast_bind; [|intros ?]
    | apply failFast_mapM; intros ?
    | apply failFast_forEach; intros ?
    | apply failFast_partitionM; intros ?
    | apply failFast_filterM; intros ?
    | solve [auto with failfast]
    | match goal with
      | |- failFast (match ?x with _ => _ end) => destruct x
      | |- failFast (if ?b then _ else _) => destruct b
      end ].

Section FailFast.

Variable E : Externals.
Variable client : SalesforceClient.

Lemma failFast_getRecordsBySaltoIds type instances idFields :
  failFast (getRecordsBySaltoIds E type instances idFields client).
Proof. unfold getRecordsBySaltoIds. fail_fast. Qed.

Lemma failFast_insertInstances tn instances :
  failFast (insertInstances E tn instances client).
Proof. unfold insertInstances. fail_fast. Qed.

Lemma failFast_updateInstances tn instances :
  failFast (updateInstances E tn instances client).
Proof. unfold updateInstances. fail_fast. Qed.

Lemma failFast_deleteInstances tn instances :
  failFast (deleteInstances E tn instances client).
Proof. unfold deleteInstances. fail_fast. Qed.

#[local] Hint Resolve failFast_getRecordsBySaltoIds failFast_insertInstances
  failFast_updateInstances failFast_deleteInstances : failfast.

Lemma failFast_deployAddInstances instances idFields :
  failFast (deployAddInstances E instances idFields client).
Proof. unfold deployAddInstances. fail_fast. Qed.

Lemma failFast_deployRemoveInstances instances :
  failFast (deployRemoveInstances E instances client).
Proof. unfold deployRemoveInstances. fail_fast. Qed.

Lemma failFast_deployModifyChanges changes :
  failFast (deployModifyChanges E changes client).
Proof.
  unfold deployModifyChanges, sameApiName, diffApiNameError, foundEqual. fail_fast.
Qed.

End FailFast.

(** ** The exported function *)

Lemma modificationData_None changes :
  forallb isModificationChange changes = false -> modificationData changes = None.
Proof.
  induction changes as [|c r IH]; cbn; [discriminate|].
  destruct c; cbn; try reflexivity.
  intros H. rewrite (IH H). reflexivity.
Qed.

Section Group.

Variable E : Externals.
Variable client : SalesforceClient.
Variable changes : list Change.
Variable dataManagement : option (DataManagement E).

Local Abbreviation groupDispatch := (groupDispatchOf E client changes).

Lemma group_run_many_types w :
  1 < length (instanceTypesOf E changes) ->
  deployCustomObjectInstancesGroup E changes client dataManagement w
  = (inr (mkDeployResult []
            [Error ("Custom Object Instances change group should have a single type but got: "
                    +:+ join "," (instanceTypesOf E changes))]), w).
Proof.
  intros H. unfold deployCustomObjectInstancesGroup, tryCatch. cbv zeta.
  fold (instanceTypesOf E changes).
  apply Nat.ltb_lt in H. rewrite H. reflexivity.
Qed.

Lemma group_run_one_type first w :
  head (map getChangeElement changes) = Some first ->
  length (instanceTypesOf E changes) <= 1 ->
  deployCustomObjectInstancesGroup E changes client dataManagement w
  = tryCatch
      match actualDataManagementOf E first dataManagement with
      | None =>
          throw (Error "dataManagement must be defined in the salesforce.nacl config to deploy Custom Object instances")
      | Some d => groupDispatch first d
      end
      (fun error => mret (mkDeployResult [] [error])) w.
Proof.
  intros Hhead Hlen. unfold deployCustomObjectInstancesGroup, tryCatch. cbv zeta.
  fold (instanceTypesOf E changes).
  assert (Hltb : (1 <? length (instanceTypesOf E changes))%nat = false)
    by (apply Nat.ltb_ge; exact Hlen).
  rewrite Hltb.
  destruct (map getChangeElement changes) as [|first' rest'] eqn:Hinst;
    [discriminate|].
  cbn in Hhead. injection Hhead as ->.
  unfold actualDataManagementOf, groupDispatchOf. rewrite Hinst.
  destruct (isListCustomSettingsObject E (refType first)).
  - cbn [getDataManagementFromCustomSettings liftResult].
    unfold mbind, M_bind, mret, M_ret. reflexivity.
  - unfold mbind, M_bind, mret, M_ret. reflexivity.
Qed.

Lemma failFast_groupDispatch first d : failFast (groupDispatch first d).
Proof.
  unfold groupDispatchOf.
  pose proof (failFast_deployAddInstances E client) as H1.
  pose proof (failFast_deployRemoveInstances E client) as H2.
  pose proof (failFast_deployModifyChanges E client) as H3.
  fail_fast; auto.
Qed.

(** A computation that fails fast, under the handler of the exported
    function: it returns, and a rejected call is the one error of the
    result, with nothing applied. *)
Lemma tryCatch_failFast (m : M DeployResult) w :
  failFast m ->
  exists res w' evs,
    tryCatch m (fun error => mret (mkDeployResult [] [error])) w = (inr res, w')
    /\ calls w' = calls w ++ evs
    /\ forall ev e, ev ∈ evs -> rejection ev = Some e -> res = mkDeployResult [] [e].
Proof.
  intros Hm. destruct (Hm w) as (evs & Hc & Hr). unfold tryCatch.
  destruct (m w) as [[e0|res] w'] eqn:Hmw; cbn [fst snd] in *.
  - exists (mkDeployResult [] [e0]), w', evs. split; [reflexivity|].
    split; [exact Hc|]. intros ev e Hin Hrej.
    specialize (Hr ev e Hin Hrej). congruence.
  - exists res, w', evs. split; [reflexivity|]. split; [exact Hc|].
    intros ev e Hin Hrej. specialize (Hr ev e Hin Hrej). discriminate.
Qed.

(** The exported function returns and fails fast. *)
Lemma group_returns w :
  exists res w' evs,
    deployCustomObjectInstancesGroup E changes client dataManagement w = (inr res, w')
    /\ calls w' = calls w ++ evs
    /\ forall ev e, ev ∈ evs -> rejection ev = Some e -> res = mkDeployResult [] [e].
Proof.
  destruct (le_lt_dec (length (instanceTypesOf E changes)) 1) as [Hle|Hlt].
  - destruct (head (map getChangeElement changes)) as [first|] eqn:Hhead.
    + rewrite (group_run_one_type first w Hhead Hle).
      apply tryCatch_failFast.
      destruct (actualDataManagementOf E first dataManagement);
        [apply failFast_groupDispatch|apply failFast_throw].
    + unfold deployCustomObjectInstancesGroup. apply tryCatch_failFast.
      cbv zeta. destruct (map getChangeElement changes); [|discriminate].
      fail_fast.
  - rewrite (group_run_many_types w Hlt).
    eexists _, w, []. split; [reflexivity|]. split; [rewrite app_nil_r; reflexivity|].
    intros ev e Hin. apply elem_of_nil in Hin. contradiction.
Qed.

End Group.

(** C4. [deployCustomObjectInstancesGroup] never throws: it returns a
    result in every world and for every client.  A rejected query or bulk
    call, more than one type among the changes, no data management, invalid
    id fields in an Add group, or a group that is neither all additions nor
    all removals nor all modifications, each gives a result with no applied
    change and exactly one error. *)
Theorem deploy_group_never_throws
    (E : Externals) (client : SalesforceClient) (changes : list Change)
    (dataManagement : option (DataManagement E)) (w : World) :
  exists res w' evs,
    deployCustomObjectInstancesGroup E changes client dataManagement w = (inr res, w')
    /\ calls w' = calls w ++ evs
    /\ (forall ev e, ev ∈ evs -> rejection ev = Some e ->
          res = mkDeployResult [] [e])
    /\ (1 < length (instanceTypesOf E changes) ->
          res = mkDeployResult []
                  [Error ("Custom Object Instances change group should have a single type but got: "
                          +:+ join "," (instanceTypesOf E changes))])
    /\ (forall first,
          head (map getChangeElement changes) = Some first ->
          length (instanceTypesOf E changes) <= 1 ->
          (actualDataManagementOf E first dataManagement = None ->
             res = mkDeployResult []
                     [Error "dataManagement must be defined in the salesforce.nacl config to deploy Custom Object instances"])
          /\ (forall d f fs,
                actualDataManagementOf E first dataManagement = Some d ->
                forallb isAdditionChange changes = true ->
                snd (getIdFields E (refType first) d) = Some (f :: fs) ->
                res = mkDeployResult []
                        [Error ("Failed to add instances of type "
                                +:+ default "undefined" (head (instanceTypesOf E changes))
                                +:+ " due to invalid SaltoIdFields - "
                                +:+ join "," (f :: fs))])
          /\ (forall d,
                actualDataManagementOf E first dataManagement = Some d ->
                forallb isAdditionChange changes = false ->
                forallb isRemovalChange changes = false ->
                forallb isModificationChange changes = false ->
                res = mkDeployResult []
                        [Error "Custom Object Instances change group must have one action"])).
Proof.
  destruct (group_returns E client changes dataManagement w)
    as (res & w' & evs & Hrun & Hcalls & Hrej).
  exists res, w', evs. split; [exact Hrun|]. split; [exact Hcalls|].
  split; [exact Hrej|]. split.
  - intros Hlt. rewrite (group_run_many_types E client changes dataManagement w Hlt) in Hrun.
    congruence.
  - intros first Hhead Hle.
    rewrite (group_run_one_type E client changes dataManagement first w Hhead Hle) in Hrun.
    unfold tryCatch in Hrun. split; [|split].
    + intros Hnone. rewrite Hnone in Hrun.
      cbv beta iota delta [throw mret M_ret] in Hrun. congruence.
    + intros d f fs Hd Hadd Hinv. rewrite Hd in Hrun. unfold groupDispatchOf in Hrun.
      rewrite Hadd, Hinv in Hrun.
      cbv beta iota delta [throw mret M_ret] in Hrun. congruence.
    + intros d Hd Hadd Hrem Hmod. rewrite Hd in Hrun. unfold groupDispatchOf in Hrun.
      rewrite Hadd, Hrem, (modificationData_None _ Hmod) in Hrun.
      cbv beta iota delta [throw mret M_ret] in Hrun. congruence.
Qed.

(** ** The text of a value determines the value *)

Lemma members_unfold first es :
  (fix members (first : bool) (es : list (string * Value)) : string :=
     match es with
     | [] => "}"
     | (k, x) :: r =>
         if isUndefined x then members first r
         else (if first then "" else ",") +:+ Json.quote k +:+ ":"
              +:+ Json.serialize x +:+ members false r
     end) first es
  = Json.members first es.
Proof.
  revert first. induction es as [|[k x] r IH]; intros first; [reflexivity|].
  cbn [Json.members]. rewrite <- (IH first), <- (IH false). reflexivity.
Qed.

Lemma serialize_obj es : Json.serialize (VObj es) = "{" +:+ Json.members true es.
Proof.
  cbn [Json.serialize]. rewrite members_unfold. reflexivity.
Qed.

Lemma prune_obj es : Json.prune (VObj es) = VObj (Json.pruneEntries es).
Proof.
  reflexivity.
Qed.

Lemma append_cons (x : ascii) (a b : string) : String x a +:+ b = String x (a +:+ b).
Proof. reflexivity. Qed.

Lemma append_nil (b : string) : "" +:+ b = b.
Proof. reflexivity. Qed.

Lemma append_assoc (a b c : string) : (a +:+ b) +:+ c = a +:+ (b +:+ c).
Proof.
  induction a as [|x a IH]; [reflexivity|].
  rewrite !append_cons. f_equal. exact IH.
Qed.

Lemma unescapeChar_escapeChar c t :
  Json.unescapeChar (Json.escapeChar c +:+ t) = Some (c, t).
Proof.
  destruct c as [[] [] [] [] [] [] [] []]; reflexivity.
Qed.

Lemma unescapeChar_dquote t : Json.unescapeChar (String Json.dquote t) = None.
Proof. reflexivity. Qed.

Lemma escape_prefix_free s1 s2 r1 r2 :
  Json.escape s1 +:+ String Json.dquote r1 = Json.escape s2 +:+ String Json.dquote r2 ->
  s1 = s2 /\ r1 = r2.
Proof.
  revert s2. induction s1 as [|c1 s1 IH]; intros [|c2 s2] H; cbn [Json.escape] in H.
  - rewrite !append_nil in H. injection H as ->. auto.
  - rewrite append_nil, append_assoc in H. apply (f_equal Json.unescapeChar) in H.
    rewrite unescapeChar_escapeChar, unescapeChar_dquote in H. discriminate.
  - rewrite append_nil, append_assoc in H. apply (f_equal Json.unescapeChar) in H.
    rewrite unescapeChar_escapeChar, unescapeChar_dquote in H. discriminate.
  - rewrite !append_assoc in H. apply (f_equal Json.unescapeChar) in H.
    rewrite !unescapeChar_escapeChar in H. injection H as -> H.
    apply IH in H as [-> ->]. auto.
Qed.

(** A string literal ends where its closing quote is. *)
Lemma quote_prefix_free s1 s2 r1 r2 :
  Json.quote s1 +:+ r1 = Json.quote s2 +:+ r2 -> s1 = s2 /\ r1 = r2.
Proof.
  unfold Json.quote. rewrite !append_cons, !append_assoc, !append_cons, !append_nil.
  intros H. injection H as H. apply escape_prefix_free, H.
Qed.

(** *** Numbers *)

Lemma string_of_uint_allNum d : Json.allNumChars (NilEmpty.string_of_uint d) = true.
Proof. induction d; cbn; auto. Qed.

Lemma numberToString_allNum n : Json.allNumChars (Json.numberToString n) = true.
Proof.
  unfold Json.numberToString. destruct (Z.to_int n) as [d|d]; cbn.
  - apply string_of_uint_allNum.
  - apply string_of_uint_allNum.
Qed.

Lemma numberToString_inj n n' :
  Json.numberToString n = Json.numberToString n' -> n = n'.
Proof.
  unfold Json.numberToString. intros H.
  apply (f_equal NilEmpty.int_of_string) in H. rewrite !NilEmpty.isi in H.
  injection H as H. apply (f_equal Z.of_int) in H.
  rewrite !DecimalZ.of_to in H. exact H.
Qed.

Lemma delimited_headNotNum r : Json.delimited r = true -> Json.headNotNum r = true.
Proof.
  destruct r as [|c r]; [reflexivity|]. cbn.
  intros H. apply orb_true_iff in H as [H|H]; apply Ascii.eqb_eq in H; subst c;
    reflexivity.
Qed.

(** The text of a number ends where the digits end. *)
Lemma num_prefix_free s1 s2 r1 r2 :
  Json.allNumChars s1 = true -> Json.allNumChars s2 = true ->
  Json.headNotNum r1 = true -> Json.headNotNum r2 = true ->
  s1 +:+ r1 = s2 +:+ r2 -> s1 = s2 /\ r1 = r2.
Proof.
  revert s2. induction s1 as [|c1 s1 IH]; intros [|c2 s2] H1 H2 Hr1 Hr2 H.
  - rewrite !append_nil in H. auto.
  - rewrite append_nil, append_cons in H. subst r1. cbn in Hr1, H2.
    apply andb_true_iff in H2 as [H2 _]. rewrite H2 in Hr1. discriminate.
  - rewrite append_nil, append_cons in H. subst r2. cbn in Hr2, H1.
    apply andb_true_iff in H1 as [H1 _]. rewrite H1 in Hr2. discriminate.
  - rewrite !append_cons in H. injection H as -> H.
    cbn in H1, H2. apply andb_true_iff in H1 as [_ H1].
    apply andb_true_iff in H2 as [_ H2].
    destruct (IH s2 H1 H2 Hr1 Hr2 H) as [-> ->]. auto.
Qed.

Lemma kindOfText_num s r :
  Json.allNumChars s = true -> Json.delimited r = true ->
  Json.kindOfText (s +:+ r) = Json.KNumber.
Proof.
  destruct s as [|c s].
  - rewrite append_nil. intros _ Hr. destruct r as [|c r]; [reflexivity|].
    cbn in Hr. apply orb_true_iff in Hr as [H|H]; apply Ascii.eqb_eq in H; subst c;
      reflexivity.
  - rewrite append_cons. cbn [Json.allNumChars]. intros H _.
    apply andb_true_iff in H as [H _]. unfold Json.numChar, Js.isDigit in H.
    unfold Json.kindOfText.
    destruct (Ascii.eqb c "n") eqn:E1;
      [apply Ascii.eqb_eq in E1; subst c; discriminate|].
    destruct (Ascii.eqb c "t") eqn:E2;
      [apply Ascii.eqb_eq in E2; subst c; discriminate|].
    destruct (Ascii.eqb c "f") eqn:E3;
      [apply Ascii.eqb_eq in E3; subst c; discriminate|].
    destruct (Ascii.eqb c Json.dquote) eqn:E4;
      [apply Ascii.eqb_eq in E4; subst c; discriminate|].
    destruct (Ascii.eqb c "{") eqn:E5;
      [apply Ascii.eqb_eq in E5; subst c; discriminate|].
    reflexivity.
Qed.

(** The first character of the text of a value tells its kind. *)
Lemma kindOfText_serialize v r :
  isUndefined v = false -> Json.delimited r = true ->
  Json.kindOfText (Json.serialize v +:+ r) = Json.kindOfValue v.
Proof.
  intros Hv Hr. destruct v as [| |[]|n|s|es]; try discriminate; try reflexivity.
  apply kindOfText_num; [apply numberToString_allNum|exact Hr].
Qed.

(** *** Values *)

Lemma Value_nested_ind (P : Value -> Prop) :
  P VUndefined -> P VNull -> (forall b, P (VBool b)) -> (forall n, P (VNum n)) ->
  (forall s, P (VStr s)) ->
  (forall es, Forall (fun kv : string * Value => P (snd kv)) es -> P (VObj es)) ->
  forall v, P v.
Proof.
  intros Hu Hn Hb Hz Hs Ho. fix IH 1.
  intros [| |b|n|s|es]; [exact Hu|exact Hn|apply Hb|apply Hz|apply Hs|].
  apply Ho.
  refine ((fix go (es : list (string * Value)) :
             Forall (fun kv : string * Value => P (snd kv)) es :=
             match es with
             | [] => List.Forall_nil _
             | kv :: r => List.Forall_cons _ kv r (IH (snd kv)) (go r)
             end) es).
Qed.

Lemma delimited_members t r : Json.delimited (Json.members false t +:+ r) = true.
Proof.
  induction t as [|[k x] t IH]; [reflexivity|].
  cbn [Json.members]. destruct (isUndefined x); [exact IH|reflexivity].
Qed.

Lemma member_head_not_brace (first : bool) (k rest r : string) :
  "}" +:+ r <> ((if first then "" else ",") +:+ Json.quote k +:+ rest : string).
Proof.
  destruct first; unfold Json.quote; rewrite ?append_nil, !append_cons; discriminate.
Qed.

Lemma members_prefix_free es :
  Forall (fun kv : string * Value => prefixFree (snd kv)) es ->
  forall first es' r r',
    Json.members first es +:+ r = Json.members first es' +:+ r' ->
    Json.pruneEntries es = Json.pruneEntries es' /\ r = r'.
Proof.
  induction 1 as [|[k x] t Hx Ht IH]; intros first es'.
  - induction es' as [|[k' x'] t' IH']; intros r r' H.
    + cbn [Json.members] in H. rewrite !append_cons, !append_nil in H.
      injection H as ->. auto.
    + cbn [Json.members Json.pruneEntries] in H |- *.
      destruct (isUndefined x'); [apply IH', H|].
      exfalso. rewrite !append_assoc in H.
      exact (member_head_not_brace first k' _ r H).
  - cbn [Json.members Json.pruneEntries]. cbn [snd] in Hx.
    destruct (isUndefined x) eqn:Hux; [apply IH|].
    induction es' as [|[k' x'] t' IH']; intros r r' H.
    + exfalso. cbn [Json.members] in H. rewrite !append_assoc in H.
      symmetry in H. exact (member_head_not_brace first k _ r' H).
    + cbn [Json.members Json.pruneEntries] in H |- *.
      destruct (isUndefined x') eqn:Hux'; [apply IH', H|].
      rewrite !append_assoc in H.
      assert (H' : Json.quote k +:+ ":" +:+ Json.serialize x
                   +:+ Json.members false t +:+ r
                   = Json.quote k' +:+ ":" +:+ Json.serialize x'
                     +:+ Json.members false t' +:+ r').
      { destruct first; [rewrite !append_nil in H; exact H|].
        apply (String.app_inj ",") in H. exact H. }
      apply quote_prefix_free in H' as [-> H'].
      apply (String.app_inj ":") in H'.
      destruct (Hx Hux x' _ _ Hux' (delimited_members t r) (delimited_members t' r') H')
        as [Hp Hrest].
      destruct (IH false t' r r' Hrest) as [Ht' Hr].
      rewrite Hp, Ht'. auto.
Qed.

(** The text of a value, followed by a delimiter, determines the value up
    to the properties left out, and where the text ends. *)
Lemma serialize_prefix_free v : prefixFree v.
Proof.
  induction v as [| |b|n|s|es IH] using Value_nested_ind;
    intros Hv v' r r' Hv' Hr Hr' H; try discriminate.
  all: pose proof (f_equal Json.kindOfText H) as Hk;
    rewrite !kindOfText_serialize in Hk by assumption;
    destruct v' as [| |b'|n'|s'|es']; try discriminate.
  - cbn [Json.serialize] in H. rewrite !append_cons, !append_nil in H.
    injection H as ->. auto.
  - destruct b, b'; cbn [Json.serialize] in H; rewrite !append_cons, !append_nil in H;
      try discriminate; injection H as ->; auto.
  - cbn [Json.serialize] in H.
    apply num_prefix_free in H as [H ->];
      auto using numberToString_allNum, delimited_headNotNum.
    apply numberToString_inj in H. subst. auto.
  - cbn [Json.serialize] in H. apply quote_prefix_free in H as [-> ->]. auto.
  - rewrite !serialize_obj, !append_cons, !append_nil in H. injection H as H.
    apply (members_prefix_free es IH) in H as [Hp ->].
    rewrite !prune_obj, Hp. auto.
Qed.

Lemma isUndefined_prune v : isUndefined (Json.prune v) = isUndefined v.
Proof. destruct v; reflexivity. Qed.

Lemma members_prune es :
  Forall (fun kv : string * Value =>
            Json.serialize (Json.prune (snd kv)) = Json.serialize (snd kv)) es ->
  forall first, Json.members first (Json.pruneEntries es) = Json.members first es.
Proof.
  induction 1 as [|[k x] t Hx Ht IH]; intros first; [reflexivity|].
  cbn [Json.pruneEntries Json.members]. cbn [snd] in Hx.
  destruct (isUndefined x) eqn:Hux; [apply IH|].
  cbn [Json.members]. rewrite isUndefined_prune, Hux, Hx, IH. reflexivity.
Qed.

(** The properties left out do not show in the text. *)
Lemma serialize_prune v : Json.serialize (Json.prune v) = Json.serialize v.
Proof.
  induction v as [| |b|n|s|es IH] using Value_nested_ind; try reflexivity.
  rewrite prune_obj, !serialize_obj, (members_prune es IH). reflexivity.
Qed.

(** [JSON.stringify] of two objects is the same text exactly when the
    objects are the same up to the properties left out. *)
Lemma stringify_inj o o' :
  Json.stringify o = Json.stringify o' <-> Json.pruneEntries o = Json.pruneEntries o'.
Proof.
  unfold Json.stringify. split.
  - rewrite !serialize_obj. intros H. apply (f_equal (fun s => s +:+ "")) in H.
    rewrite !append_cons, !append_nil in H. injection H as H.
    apply (members_prefix_free o) in H as [H _]; [exact H|].
    apply Forall_forall. intros kv _. apply serialize_prefix_free.
  - intros H. rewrite <- (serialize_prune (VObj o)), <- (serialize_prune (VObj o')).
    rewrite !prune_obj, H. reflexivity.
Qed.

(** ** Objects built from entries *)

Lemma has_snoc o k v k' : Js.has (o ++ [(k, v)]) k' = Js.has o k' || String.eqb k k'.
Proof.
  induction o as [|[k0 v0] r IH]; cbn; [apply orb_false_r|].
  rewrite IH. apply orb_assoc.
Qed.

Lemma set_fresh o k v :
  Js.has o k = false -> Js.arrayIndex k = None -> Js.set o k v = o ++ [(k, v)].
Proof. intros H1 H2. unfold Js.set. rewrite H1, H2. reflexivity. Qed.

Lemma foldl_set_fresh acc (es : list (string * Value)) :
  NoDup (map fst es) ->
  Forall (fun e : string * Value => Js.arrayIndex (fst e) = None) es ->
  (forall e, e ∈ es -> Js.has acc (fst e) = false) ->
  foldl (fun o e => Js.set o (fst e) (snd e)) acc es = acc ++ es.
Proof.
  revert acc. induction es as [|[k v] t IH]; intros acc Hnd Hidx Hfresh.
  - cbn. rewrite app_nil_r. reflexivity.
  - cbn in Hnd. apply NoDup_cons in Hnd as [Hhd Hnd].
    apply Forall_cons in Hidx as [Hk Hidx]. cbn [fst] in Hk.
    cbn [foldl fst snd].
    rewrite (set_fresh acc k v (Hfresh (k, v) ltac:(apply elem_of_cons; auto)) Hk).
    rewrite IH; [rewrite <- app_assoc; reflexivity|exact Hnd|exact Hidx|].
    intros e He. rewrite has_snoc. rewrite (Hfresh e) by (apply elem_of_cons; auto).
    cbn. apply String.eqb_neq. intros Heq. apply Hhd. rewrite Heq.
    apply elem_of_map, He.
Qed.

(** Entries with distinct keys, none an array index, stay in their order. *)
Lemma fromEntries_fresh (es : list (string * Value)) :
  NoDup (map fst es) ->
  Forall (fun e : string * Value => Js.arrayIndex (fst e) = None) es ->
  Js.fromEntries es = es.
Proof.
  intros Hnd Hidx. unfold Js.fromEntries.
  rewrite foldl_set_fresh; [reflexivity|exact Hnd|exact Hidx|reflexivity].
Qed.

Lemma map_fst_pairs {A : Type} (g : A -> Value) (h : A -> string) (l : list A) :
  map fst (map (fun f => (h f, g f)) l) = map h l.
Proof. rewrite map_map. reflexivity. Qed.

(** The object of the id fields lists them in their declared order. *)
Lemma idFieldsValues_ordered ids vals :
  NoDup ids -> Forall (fun f => Js.arrayIndex f = None) ids ->
  idFieldsValues ids vals = map (fun f => (f, Js.get vals f)) ids.
Proof.
  intros Hnd Hidx. unfold idFieldsValues. apply fromEntries_fresh.
  - rewrite map_fst_pairs, map_id. exact Hnd.
  - apply Forall_forall. intros e He. apply elem_of_map_inv in He as (f & <- & Hf).
    cbn. rewrite Forall_forall in Hidx. apply Hidx, Hf.
Qed.

Lemma pruneEntries_keys (g : string -> Value) ids k v :
  (k, v) ∈ Json.pruneEntries (map (fun f => (f, g f)) ids) -> k ∈ ids.
Proof.
  induction ids as [|f t IH]; cbn; intros H.
  - apply elem_of_nil in H. contradiction.
  - destruct (isUndefined (g f)).
    + apply elem_of_cons. right. apply IH, H.
    + apply elem_of_cons in H as [H|H].
      * injection H as -> _. apply elem_of_cons. auto.
      * apply elem_of_cons. right. apply IH, H.
Qed.

(** Two objects over the same distinct keys are the same up to the
    properties left out exactly when they hold the same values, up to the
    properties left out of these. *)
Lemma pruneEntries_same_keys (g1 g2 : string -> Value) ids :
  NoDup ids ->
  Json.pruneEntries (map (fun f => (f, g1 f)) ids)
  = Json.pruneEntries (map (fun f => (f, g2 f)) ids)
  <-> forall f, f ∈ ids -> Json.prune (g1 f) = Json.prune (g2 f).
Proof.
  induction ids as [|f t IH]; intros Hnd.
  - split; [intros _ f Hf; apply elem_of_nil in Hf; contradiction|reflexivity].
  - apply NoDup_cons in Hnd as [Hhd Hnd]. specialize (IH Hnd).
    cbn [map Json.pruneEntries].
    destruct (isUndefined (g1 f)) eqn:H1; destruct (isUndefined (g2 f)) eqn:H2.
    + rewrite IH. split.
      * intros H f' Hf'. apply elem_of_cons in Hf' as [->|Hf']; [|apply H, Hf'].
        destruct (g1 f), (g2 f); try discriminate. reflexivity.
      * intros H f' Hf'. apply H. apply elem_of_cons. auto.
    + split.
      * intros H. exfalso. apply Hhd.
        apply (pruneEntries_keys g1 t f (Json.prune (g2 f))).
        rewrite H. apply elem_of_cons. auto.
      * intros H. specialize (H f ltac:(apply elem_of_cons; auto)).
        apply (f_equal isUndefined) in H. rewrite !isUndefined_prune in H. congruence.
    + split.
      * intros H. exfalso. apply Hhd.
        apply (pruneEntries_keys g2 t f (Json.prune (g1 f))).
        rewrite <- H. apply elem_of_cons. auto.
      * intros H. specialize (H f ltac:(apply elem_of_cons; auto)).
        apply (f_equal isUndefined) in H. rewrite !isUndefined_prune in H. congruence.
    + split.
      * intros H. injection H as Hp Ht. rewrite IH in Ht.
        intros f' Hf'. apply elem_of_cons in Hf' as [->|Hf']; [exact Hp|apply Ht, Hf'].
      * intros H. f_equal.
        -- f_equal. apply H. apply elem_of_cons. auto.
        -- apply IH. intros f' Hf'. apply H. apply elem_of_cons. auto.
Qed.

(** The text digested for two values is the same exactly when the id fields
    hold the same values, up to the properties left out. *)
Lemma idFieldsValues_text ids vals vals' :
  NoDup ids -> Forall (fun f => Js.arrayIndex f = None) ids ->
  safeJsonStringify (idFieldsValues ids vals) = safeJsonStringify (idFieldsValues ids vals')
  <-> forall f, f ∈ ids -> Json.prune (Js.get vals f) = Json.prune (Js.get vals' f).
Proof.
  intros Hnd Hidx. unfold safeJsonStringify.
  rewrite !idFieldsValues_ordered by assumption.
  rewrite stringify_inj. apply pruneEntries_same_keys, Hnd.
Qed.

Lemma pruneEntries_defined (g : string -> Value) ids :
  map fst (Json.pruneEntries (map (fun f => (f, g f)) ids))
  = List.filter (fun f => negb (isUndefined (g f))) ids.
Proof.
  induction ids as [|f t IH]; [reflexivity|].
  cbn. destruct (isUndefined (g f)); cbn; rewrite IH; reflexivity.
Qed.

Lemma pruneEntries_of_defined (g : string -> Value) ids :
  Json.pruneEntries (map (fun f => (f, g f)) ids)
  = map (fun f => (f, Json.prune (g f)))
        (List.filter (fun f => negb (isUndefined (g f))) ids).
Proof.
  induction ids as [|f t IH]; [reflexivity|].
  cbn. destruct (isUndefined (g f)); cbn; rewrite IH; reflexivity.
Qed.

(** For the same values and two orders of the id fields, the text digested
    is the same exactly when the fields that have a value come in the same
    order. *)
Lemma idFieldsValues_text_order ids ids' vals :
  NoDup ids -> Forall (fun f => Js.arrayIndex f = None) ids ->
  NoDup ids' -> Forall (fun f => Js.arrayIndex f = None) ids' ->
  safeJsonStringify (idFieldsValues ids vals) = safeJsonStringify (idFieldsValues ids' vals)
  <-> definedFields vals ids = definedFields vals ids'.
Proof.
  intros Hnd Hidx Hnd' Hidx'. unfold safeJsonStringify.
  rewrite !idFieldsValues_ordered by assumption.
  rewrite stringify_inj. split.
  - intros H. apply (f_equal (map fst)) in H.
    rewrite !pruneEntries_defined in H. exact H.
  - intros H. rewrite !pruneEntries_of_defined.
    unfold definedFields in H. rewrite H. reflexivity.
Qed.

(** ** Null entries of a record *)

Lemma cloneWithoutNullsValue_obj o :
  cloneWithoutNullsValue (VObj o) = VObj (cloneWithoutNulls o).
Proof.
  unfold cloneWithoutNulls. cbn [cloneWithoutNullsValue]. unfold Js.entries.
  do 2 f_equal.
  induction o as [|[k x] r IH]; [reflexivity|].
  cbn [List.filter map snd fst].
  destruct (isNull x); cbn [negb map fst snd].
  - exact IH.
  - f_equal. exact IH.
Qed.

Lemma get_foldl_set acc (es : list (string * Value)) k :
  NoDup (map fst es) ->
  Js.get (foldl (fun o e => Js.set o (fst e) (snd e)) acc es) k
  = if Js.has es k then Js.get es k else Js.get acc k.
Proof.
  revert acc. induction es as [|[k0 v0] t IH]; intros acc Hnd; [reflexivity|].
  cbn in Hnd. apply NoDup_cons in Hnd as [Hhd Hnd].
  cbn [foldl fst snd]. rewrite (IH _ Hnd). cbn [Js.has Js.get].
  rewrite get_set. destruct (String.eqb k0 k) eqn:Hk.
  - apply String.eqb_eq in Hk. subst k0.
    assert (Hh : Js.has t k = false).
    { apply not_true_iff_false. intros Hh. apply Hhd. clear -Hh.
      induction t as [|[k1 v1] t IH]; [discriminate|].
      cbn in Hh |- *. apply orb_true_iff in Hh as [Hh|Hh].
      - apply String.eqb_eq in Hh. subst. apply elem_of_cons. auto.
      - apply elem_of_cons. right. apply IH, Hh. }
    rewrite Hh. reflexivity.
  - cbn. reflexivity.
Qed.

Lemma get_fromEntries (es : list (string * Value)) k :
  NoDup (map fst es) -> Js.get (Js.fromEntries es) k = Js.get es k.
Proof.
  intros Hnd. unfold Js.fromEntries. rewrite get_foldl_set by exact Hnd.
  destruct (Js.has es k) eqn:Hh; [reflexivity|].
  symmetry. apply has_false_get, Hh.
Qed.

Lemma has_true_elem (o : Values) k : Js.has o k = true -> k ∈ map fst o.
Proof.
  induction o as [|[k1 v1] t IH]; [discriminate|].
  cbn. intros Hh. apply orb_true_iff in Hh as [Hh|Hh].
  - apply String.eqb_eq in Hh. subst. apply elem_of_cons. auto.
  - apply elem_of_cons. right. apply IH, Hh.
Qed.

Lemma NoDup_map_fst_clone (vals : Values) :
  NoDup (map fst vals) ->
  NoDup (map fst
           (map (fun kv : string * Value => (fst kv, cloneWithoutNullsValue (snd kv)))
                (List.filter (fun kv : string * Value => negb (isNull (snd kv))) vals))).
Proof.
  intros Hnd. rewrite map_map. cbn [fst]. apply (NoDup_map_filter fst), Hnd.
Qed.

Lemma get_clone_entries (vals : Values) k :
  NoDup (map fst vals) ->
  Js.get (map (fun kv : string * Value => (fst kv, cloneWithoutNullsValue (snd kv)))
              (List.filter (fun kv : string * Value => negb (isNull (snd kv))) vals)) k
  = normalizeNull (Js.get vals k).
Proof.
  induction vals as [|[k0 v0] t IH]; intros Hnd; [reflexivity|].
  cbn in Hnd. apply NoDup_cons in Hnd as [Hhd Hnd].
  cbn [List.filter snd Js.get]. destruct (String.eqb k0 k) eqn:Hk.
  - apply String.eqb_eq in Hk. subst k0. unfold normalizeNull.
    destruct (isNull v0) eqn:Hn; cbn [negb map fst snd Js.get].
    + rewrite (IH Hnd).
      assert (Hg : Js.get t k = VUndefined).
      { apply has_false_get. apply not_true_iff_false. intros Hh.
        apply Hhd, has_true_elem, Hh. }
      rewrite Hg. reflexivity.
    + rewrite String.eqb_refl. reflexivity.
  - destruct (isNull v0); cbn [negb map fst snd Js.get]; rewrite ?Hk; apply IH, Hnd.
Qed.

(** Reading a record after [cloneWithoutNulls]: a [null] entry reads as an
    absent one. *)
Lemma get_cloneWithoutNulls (vals : Values) k :
  NoDup (map fst vals) ->
  Js.get (cloneWithoutNulls vals) k = normalizeNull (Js.get vals k).
Proof.
  intros Hnd. unfold cloneWithoutNulls, Js.entries.
  rewrite get_fromEntries by (apply NoDup_map_fst_clone, Hnd).
  apply get_clone_entries, Hnd.
Qed.

Lemma isUndefined_normalizeNull v : isUndefined (normalizeNull v) = isNullish v.
Proof. destruct v; reflexivity. Qed.

(** ** The identity hash *)

(** C6, as the code has it. The identity hash is the digest of the JSON text
    of an object that lists the id fields in their declared order, each with
    the value the instance has for it (the names being distinct and none an
    array index).  It is a function of these values: the text is the same
    exactly when the id fields hold the same values, up to properties that
    are [undefined], which the text leaves out.  For the same values and
    another order of the fields, the text is the same exactly when the
    fields that have a value come in the same order, and the hash is then
    the same. *)
Theorem identity_hash_of_ordered_fields
    (E : Externals) (ids ids' : list string) (vals vals' : Values) :
  NoDup ids -> Forall (fun f => Js.arrayIndex f = None) ids ->
  NoDup ids' -> Forall (fun f => Js.arrayIndex f = None) ids' ->
  idFieldsValues ids vals = map (fun f => (f, Js.get vals f)) ids
  /\ computeSaltoIdHash E ids vals
     = toMD5 E (Json.stringify (map (fun f => (f, Js.get vals f)) ids))
  /\ ((forall f, f ∈ ids -> Js.get vals f = Js.get vals' f) ->
      computeSaltoIdHash E ids vals = computeSaltoIdHash E ids vals')
  /\ (safeJsonStringify (idFieldsValues ids vals)
      = safeJsonStringify (idFieldsValues ids vals')
      <-> forall f, f ∈ ids -> Json.prune (Js.get vals f) = Json.prune (Js.get vals' f))
  /\ (safeJsonStringify (idFieldsValues ids vals)
      = safeJsonStringify (idFieldsValues ids' vals)
      <-> definedFields vals ids = definedFields vals ids')
  /\ (definedFields vals ids = definedFields vals ids' ->
      computeSaltoIdHash E ids vals = computeSaltoIdHash E ids' vals).
Proof.
  intros Hnd Hidx Hnd' Hidx'.
  pose proof (idFieldsValues_ordered ids vals Hnd Hidx) as Hord.
  pose proof (idFieldsValues_text_order ids ids' vals Hnd Hidx Hnd' Hidx') as Horder.
  split; [exact Hord|]. split.
  { unfold computeSaltoIdHash, safeJsonStringify. rewrite Hord. reflexivity. }
  split.
  { intros Hsame. unfold computeSaltoIdHash. do 2 f_equal.
    rewrite !idFieldsValues_ordered by assumption.
    apply map_ext_in. intros f Hf. f_equal. apply Hsame, list_elem_of_In, Hf. }
  split; [apply idFieldsValues_text; assumption|].
  split; [exact Horder|].
  intros Hdef. unfold computeSaltoIdHash. f_equal. apply Horder, Hdef.
Qed.

Lemma identity_hash_of_ordered_fields_witness :
  idFieldsValues ["Name"; "City"] [("City", VStr "Paris"); ("Name", VStr "Acme")]
  = [("Name", VStr "Acme"); ("City", VStr "Paris")]
  /\ safeJsonStringify
       (idFieldsValues ["Name"; "City"] [("City", VStr "Paris"); ("Name", VStr "Acme")])
     <> safeJsonStringify
          (idFieldsValues ["City"; "Name"] [("City", VStr "Paris"); ("Name", VStr "Acme")]).
Proof.
  destruct (identity_hash_of_ordered_fields Sample.env
              ["Name"; "City"] ["City"; "Name"]
              [("City", VStr "Paris"); ("Name", VStr "Acme")]
              [("City", VStr "Paris"); ("Name", VStr "Acme")])
    as (Hord & _ & _ & _ & Horder & _).
  - apply NoDup_cons. split; [|apply NoDup_singleton].
    intros H. apply list_elem_of_singleton in H. discriminate.
  - repeat constructor.
  - apply NoDup_cons. split; [|apply NoDup_singleton].
    intros H. apply list_elem_of_singleton in H. discriminate.
  - repeat constructor.
  - split; [exact Hord|]. intros H. apply Horder in H. discriminate.
Defined.

(** C6 fails as stated: with a value for one id field only, the two orders
    of the fields give the same text, [{"Name":"Acme"}], and so the same
    hash whatever the digest. *)
Lemma identity_hash_same_after_reordering :
  ~ exists E : Externals,
      computeSaltoIdHash E ["Name"; "City"] [("Name", VStr "Acme")]
      <> computeSaltoIdHash E ["City"; "Name"] [("Name", VStr "Acme")].
Proof.
  intros [E H]. apply H. unfold computeSaltoIdHash. f_equal.
Qed.

(** C7, as the code has it. Before the hash of a fetched record is computed,
    the [null] entries of its values are removed, in nested objects too: a
    [null] entry reads as an absent one, there is no value standing for it.
    The text digested for two records is the same exactly when, for each id
    field, they hold the same value once [null] is read as [undefined] (up
    to the properties left out of the text); so a record with [null] and a
    record without the field have the same hash, and a record with [null]
    or without the field and one with another value in that field never
    have the same text. *)
Theorem record_hash_nulls_read_as_absent
    (E : Externals) (type : TypeElement) (ids : list string)
    (r1 r2 : SalesforceRecord) :
  let v1 := transformRecordToValues E type r1 in
  let v2 := transformRecordToValues E type r2 in
  NoDup (map fst v1) -> NoDup (map fst v2) ->
  NoDup ids -> Forall (fun f => Js.arrayIndex f = None) ids ->
  (forall k, Js.get (cloneWithoutNulls v1) k = normalizeNull (Js.get v1 k))
  /\ (forall k, isNull (Js.get v1 k) = true ->
        Js.get (cloneWithoutNulls v1) k = VUndefined)
  /\ (safeJsonStringify (idFieldsValues ids (cloneWithoutNulls v1))
      = safeJsonStringify (idFieldsValues ids (cloneWithoutNulls v2))
      <-> forall f, f ∈ ids ->
            Json.prune (normalizeNull (Js.get v1 f))
            = Json.prune (normalizeNull (Js.get v2 f)))
  /\ ((forall f, f ∈ ids -> normalizeNull (Js.get v1 f) = normalizeNull (Js.get v2 f)) ->
      computeRecordSaltoIdHash E type ids r1 = computeRecordSaltoIdHash E type ids r2)
  /\ (forall f, f ∈ ids ->
        isNullish (Js.get v1 f) = true -> isNullish (Js.get v2 f) = false ->
        safeJsonStringify (idFieldsValues ids (cloneWithoutNulls v1))
        <> safeJsonStringify (idFieldsValues ids (cloneWithoutNulls v2))).
Proof.
  intros v1 v2 Hk1 Hk2 Hnd Hidx.
  assert (Hget1 : forall k, Js.get (cloneWithoutNulls v1) k = normalizeNull (Js.get v1 k))
    by (intros k; apply get_cloneWithoutNulls, Hk1).
  assert (Hget2 : forall k, Js.get (cloneWithoutNulls v2) k = normalizeNull (Js.get v2 k))
    by (intros k; apply get_cloneWithoutNulls, Hk2).
  assert (Htext :
            safeJsonStringify (idFieldsValues ids (cloneWithoutNulls v1))
            = safeJsonStringify (idFieldsValues ids (cloneWithoutNulls v2))
            <-> forall f, f ∈ ids ->
                  Json.prune (normalizeNull (Js.get v1 f))
                  = Json.prune (normalizeNull (Js.get v2 f))).
  { rewrite (idFieldsValues_text ids _ _ Hnd Hidx).
    split; intros H f Hf; specialize (H f Hf).
    - rewrite <- Hget1, <- Hget2. exact H.
    - rewrite Hget1, Hget2. exact H. }
  split; [exact Hget1|]. split.
  { intros k Hnull. rewrite Hget1. unfold normalizeNull. rewrite Hnull. reflexivity. }
  split; [exact Htext|]. split.
  - intros Hsame. unfold computeRecordSaltoIdHash, computeSaltoIdHash.
    fold v1 v2. f_equal. apply Htext. intros f Hf. rewrite (Hsame f Hf). reflexivity.
  - intros f Hf H1 H2 Heq. rewrite Htext in Heq. specialize (Heq f Hf).
    apply (f_equal isUndefined) in Heq.
    rewrite !isUndefined_prune, !isUndefined_normalizeNull in Heq. congruence.
Qed.

Lemma record_hash_nulls_read_as_absent_witness :
  computeRecordSaltoIdHash Sample.env Sample.account ["Name"]
    [("Id", VStr "001"); ("Name", VNull)]
  = computeRecordSaltoIdHash Sample.env Sample.account ["Name"] [("Id", VStr "002")]
  /\ safeJsonStringify
       (idFieldsValues ["Name"] (cloneWithoutNulls [("Id", VStr "001"); ("Name", VNull)]))
     <> safeJsonStringify
          (idFieldsValues ["Name"]
             (cloneWithoutNulls [("Id", VStr "003"); ("Name", VStr "null")])).
Proof.
  split.
  - apply (record_hash_nulls_read_as_absent Sample.env Sample.account ["Name"]
             [("Id", VStr "001"); ("Name", VNull)] [("Id", VStr "002")]).
    + cbn. apply NoDup_cons. split; [|apply NoDup_singleton].
      intros H. apply list_elem_of_singleton in H. discriminate.
    + apply NoDup_singleton.
    + apply NoDup_singleton.
    + repeat constructor.
    + intros f Hf. apply list_elem_of_singleton in Hf. subst f. reflexivity.
  - apply (record_hash_nulls_read_as_absent Sample.env Sample.account ["Name"]
             [("Id", VStr "001"); ("Name", VNull)]
             [("Id", VStr "003"); ("Name", VStr "null")]) with (f := "Name").
    + cbn. apply NoDup_cons. split; [|apply NoDup_singleton].
      intros H. apply list_elem_of_singleton in H. discriminate.
    + cbn. apply NoDup_cons. split; [|apply NoDup_singleton].
      intros H. apply list_elem_of_singleton in H. discriminate.
    + apply NoDup_singleton.
    + repeat constructor.
    + apply list_elem_of_singleton. reflexivity.
    + reflexivity.
    + reflexivity.
Defined.

(** C7 fails as stated: nothing stands for a [null] entry; the record with
    [a: null] is, after [cloneWithoutNulls], the record without [a]. *)
Lemma null_entry_becomes_absent :
  cloneWithoutNulls [("a", VNull)] = cloneWithoutNulls []
  /\ Js.has (cloneWithoutNulls [("a", VNull)]) "a" = false.
Proof. split; reflexivity. Qed.

(** * Further properties

    The text of the queries, the pairing of results with instances, what
    each deploy path writes and reports, and the calls a group issues. *)

(** ** The text of a WHERE value *)

Lemma escapeWhereChar_head c t :
  exists d u, escapeWhereChar c +:+ t = String d u /\ d <> "'"%char.
Proof.
  unfold escapeWhereChar.
  destruct (Ascii.eqb_spec c "\"%char) as [->|Hb]; cbn [orb].
  - eexists _, _. split; [rewrite append_cons; reflexivity|discriminate].
  - destruct (Ascii.eqb_spec c "'"%char) as [->|Hq].
    + eexists _, _. split; [rewrite append_cons; reflexivity|discriminate].
    + eexists _, _. split; [rewrite append_cons; reflexivity|exact Hq].
Qed.

Lemma escapeWhereChar_inj c c' t t' :
  escapeWhereChar c +:+ t = escapeWhereChar c' +:+ t' -> c = c' /\ t = t'.
Proof.
  unfold escapeWhereChar.
  destruct (Ascii.eqb_spec c "\"%char) as [->|Hb];
    destruct (Ascii.eqb_spec c' "\"%char) as [->|Hb']; cbn [orb];
    rewrite ?append_cons, ?append_nil.
  - intros [= ->]. auto.
  - destruct (Ascii.eqb_spec c' "'"%char) as [->|Hq'];
      rewrite ?append_cons, ?append_nil; intros H; injection H; intros; subst;
      try discriminate; try contradiction; auto.
  - destruct (Ascii.eqb_spec c "'"%char) as [->|Hq];
      rewrite ?append_cons, ?append_nil; intros H; injection H; intros; subst;
      try discriminate; try contradiction; auto.
  - destruct (Ascii.eqb_spec c "'"%char) as [->|Hq];
      destruct (Ascii.eqb_spec c' "'"%char) as [->|Hq'];
      rewrite ?append_cons, ?append_nil; intros H; injection H; intros; subst;
      try discriminate; try contradiction; auto.
Qed.

Lemma escapeWhereStr_prefix_free s s' r r' :
  escapeWhereStr s +:+ String "'" r = escapeWhereStr s' +:+ String "'" r' ->
  s = s' /\ r = r'.
Proof.
  revert s'. induction s as [|c t IH]; intros [|c' t']; cbn [escapeWhereStr].
  - rewrite !append_nil. intros [= ->]. auto.
  - rewrite append_nil, append_assoc.
    destruct (escapeWhereChar_head c' (escapeWhereStr t' +:+ String "'" r'))
      as (d & u & -> & Hd).
    intros [= <-]. contradiction.
  - rewrite append_nil, append_assoc.
    destruct (escapeWhereChar_head c (escapeWhereStr t +:+ String "'" r))
      as (d & u & -> & Hd).
    intros [= ->]. contradiction.
  - rewrite !append_assoc. intros H.
    apply escapeWhereChar_inj in H as [-> H].
    apply IH in H as [-> ->]. auto.
Qed.

(** X1. [escapeWhereStr] puts a backslash before every backslash and every
    quote, so the string literal of a WHERE clause, the escaped string
    between two quotes, can be read back: with whatever follows it, it
    determines the string and where the literal ends. *)
Theorem where_string_literal_reads_back (s s' r r' : string) :
  "'" +:+ escapeWhereStr s +:+ "'" +:+ r = "'" +:+ escapeWhereStr s' +:+ "'" +:+ r'
  <-> s = s' /\ r = r'.
Proof.
  split.
  - rewrite !append_cons, !append_nil. intros [= H].
    apply escapeWhereStr_prefix_free, H.
  - intros [-> ->]. reflexivity.
Qed.

Lemma mapE_const {A B : Type} (f : A -> JsError + B) (g : A -> B) (l : list A) :
  (forall x, x ∈ l -> f x = inr (g x)) -> mapE f l = inr (map g l).
Proof.
  induction l as [|a t IH]; intros H; [reflexivity|].
  cbn. rewrite (H a) by (apply elem_of_cons; auto).
  rewrite IH by (intros x Hx; apply H, elem_of_cons; auto). reflexivity.
Qed.

(** X2. An id field for which the instance has no value is queried as
    [null], whatever the type of the field: a simple field gives its api
    name with [null], a compound field gives the capitalized name of each
    of its inner fields with [null], and nothing is thrown. *)
Theorem missing_id_value_is_queried_as_null
    (E : Externals) (vals : Values) (field : Field) :
  Js.get vals (field_name field) = VUndefined ->
  getFieldNamesToValues E vals field
  = inr (if isCompoundFieldType E (field_type field)
         then map (fun innerField =>
                     (capitalizeFirstLetter E (field_name innerField), "null"))
                  (typeFields (field_type field))
         else [(apiName_field E field, "null")]).
Proof.
  intros Hget. unfold getFieldNamesToValues. cbv zeta. rewrite Hget.
  destruct (isCompoundFieldType E (field_type field)); [|reflexivity].
  apply mapE_const. intros x _. reflexivity.
Qed.

Lemma missing_id_value_is_queried_as_null_witness :
  getFieldNamesToValues Cases.env [("Name", VStr "Acme")] Cases.billingAddress
  = inr [("City", "null"); ("Street", "null")].
Proof.
  apply (missing_id_value_is_queried_as_null
           Cases.env [("Name", VStr "Acme")] Cases.billingAddress).
  reflexivity.
Defined.

(** The first instance and the first id field are the first to be
    formatted: when that fails, so does the deploy, with nothing done. *)
Lemma deployAddInstances_unformattable
    (E : Externals) (client : SalesforceClient)
    (first : InstanceElement) (rest : list InstanceElement)
    (f : Field) (fs : list Field) (w : World) (e : JsError) :
  isCompoundFieldType E (field_type f) = false ->
  formatValueForWhere f (Js.get (valueIn w first) (field_name f)) = inl e ->
  deployAddInstances E (first :: rest) (f :: fs) client w = (inl e, w).
Proof.
  intros Hcomp Hfmt.
  assert (Hrec : getRecordsBySaltoIds E (refType first) (first :: rest) (f :: fs) client w
                 = (inl e, w)).
  { unfold getRecordsBySaltoIds. apply bind_inl. cbn [mapM]. apply bind_inl.
    rewrite (bind_inr _ _ _ _ _ (readValue_run first w)).
    cbn [mapE]. unfold getFieldNamesToValues at 1. cbv zeta.
    rewrite Hcomp, Hfmt. reflexivity. }
  unfold deployAddInstances. cbv zeta. apply bind_inl, Hrec.
Qed.

(** X3. An Add change group with an id field that is neither primitive
    nor compound, for which the first instance has a value, fails before
    any call is issued: [deployAddInstances] throws the error that names the
    field and leaves the world as it was. *)
Theorem add_fails_on_non_primitive_id_field
    (E : Externals) (client : SalesforceClient)
    (first : InstanceElement) (rest : list InstanceElement)
    (f : Field) (fs : list Field) (w : World) :
  isCompoundFieldType E (field_type f) = false ->
  isPrimitiveType (field_type f) = false ->
  Js.get (valueIn w first) (field_name f) <> VUndefined ->
  deployAddInstances E (first :: rest) (f :: fs) client w
  = (inl (Error ("Can not create WHERE clause for non-primitive field "
                 +:+ field_name f)), w).
Proof.
  intros Hcomp Hprim Hdef.
  apply deployAddInstances_unformattable; [exact Hcomp|].
  unfold formatValueForWhere.
  destruct (Js.get (valueIn w first) (field_name f)); try contradiction;
    destruct (field_type f); try discriminate; reflexivity.
Qed.

Lemma add_fails_on_non_primitive_id_field_witness :
  deployAddInstances Sample.env [Sample.acme] [Cases.tags] Sample.upsertClient
    Cases.taggedWorld
  = (inl (Error "Can not create WHERE clause for non-primitive field Tags"),
     Cases.taggedWorld).
Proof.
  apply (add_fails_on_non_primitive_id_field
           Sample.env Sample.upsertClient Sample.acme [] Cases.tags []
           Cases.taggedWorld).
  - reflexivity.
  - reflexivity.
  - intros H. vm_compute in H. discriminate H.
Defined.

(** X4. An Add change group whose first instance holds, in its first id
    field, a value the WHERE clause of a primitive field cannot take
    ([null], or, in a text field, anything but a string) fails with a
    [TypeError] before any call is issued, the world left as it was. *)
Theorem add_fails_on_unformattable_id_value
    (E : Externals) (client : SalesforceClient)
    (first : InstanceElement) (rest : list InstanceElement)
    (f : Field) (fs : list Field) (p : PrimitiveTypes) (w : World) :
  let v := Js.get (valueIn w first) (field_name f) in
  field_type f = PrimitiveType p ->
  v = VNull \/ (p = STRING /\ v <> VUndefined /\ forall s, v <> VStr s) ->
  exists msg,
    deployAddInstances E (first :: rest) (f :: fs) client w
    = (inl (TypeError msg), w).
Proof.
  intros v Htype Hv.
  assert (Hfmt : exists msg, formatValueForWhere f v = inl (TypeError msg)).
  { unfold formatValueForWhere. rewrite Htype.
    destruct Hv as [->|(-> & Hdef & Hstr)].
    - destruct p; eexists; reflexivity.
    - destruct v as [| |b|n|s|es]; try contradiction; try (eexists; reflexivity).
      exfalso. apply (Hstr s). reflexivity. }
  destruct Hfmt as [msg Hfmt]. exists msg.
  apply deployAddInstances_unformattable; [|exact Hfmt].
  rewrite Htype. reflexivity.
Qed.

Lemma add_fails_on_unformattable_id_value_witness :
  exists msg,
    deployAddInstances Sample.env [Sample.acme] Sample.nameField Sample.upsertClient
      Cases.numberedWorld
    = (inl (TypeError msg), Cases.numberedWorld).
Proof.
  apply (add_fails_on_unformattable_id_value
           Sample.env Sample.upsertClient Sample.acme []
           (mkField "Name" (PrimitiveType STRING)) [] STRING Cases.numberedWorld).
  - reflexivity.
  - right. split; [reflexivity|]. split; intros; discriminate.
Defined.

(** ** Fetching the records, forwards *)

Lemma mapM_read_lift {B : Type} (g : Values -> JsError + B)
    (instances : list InstanceElement) (w : World) (ys : list B) :
  mapE (fun inst => g (valueIn w inst)) instances = inr ys ->
  mapM (fun inst => vals ← readValue inst; liftResult (g vals)) instances w
  = (inr ys, w).
Proof.
  revert ys. induction instances as [|i t IH]; intros ys H.
  - cbn in H. injection H as <-. reflexivity.
  - cbn [mapE] in H. destruct (g (valueIn w i)) as [e|y] eqn:Hy; [discriminate|].
    destruct (mapE _ t) as [e|ys'] eqn:Hys; [discriminate|]. injection H as <-.
    cbn [mapM].
    assert (Hi : (vals ← readValue i; liftResult (g vals)) w = (inr y, w)).
    { rewrite (bind_inr _ _ _ _ _ (readValue_run i w)). rewrite Hy. reflexivity. }
    rewrite (bind_inr _ _ _ _ _ Hi). rewrite (bind_inr _ _ _ _ _ (IH ys' eq_refl)).
    reflexivity.
Qed.

Lemma mapM_callQueryAll client (answer : string -> list SalesforceRecord)
    (queries : list string) (w : World) :
  (forall log q, q ∈ queries -> queryAll client log q = inr (answer q)) ->
  mapM (callQueryAll client) queries w
  = (inr (map answer queries),
     mkWorld (store w)
             (calls w ++ map (fun q => EvQuery q (inr (answer q))) queries)).
Proof.
  revert w. induction queries as [|q t IH]; intros w H.
  - cbn. rewrite app_nil_r. destruct w; reflexivity.
  - cbn [mapM map].
    assert (Hq : callQueryAll client q w
                 = (inr (answer q),
                    mkWorld (store w) (calls w ++ [EvQuery q (inr (answer q))]))).
    { unfold callQueryAll. rewrite (H (calls w) q) by (apply elem_of_cons; auto).
      reflexivity. }
    rewrite (bind_inr _ _ _ _ _ Hq).
    rewrite (bind_inr _ _ _ _ _
               (IH _ (fun log q' Hq' => H log q' ltac:(apply elem_of_cons; auto)))).
    cbn [store calls]. rewrite <- app_assoc. reflexivity.
Qed.

(** X5. When the id values of every instance can be formatted and the
    client answers every query, [getRecordsBySaltoIds] issues exactly the
    queries [buildSelectQueries] gives, one call each and in their order,
    and returns the records of the answers, concatenated in that order; it
    writes no instance. *)
Theorem fetched_records_are_the_answers_in_order
    (E : Externals) (type : TypeElement) (instances : list InstanceElement)
    (idFields : list Field) (client : SalesforceClient) (w : World)
    (idValues : list (list (list (string * string))))
    (answer : string -> list SalesforceRecord) :
  let fields :=
    match List.find (fun field => String.eqb (field_name field) CUSTOM_OBJECT_ID_FIELD)
                    idFields with
    | None => typeField type CUSTOM_OBJECT_ID_FIELD :: map Some idFields
    | Some _ => map Some idFields
    end in
  let queries := buildSelectQueries E (apiName_type E type) fields idValues in
  mapE (fun inst => mapE (getFieldNamesToValues E (valueIn w inst)) idFields) instances
  = inr idValues ->
  (forall log q, q ∈ queries -> queryAll client log q = inr (answer q)) ->
  getRecordsBySaltoIds E type instances idFields client w
  = (inr (concat (map answer queries)),
     mkWorld (store w)
             (calls w ++ map (fun q => EvQuery q (inr (answer q))) queries)).
Proof.
  intros fields queries Hvals Hans. unfold getRecordsBySaltoIds.
  rewrite (bind_inr _ _ _ _ _
             (mapM_read_lift (fun vals => mapE (getFieldNamesToValues E vals) idFields)
                instances w idValues Hvals)).
  cbv zeta. fold fields. fold queries.
  rewrite (bind_inr _ _ _ _ _ (mapM_callQueryAll client answer queries w Hans)).
  reflexivity.
Qed.

Lemma fetched_records_are_the_answers_in_order_witness :
  getRecordsBySaltoIds Cases.env Sample.account [Sample.acme; Sample.twin]
    Sample.nameField Cases.directory Sample.trioWorld
  = (inr [Sample.remoteAcme],
     mkWorld (store Sample.trioWorld)
       [EvQuery "SELECT Id FROM Account WHERE Name='Acme'" (inr [Sample.remoteAcme]);
        EvQuery "SELECT Id FROM Account WHERE Name='Twin'" (inr [])]).
Proof.
  apply (fetched_records_are_the_answers_in_order
           Cases.env Sample.account [Sample.acme; Sample.twin] Sample.nameField
           Cases.directory Sample.trioWorld
           [[[("Name", "'Acme'")]]; [[("Name", "'Twin'")]]] Cases.answerOf).
  - vm_compute. reflexivity.
  - intros log q _. reflexivity.
Defined.

(** ** Results and instances *)

(** X6. Every pair of an instance and its result is counted once by
    [getActionResult]: as a success, as an error message, or, when the
    result reports neither success nor errors, as neither. *)
Theorem action_result_counts (irs : list InstanceAndResult) :
  length (successInstances (getActionResult irs))
  + length (errorMessages (getActionResult irs))
  + length (List.filter unreported irs)
  = length irs.
Proof.
  unfold getActionResult, getAndLogErrors, getErrorMessagesFromInstAndResults.
  cbn [successInstances errorMessages]. rewrite !length_map.
  induction irs as [|[i r] t IH]; [reflexivity|].
  cbn [List.filter]. unfold unreported at 1. cbn [snd].
  destruct (result_success r), (bool_decide (is_Some (result_errors r)));
    cbn [negb andb length]; lia.
Qed.

Lemma definedResults_short results instances :
  length results < length instances ->
  exists msg,
    definedResults (groupInstancesAndResultsByIndex results instances)
    = inl (TypeError msg).
Proof.
  unfold groupInstancesAndResultsByIndex.
  revert results. induction instances as [|i t IH]; intros results Hlen.
  - cbn in Hlen. lia.
  - destruct results as [|r rs].
    + eexists. reflexivity.
    + cbn in Hlen. destruct (IH rs ltac:(lia)) as [msg Hmsg].
      exists msg. cbn.
      match goal with
      | |- match definedResults ?l with _ => _ end = _ =>
          assert (Hl : definedResults l = inl (TypeError msg))
            by (rewrite <- Hmsg; f_equal);
          rewrite Hl
      end.
      reflexivity.
Qed.

(** X7. When the client answers a bulk call with fewer results than there
    are instances, each of the three executors throws a [TypeError] after
    the call is issued; [insertInstances] then writes no [Id], also into
    the instances whose results report success. *)
Theorem executors_throw_on_missing_results
    (E : Externals) (client : SalesforceClient) (typeName : string)
    (instances : list InstanceElement) (w : World) (results : list BatchResultInfo) :
  let states := map (instanceState w) instances in
  length results < length instances ->
  (bulkLoadOperation client (calls w) typeName OpInsert
     (instancesToCreateRecords E states) = inr results ->
   exists msg,
     insertInstances E typeName instances client w
     = (inl (TypeError msg),
        afterBulk client typeName OpInsert (instancesToCreateRecords E states) w))
  /\ (bulkLoadOperation client (calls w) typeName OpUpdate
        (instancesToUpdateRecords E states) = inr results ->
      exists msg,
        updateInstances E typeName instances client w
        = (inl (TypeError msg),
           afterBulk client typeName OpUpdate (instancesToUpdateRecords E states) w))
  /\ (bulkLoadOperation client (calls w) typeName OpDelete
        (instancesToDeleteRecords E states) = inr results ->
      exists msg,
        deleteInstances E typeName instances client w
        = (inl (TypeError msg),
           afterBulk client typeName OpDelete (instancesToDeleteRecords E states) w)).
Proof.
  intros states Hlen. subst states.
  destruct (definedResults_short results instances Hlen) as [msg Hmsg].
  destruct instances as [|i t]; [cbn in Hlen; lia|].
  split; [|split]; intros Hans; exists msg.
  - rewrite insertInstances_cons. cbv zeta. rewrite Hans, Hmsg. reflexivity.
  - rewrite updateInstances_cons. cbv zeta. rewrite Hans, Hmsg. reflexivity.
  - rewrite deleteInstances_run. cbv zeta. rewrite Hans, Hmsg. reflexivity.
Qed.

Lemma executors_throw_on_missing_results_witness :
  (exists msg,
     insertInstances Sample.env "Account" [Sample.acme; Sample.twin]
       (Cases.answering [Sample.ok "001"]) Sample.twinsWorld
     = (inl (TypeError msg),
        afterBulk (Cases.answering [Sample.ok "001"]) "Account" OpInsert
          [[("Name", VStr "Acme")]; [("Name", VStr "Acme")]] Sample.twinsWorld))
  /\ (exists msg,
        updateInstances Sample.env "Account" [Sample.acme; Sample.twin]
          (Cases.answering [Sample.ok "001"]) Sample.twinsWorld
        = (inl (TypeError msg),
           afterBulk (Cases.answering [Sample.ok "001"]) "Account" OpUpdate
             [[("Name", VStr "Acme")]; [("Name", VStr "Acme")]] Sample.twinsWorld))
  /\ (exists msg,
        deleteInstances Sample.env "Account" [Sample.acme; Sample.twin]
          (Cases.answering [Sample.ok "001"]) Sample.twinsWorld
        = (inl (TypeError msg),
           afterBulk (Cases.answering [Sample.ok "001"]) "Account" OpDelete
             [[("Id", VUndefined)]; [("Id", VUndefined)]] Sample.twinsWorld)).
Proof.
  destruct (executors_throw_on_missing_results
              Sample.env (Cases.answering [Sample.ok "001"]) "Account"
              [Sample.acme; Sample.twin] Sample.twinsWorld [Sample.ok "001"]
              ltac:(cbn; lia))
    as (H1 & H2 & H3).
  split; [exact (H1 eq_refl)|]. split; [exact (H2 eq_refl)|exact (H3 eq_refl)].
Defined.

(** X8. With a result for every instance, each of the three executors
    pairs the instances with the results by position, the results past the
    last instance being ignored, and reports the successes and the error
    messages of these pairs. *)
Theorem executors_pair_results_by_position
    (E : Externals) (client : SalesforceClient) (typeName : string)
    (instances : list InstanceElement) (w : World) (results : list BatchResultInfo) :
  let states := map (instanceState w) instances in
  length instances <= length results ->
  (bulkLoadOperation client (calls w) typeName OpInsert
     (instancesToCreateRecords E states) = inr results ->
   fst (insertInstances E typeName instances client w)
   = inr (getActionResult (zip instances results)))
  /\ (bulkLoadOperation client (calls w) typeName OpUpdate
        (instancesToUpdateRecords E states) = inr results ->
      fst (updateInstances E typeName instances client w)
      = inr (getActionResult (zip instances results)))
  /\ (bulkLoadOperation client (calls w) typeName OpDelete
        (instancesToDeleteRecords E states) = inr results ->
      fst (deleteInstances E typeName instances client w)
      = inr (getActionResult (zip instances results))).
Proof.
  intros states Hlen. subst states.
  pose proof (definedResults_zip results instances Hlen) as Hzip.
  split; [|split]; intros Hans.
  - destruct instances as [|i t]; [reflexivity|].
    rewrite insertInstances_cons. cbv zeta. rewrite Hans, Hzip. reflexivity.
  - destruct instances as [|i t]; [reflexivity|].
    rewrite updateInstances_cons. cbv zeta. rewrite Hans, Hzip. reflexivity.
  - rewrite deleteInstances_run. cbv zeta. rewrite Hans, Hzip. reflexivity.
Qed.

Lemma executors_pair_results_by_position_witness :
  fst (insertInstances Sample.env "Account" [Sample.acme; Sample.twin]
         (Cases.answering [Sample.ok "001"; Sample.failed ["locked"]; Sample.ok "003"])
         Sample.twinsWorld)
  = inr (mkActionResult [Sample.acme] ["twin:" +:+ newline +:+ "    " +:+ tab +:+ "locked"])
  /\ fst (updateInstances Sample.env "Account" [Sample.acme; Sample.twin]
            (Cases.answering [Sample.ok "001"; Sample.failed ["locked"]; Sample.ok "003"])
            Sample.twinsWorld)
     = inr (mkActionResult [Sample.acme] ["twin:" +:+ newline +:+ "    " +:+ tab +:+ "locked"])
  /\ fst (deleteInstances Sample.env "Account" [Sample.acme; Sample.twin]
            (Cases.answering [Sample.ok "001"; Sample.failed ["locked"]; Sample.ok "003"])
            Sample.twinsWorld)
     = inr (mkActionResult [Sample.acme] ["twin:" +:+ newline +:+ "    " +:+ tab +:+ "locked"]).
Proof.
  destruct (executors_pair_results_by_position
              Sample.env
              (Cases.answering [Sample.ok "001"; Sample.failed ["locked"]; Sample.ok "003"])
              "Account" [Sample.acme; Sample.twin] Sample.twinsWorld
              [Sample.ok "001"; Sample.failed ["locked"]; Sample.ok "003"]
              ltac:(cbn; lia))
    as (H1 & H2 & H3).
  split; [exact (H1 eq_refl)|]. split; [exact (H2 eq_refl)|exact (H3 eq_refl)].
Defined.

Lemma zip_lookup_pair {A B : Type} (l : list A) (k : list B) j x r :
  l !! j = Some x -> k !! j = Some r -> zip l k !! j = Some (x, r).
Proof.
  revert k j. induction l as [|a t IH]; intros [|b u] [|j]; cbn; try discriminate.
  - intros [= ->] [= ->]. reflexivity.
  - apply IH.
Qed.

Lemma zip_elem_fst {A B : Type} (l : list A) (k : list B) x r :
  (x, r) ∈ zip l k -> x ∈ l.
Proof.
  revert k. induction l as [|a t IH]; intros [|b u] H; cbn in H;
    try (apply elem_of_nil in H; contradiction).
  apply elem_of_cons in H as [[= -> ->]|H]; [apply elem_of_cons; auto|].
  apply elem_of_cons. right. eapply IH, H.
Qed.

Lemma map_fst_zip_le {A B : Type} (l : list A) (k : list B) :
  length l <= length k -> map fst (zip l k) = l.
Proof.
  revert k. induction l as [|a t IH]; intros [|b u] H; cbn in *;
    try reflexivity; try lia.
  f_equal. apply IH. lia.
Qed.

(** X9. After [insertInstances] on distinct instances, with a result for
    each, the value of an instance whose result reports success is its
    value with [Id] set to the id of the result ([undefined] when the
    result has none); the value of any other instance, in the list or not,
    is the one it had. *)
Theorem insert_writes_the_ids_of_successes
    (E : Externals) (client : SalesforceClient) (typeName : string)
    (first : InstanceElement) (rest : list InstanceElement)
    (w : World) (results : list BatchResultInfo) :
  let instances := first :: rest in
  let w' := snd (insertInstances E typeName instances client w) in
  NoDup (map value instances) ->
  length instances <= length results ->
  bulkLoadOperation client (calls w) typeName OpInsert
    (instancesToCreateRecords E (map (instanceState w) instances)) = inr results ->
  (forall j x r,
     instances !! j = Some x -> results !! j = Some r ->
     valueIn w' x
     = if result_success r
       then Js.set (valueIn w x) CUSTOM_OBJECT_ID_FIELD (resultIdValue r)
       else valueIn w x)
  /\ (forall l0, l0 ∉ map value instances -> store w' !! l0 = store w !! l0).
Proof.
  intros instances w' Hnd Hlen Hans. subst w'.
  pose proof (definedResults_zip results instances Hlen) as Hzip.
  subst instances.
  rewrite insertInstances_cons. cbv zeta. rewrite Hans, Hzip. cbn [snd store].
  set (instances := first :: rest) in *.
  set (irs := zip instances results) in *.
  assert (Hfst : map fst irs = instances) by (apply map_fst_zip_le, Hlen).
  assert (Hnd' : NoDup (map (fun ir : InstanceAndResult => value (fst ir))
                            (List.filter (fun ir : InstanceAndResult =>
                                            result_success (snd ir)) irs))).
  { apply NoDup_map_filter.
    replace (map (fun ir : InstanceAndResult => value (fst ir)) irs)
      with (map value (map fst irs)) by (rewrite map_map; reflexivity).
    rewrite Hfst. exact Hnd. }
  split.
  - intros j x r Hx Hr.
    pose proof (zip_lookup_pair instances results j x r Hx Hr) as Hj.
    fold irs in Hj.
    destruct (result_success r) eqn:Hs.
    + unfold valueIn at 1. cbn [store].
      rewrite (writeIds_lookup_in _ _ x r Hnd'); [reflexivity|].
      apply elem_of_filter_bool. split; [|exact Hs].
      apply list_elem_of_lookup. eauto.
    + unfold valueIn. cbn [store]. rewrite writeIds_lookup_notin; [reflexivity|].
      intros Hin. apply elem_of_map_inv in Hin as [[y ry] [Hy Hin]].
      apply elem_of_filter_bool in Hin as [Hin Hsy]. cbn in Hy, Hsy.
      apply list_elem_of_lookup in Hin as [j' Hj'].
      assert (Hyj : instances !! j' = Some y).
      { rewrite <- Hfst. rewrite list_lookup_fmap, Hj'. reflexivity. }
      assert (Hjj : j = j').
      { eapply NoDup_lookup; [exact Hnd| |].
        - rewrite list_lookup_fmap, Hx. reflexivity.
        - rewrite list_lookup_fmap, Hyj. cbn. rewrite Hy. reflexivity. }
      subst j'. rewrite Hj in Hj'. injection Hj' as <- <-. congruence.
  - intros l0 Hl0. apply writeIds_lookup_notin.
    intros Hin. apply Hl0. apply elem_of_map_inv in Hin as [[y ry] [Hy Hin]].
    apply elem_of_filter_bool in Hin as [Hin _]. cbn in Hy. subst l0.
    apply elem_of_map. eapply zip_elem_fst, Hin.
Qed.

Lemma insert_writes_the_ids_of_successes_witness :
  valueIn (snd (insertInstances Sample.env "Account" [Sample.acme; Sample.twin]
                  (Cases.answering [Sample.ok "001"; Sample.failed ["locked"]])
                  Sample.twinsWorld))
          Sample.acme
  = [("Name", VStr "Acme"); ("Id", VStr "001")]
  /\ valueIn (snd (insertInstances Sample.env "Account" [Sample.acme; Sample.twin]
                     (Cases.answering [Sample.ok "001"; Sample.failed ["locked"]])
                     Sample.twinsWorld))
             Sample.twin
     = [("Name", VStr "Acme")].
Proof.
  assert (Hnd : NoDup (map value [Sample.acme; Sample.twin])).
  { cbn. apply NoDup_cons. split; [|apply NoDup_singleton].
    intros H. apply list_elem_of_singleton in H. discriminate. }
  destruct (insert_writes_the_ids_of_successes
              Sample.env (Cases.answering [Sample.ok "001"; Sample.failed ["locked"]])
              "Account" Sample.acme [Sample.twin] Sample.twinsWorld
              [Sample.ok "001"; Sample.failed ["locked"]]
              Hnd ltac:(cbn; lia) eq_refl) as [H _].
  split.
  - exact (H 0 Sample.acme (Sample.ok "001") eq_refl eq_refl).
  - exact (H 1 Sample.twin (Sample.failed ["locked"]) eq_refl eq_refl).
Defined.

(** ** What is written, and by which path *)

Lemma updateInstances_store E tn instances client w :
  store (snd (updateInstances E tn instances client w)) = store w.
Proof.
  destruct instances as [|i t]; [reflexivity|].
  rewrite updateInstances_cons. cbv zeta.
  destruct (bulkLoadOperation _ _ _ _ _); [reflexivity|].
  destruct (definedResults _); reflexivity.
Qed.

Lemma deleteInstances_store E tn instances client w :
  store (snd (deleteInstances E tn instances client w)) = store w.
Proof.
  rewrite deleteInstances_run. cbv zeta.
  destruct (bulkLoadOperation _ _ _ _ _); [reflexivity|].
  destruct (definedResults _); reflexivity.
Qed.

Lemma deployRemoveInstances_store E instances client w :
  store (snd (deployRemoveInstances E instances client w)) = store w.
Proof.
  destruct instances as [|i t]; [reflexivity|].
  unfold deployRemoveInstances, mbind, M_bind.
  pose proof (deleteInstances_store E (apiName_type E (refType i)) (i :: t) client w) as H.
  destruct (deleteInstances _ _ _ _ _) as [[e|a] w1]; exact H.
Qed.

Lemma deployModifyChanges_store E changes client w :
  store (snd (deployModifyChanges E changes client w)) = store w.
Proof.
  destruct changes as [|d t]; [reflexivity|].
  rewrite deployModifyChanges_run. cbv zeta.
  pose proof (updateInstances_store E (apiName_type E (refType (snd d)))
                (map snd (validDataOf E w (d :: t))) client w) as H.
  destruct (updateInstances _ _ _ _ _) as [[e|a] w1]; exact H.
Qed.

(** X10. Only the Add path writes into instances: [updateInstances],
    [deleteInstances], [deployRemoveInstances] and [deployModifyChanges]
    leave every value of the store as it was, whether they return or throw,
    and so does the exported function on a group that is not all
    additions. *)
Theorem only_additions_write_instances
    (E : Externals) (client : SalesforceClient) (typeName : string)
    (instances : list InstanceElement) (data : list ChangeData)
    (changes : list Change) (dataManagement : option (DataManagement E))
    (w : World) :
  store (snd (updateInstances E typeName instances client w)) = store w
  /\ store (snd (deleteInstances E typeName instances client w)) = store w
  /\ store (snd (deployRemoveInstances E instances client w)) = store w
  /\ store (snd (deployModifyChanges E data client w)) = store w
  /\ (forallb isAdditionChange changes = false ->
      store (snd (deployCustomObjectInstancesGroup E changes client dataManagement w))
      = store w).
Proof.
  split; [apply updateInstances_store|]. split; [apply deleteInstances_store|].
  split; [apply deployRemoveInstances_store|].
  split; [apply deployModifyChanges_store|].
  intros Hadd.
  destruct (le_lt_dec (length (instanceTypesOf E changes)) 1) as [Hle|Hlt].
  2:{ rewrite (group_run_many_types E client changes dataManagement w Hlt). reflexivity. }
  destruct (head (map getChangeElement changes)) as [first|] eqn:Hhead.
  2:{ destruct changes; [discriminate Hadd|discriminate Hhead]. }
  rewrite (group_run_one_type E client changes dataManagement first w Hhead Hle).
  unfold tryCatch.
  destruct (actualDataManagementOf E first dataManagement) as [d|]; [|reflexivity].
  unfold groupDispatchOf. rewrite Hadd.
  destruct (forallb isRemovalChange changes).
  - pose proof (deployRemoveInstances_store E (map getChangeElement changes) client w) as H.
    destruct (deployRemoveInstances _ _ _ _) as [[e|a] w1]; exact H.
  - destruct (modificationData changes) as [data'|]; [|reflexivity].
    pose proof (deployModifyChanges_store E data' client w) as H.
    destruct (deployModifyChanges _ _ _ _) as [[e|a] w1]; exact H.
Qed.

(** X11. A removal of instances for which the client answers the delete
    with a result each issues that one call, for the type of the first
    instance, and reports a "remove" change for each instance whose result
    reports success, in their order, and the error messages of the others. *)
Theorem remove_reports_deleted_instances
    (E : Externals) (client : SalesforceClient)
    (first : InstanceElement) (rest : list InstanceElement)
    (w : World) (results : list BatchResultInfo) :
  let instances := first :: rest in
  let typeName := apiName_type E (refType first) in
  let records := instancesToDeleteRecords E (map (instanceState w) instances) in
  bulkLoadOperation client (calls w) typeName OpDelete records = inr results ->
  length instances <= length results ->
  deployRemoveInstances E instances client w
  = (inr (mkDeployResult
            (map RemovalChange (map fst (succeeded (zip instances results))))
            (map Error (getAndLogErrors (zip instances results)))),
     mkWorld (store w) (calls w ++ [EvBulk typeName OpDelete records (inr results)])).
Proof.
  intros instances typeName records Hans Hlen. subst instances typeName records.
  unfold deployRemoveInstances, mbind, M_bind.
  rewrite deleteInstances_run. cbv zeta. unfold afterBulk.
  rewrite Hans, (definedResults_zip _ _ Hlen). reflexivity.
Qed.

Lemma remove_reports_deleted_instances_witness :
  deployRemoveInstances Sample.env [Sample.acme; Sample.twin]
    (Cases.answering [Sample.ok "001"; Sample.failed ["locked"]]) Cases.storedWorld
  = (inr (mkDeployResult
            [RemovalChange Sample.acme]
            [Error ("twin:" +:+ newline +:+ "    " +:+ tab +:+ "locked")]),
     mkWorld (store Cases.storedWorld)
       [EvBulk "Account" OpDelete [[("Id", VStr "001")]; [("Id", VStr "002")]]
          (inr [Sample.ok "001"; Sample.failed ["locked"]])]).
Proof.
  apply (remove_reports_deleted_instances
           Sample.env (Cases.answering [Sample.ok "001"; Sample.failed ["locked"]])
           Sample.acme [Sample.twin] Cases.storedWorld
           [Sample.ok "001"; Sample.failed ["locked"]]).
  - reflexivity.
  - cbn. lia.
Defined.

(** X12. When every change of a Modify group has another api name after
    than before, [deployModifyChanges] issues no call and writes nothing:
    it returns no applied change and one error for each change, in their
    order. *)
Theorem modify_all_renamed_issues_no_call
    (E : Externals) (client : SalesforceClient)
    (first : ChangeData) (rest : list ChangeData) (w : World) :
  let changes := first :: rest in
  (forall d, d ∈ changes -> sameApiNameIn E w d = false) ->
  deployModifyChanges E changes client w
  = (inr (mkDeployResult [] (map (diffApiNameErrorIn E w) changes)), w).
Proof.
  intros changes Hall. subst changes.
  rewrite deployModifyChanges_run. cbv zeta.
  unfold validDataOf, diffApiNameDataOf.
  rewrite (filter_all_false (sameApiNameIn E w) (first :: rest) Hall).
  rewrite (filter_all_true (fun d => negb (sameApiNameIn E w d)) (first :: rest)).
  2:{ intros d Hd. rewrite (Hall d Hd). reflexivity. }
  reflexivity.
Qed.

Lemma modify_all_renamed_issues_no_call_witness :
  deployModifyChanges Sample.env [(Sample.before1, Sample.after1)]
    Sample.modifyClient Sample.modifyWorld
  = (inr (mkDeployResult []
            [Error "Failed to update as api name prev=B and new=C are different"]),
     Sample.modifyWorld).
Proof.
  apply (modify_all_renamed_issues_no_call
           Sample.env Sample.modifyClient (Sample.before1, Sample.after1) []
           Sample.modifyWorld).
  intros d Hd. apply list_elem_of_singleton in Hd. subst d. reflexivity.
Defined.

Lemma zip_lookup_inv {A B : Type} (l : list A) (k : list B) j x r :
  zip l k !! j = Some (x, r) -> l !! j = Some x /\ k !! j = Some r.
Proof.
  revert k j. induction l as [|a t IH]; intros [|b u] [|j]; cbn; try discriminate.
  - intros [= -> ->]. auto.
  - apply IH.
Qed.

Lemma filter_zip_pointwise {A B : Type} (p : A -> bool) (q : B -> bool)
    (l : list A) (k : list B) :
  length l <= length k ->
  (forall j x y, l !! j = Some x -> k !! j = Some y -> p x = q y) ->
  List.filter p l = map fst (List.filter (fun xy : A * B => q (snd xy)) (zip l k)).
Proof.
  revert k. induction l as [|a t IH]; intros [|b u] Hlen H; cbn in Hlen;
    try reflexivity; try lia.
  cbn [zip zip_with List.filter snd].
  rewrite (H 0 a b eq_refl eq_refl).
  rewrite (IH u ltac:(lia) (fun j x y Hx Hy => H (S j) x y Hx Hy)).
  destruct (q b); reflexivity.
Qed.

(** X13. When [isEqual] tells the after instances of a Modify group apart,
    the applied changes are exactly the changes that keep their api name
    and whose own record the update reports as succeeded, in their order:
    a change whose record failed is not reported as applied. *)
Theorem modify_applied_changes_are_the_succeeded_ones
    (E : Externals) (client : SalesforceClient)
    (first : ChangeData) (rest : list ChangeData)
    (w : World) (results : list BatchResultInfo) :
  let changes := first :: rest in
  let instancesType := apiName_type E (refType (snd first)) in
  let validData := validDataOf E w changes in
  let afters := map snd validData in
  let records := instancesToUpdateRecords E (map (instanceState w) afters) in
  (forall s, isEqual E s s = true) ->
  NoDup afters ->
  (forall a b, a ∈ afters -> b ∈ afters ->
               isEqual E (instanceState w a) (instanceState w b) = true -> a = b) ->
  bulkLoadOperation client (calls w) instancesType OpUpdate records = inr results ->
  length afters <= length results ->
  exists res w',
    deployModifyChanges E changes client w = (inr res, w')
    /\ appliedChanges res
       = map (fun dr : ChangeData * BatchResultInfo =>
                ModificationChange (fst (fst dr)) (snd (fst dr)))
             (List.filter (fun dr : ChangeData * BatchResultInfo =>
                             result_success (snd dr))
                          (zip validData results)).
Proof.
  intros changes instancesType validData afters records
         Hrefl Hnd Hsep Hans Hlen.
  pose proof (deployModifyChanges_run E client first rest w) as Hrun.
  cbv zeta in Hrun. fold changes instancesType validData in Hrun. fold afters in Hrun.
  assert (Hupd : exists w1,
             updateInstances E instancesType afters client w
             = (inr (getActionResult (zip afters results)), w1)
             /\ store w1 = store w).
  { subst records. destruct afters as [|a t] eqn:Haft.
    - exists w. rewrite updateInstances_nil. auto.
    - eexists. rewrite updateInstances_cons. cbv zeta. rewrite Hans.
      rewrite (definedResults_zip results (a :: t) Hlen).
      split; reflexivity. }
  destruct Hupd as (w1 & Hupd & Hst).
  rewrite Hupd in Hrun.
  eexists _, w1. split; [exact Hrun|].
  cbn [appliedChanges getActionResult successInstances].
  assert (Hstate : forall i, instanceState w1 i = instanceState w i)
    by (intros i; unfold instanceState; rewrite Hst; reflexivity).
  assert (Hlen' : length validData <= length results)
    by (subst afters; rewrite length_map in Hlen; exact Hlen).
  rewrite (filter_zip_pointwise _ result_success validData results Hlen').
  { rewrite map_map. reflexivity. }
  intros j d r Hj Hr.
  assert (Haj : afters !! j = Some (snd d))
    by (subst afters; rewrite list_lookup_fmap, Hj; reflexivity).
  unfold foundEqualIn. destruct (result_success r) eqn:Hs.
  - apply existsb_exists.
    exists (instanceState w1 (snd d)). split; [|apply Hrefl].
    apply in_map. apply list_elem_of_In.
    apply (elem_of_map fst _ (snd d, r)).
    apply elem_of_filter_bool. split; [|exact Hs].
    apply list_elem_of_lookup. exists j. apply zip_lookup_pair; assumption.
  - apply not_true_iff_false. intros Hex.
    apply existsb_exists in Hex as (s & Hin & Heq).
    apply in_map_iff in Hin as (y & <- & Hy).
    apply list_elem_of_In, elem_of_map_inv in Hy as ([y' r'] & Hy' & Hin).
    cbn in Hy'. subst y'.
    apply elem_of_filter_bool in Hin as [Hin Hs']. cbn in Hs'.
    apply list_elem_of_lookup in Hin as [j' Hj'].
    apply zip_lookup_inv in Hj' as [Hyj Hrj].
    rewrite !Hstate in Heq.
    assert (Hyd : y = snd d).
    { apply Hsep; [apply list_elem_of_lookup; eauto|apply list_elem_of_lookup; eauto|].
      exact Heq. }
    subst y.
    assert (j' = j) by (eapply NoDup_lookup; eauto). subst j'.
    congruence.
Qed.

Lemma modify_applied_changes_are_the_succeeded_ones_witness :
  exists res w',
    deployModifyChanges Sample.env
      [(Sample.before0, Sample.after0); (Cases.before2, Cases.after2)]
      (Cases.answering [Sample.ok "001"; Sample.failed ["locked"]])
      Cases.modifyTwoWorld
    = (inr res, w')
    /\ appliedChanges res = [ModificationChange Sample.before0 Sample.after0].
Proof.
  apply (modify_applied_changes_are_the_succeeded_ones
           Sample.env (Cases.answering [Sample.ok "001"; Sample.failed ["locked"]])
           (Sample.before0, Sample.after0) [(Cases.before2, Cases.after2)]
           Cases.modifyTwoWorld [Sample.ok "001"; Sample.failed ["locked"]]).
  - intros s. cbn. rewrite !String.eqb_refl. reflexivity.
  - change (NoDup [Sample.after0; Cases.after2]).
    apply NoDup_cons. split; [|apply NoDup_singleton].
    intros H. apply list_elem_of_singleton in H. discriminate.
  - intros a b Ha Hb Heq.
    change (a ∈ [Sample.after0; Cases.after2]) in Ha.
    change (b ∈ [Sample.after0; Cases.after2]) in Hb.
    rewrite !elem_of_cons, elem_of_nil in Ha, Hb.
    destruct Ha as [->|[->|[]]], Hb as [->|[->|[]]]; try reflexivity;
      vm_compute in Heq; discriminate Heq.
  - reflexivity.
  - vm_compute. lia.
Defined.

(** ** The add path, forwards *)

(** X14. The record an instance is matched with is the last of the fetched
    records that have its identity hash: a later record takes the place of
    an earlier one with the same hash. *)
Theorem matched_record_is_the_last_with_the_hash
    (E : Externals) (type : TypeElement) (ids : list string)
    (records : list SalesforceRecord) (vals : Values) :
  matchedRecord E type ids records vals
  = last (List.filter
            (fun r => String.eqb (computeRecordSaltoIdHash E type ids r)
                                 (computeSaltoIdHash E ids vals))
            records).
Proof.
  unfold matchedRecord.
  induction records as [|r t IH] using rev_ind.
  - unfold keyBy. cbn. apply lookup_empty.
  - rewrite keyBy_snoc, List.filter_app. cbn [List.filter].
    destruct (String.eqb_spec (computeRecordSaltoIdHash E type ids r)
                              (computeSaltoIdHash E ids vals)) as [Heq|Hne].
    + rewrite Heq, lookup_insert_eq, last_snoc. reflexivity.
    + rewrite lookup_insert_ne by exact Hne. rewrite app_nil_r. exact IH.
Qed.

(** X15. An instance is matched with a fetched record when, for every id
    field, it holds the value of the record, [null] read as [undefined]
    (and nested objects without their [null] entries): the two identity
    hashes are then the same, so an instance that lacks an id field is
    matched with a record that has [null] for it. *)
Theorem instance_with_the_values_of_a_record_is_matched
    (E : Externals) (type : TypeElement) (ids : list string)
    (records : list SalesforceRecord) (record : SalesforceRecord) (vals : Values) :
  let recordValues := transformRecordToValues E type record in
  record ∈ records ->
  NoDup (map fst recordValues) ->
  (forall f, f ∈ ids -> Js.get vals f = normalizeNull (Js.get recordValues f)) ->
  computeSaltoIdHash E ids vals = computeRecordSaltoIdHash E type ids record
  /\ is_Some (matchedRecord E type ids records vals).
Proof.
  intros recordValues Hin Hnd Hsame.
  assert (Hhash : computeSaltoIdHash E ids vals
                  = computeRecordSaltoIdHash E type ids record).
  { unfold computeRecordSaltoIdHash, computeSaltoIdHash. cbv zeta. fold recordValues.
    do 2 f_equal. unfold idFieldsValues. f_equal.
    apply map_ext_in. intros f Hf. f_equal.
    rewrite (get_cloneWithoutNulls recordValues f Hnd).
    apply Hsame, list_elem_of_In, Hf. }
  split; [exact Hhash|].
  apply (matchedRecord_of_hash E type ids records vals record Hin Hhash).
Qed.

Lemma instance_with_the_values_of_a_record_is_matched_witness :
  computeSaltoIdHash Sample.env ["Name"; "Phone"] [("Name", VStr "Acme")]
  = computeRecordSaltoIdHash Sample.env Sample.account ["Name"; "Phone"]
      [("Id", VStr "001"); ("Name", VStr "Acme"); ("Phone", VNull)]
  /\ is_Some (matchedRecord Sample.env Sample.account ["Name"; "Phone"]
                [[("Id", VStr "001"); ("Name", VStr "Acme"); ("Phone", VNull)]]
                [("Name", VStr "Acme")]).
Proof.
  apply (instance_with_the_values_of_a_record_is_matched
           Sample.env Sample.account ["Name"; "Phone"]
           [[("Id", VStr "001"); ("Name", VStr "Acme"); ("Phone", VNull)]]
           [("Id", VStr "001"); ("Name", VStr "Acme"); ("Phone", VNull)]
           [("Name", VStr "Acme")]).
  - apply list_elem_of_singleton. reflexivity.
  - cbn. repeat (apply NoDup_cons; split;
                 [rewrite ?elem_of_cons, elem_of_nil; intros H; intuition discriminate|]).
    apply NoDup_nil. exact I.
  - intros f Hf. rewrite !elem_of_cons, elem_of_nil in Hf.
    destruct Hf as [->|[->|[]]]; reflexivity.
Defined.

Section AddSteps.

Variable E : Externals.
Variable client : SalesforceClient.
Variable idFields : list Field.
Variables (first : InstanceElement) (rest : list InstanceElement).

Local Abbreviation instances := (first :: rest).
Local Abbreviation type := (refType first).
Local Abbreviation typeName := (apiName_type E (refType first)).
Local Abbreviation ids := (map field_name idFields).

(** The steps of [deployAddInstances] once the records are fetched. *)
Lemma deployAddInstances_steps w records w1 :
  NoDup (map value instances) ->
  getRecordsBySaltoIds E type instances idFields client w = (inr records, w1) ->
  deployAddInstances E instances idFields client w
  = match insertInstances E typeName (newOf E type ids records w instances) client w1 with
    | (inl e, w2) => (inl e, w2)
    | (inr inserted, w2) =>
        match updateInstances E typeName (existingOf E type ids records w instances)
                client
                (mkWorld (writeMatched E type ids records (store w2)
                            (existingOf E type ids records w instances))
                         (calls w2)) with
        | (inl e, w3) => (inl e, w3)
        | (inr updated, w3) =>
            (inr (mkDeployResult
                    (map AdditionChange
                         (successInstances inserted ++ successInstances updated))
                    (map Error (errorMessages inserted ++ errorMessages updated))),
             w3)
        end
    end.
Proof.
  intros Hnd Hrec.
  pose proof (getRecordsBySaltoIds_frame E type instances idFields client w) as [Hst1 _].
  rewrite Hrec in Hst1. cbn [snd] in Hst1.
  unfold deployAddInstances. cbv zeta.
  rewrite (bind_inr _ _ _ _ _ Hrec).
  rewrite (bind_inr _ _ _ _ _
             (partitionM_reads _ (isExisting E type ids records) instances w1
                (fun x => eq_refl))).
  cbn [fst snd].
  change (List.filter (isExisting E type ids records w1) instances)
    with (existingOf E type ids records w1 instances).
  change (List.filter (fun x => negb (isExisting E type ids records w1 x)) instances)
    with (newOf E type ids records w1 instances).
  rewrite (existingOf_store E idFields first _ _ _ _ Hst1),
          (newOf_store E idFields first _ _ _ _ Hst1).
  unfold mbind at 1, M_bind at 1.
  destruct (insertInstances E typeName (newOf E type ids records w instances) client w1)
    as [[e|inserted] w2] eqn:Hins; [reflexivity|].
  rewrite (bind_inr _ _ _ _ _
             (forEach_writeMatched E type ids records
                (existingOf E type ids records w instances) w2
                (NoDup_map_filter value _ _ Hnd)
                ltac:(intros x Hx;
                      assert (Hv : valueIn w2 x = valueIn w x)
                        by (unfold valueIn;
                            rewrite (insertInstances_store_notin E client _ _ _ _ _ _ Hins
                                       (existing_not_new E idFields first rest records w x
                                          Hnd Hx));
                            rewrite Hst1; reflexivity);
                      rewrite Hv; apply elem_of_filter_bool in Hx as [_ Hx];
                      unfold isExisting in Hx; apply bool_decide_eq_true in Hx;
                      exact Hx))).
  unfold mbind at 1, M_bind at 1.
  destruct (updateInstances _ _ _ _ _) as [[e|updated] w3]; reflexivity.
Qed.

End AddSteps.

Lemma insertInstances_run E client typeName instances w :
  instances <> [] ->
  let records := instancesToCreateRecords E (map (instanceState w) instances) in
  let w1 := afterBulk client typeName OpInsert records w in
  insertInstances E typeName instances client w
  = match bulkLoadOperation client (calls w) typeName OpInsert records with
    | inl e => (inl e, w1)
    | inr results =>
        match definedResults (groupInstancesAndResultsByIndex results instances) with
        | inl e => (inl e, w1)
        | inr irs =>
            (inr (mkActionResult (map fst (succeeded irs)) (getAndLogErrors irs)),
             mkWorld (writeIds (store w) (succeeded irs)) (calls w1))
        end
    end.
Proof.
  intros Hne. destruct instances as [|i t]; [contradiction|].
  apply insertInstances_cons.
Qed.

Lemma updateInstances_run E client typeName instances w :
  instances <> [] ->
  let records := instancesToUpdateRecords E (map (instanceState w) instances) in
  let w1 := afterBulk client typeName OpUpdate records w in
  updateInstances E typeName instances client w
  = match bulkLoadOperation client (calls w) typeName OpUpdate records with
    | inl e => (inl e, w1)
    | inr results =>
        match definedResults (groupInstancesAndResultsByIndex results instances) with
        | inl e => (inl e, w1)
        | inr irs => (inr (getActionResult irs), w1)
        end
    end.
Proof.
  intros Hne. destruct instances as [|i t]; [contradiction|].
  apply updateInstances_cons.
Qed.

(** X16. An Add change group is not undone when it fails half way: when
    the bulk insert of the new instances is answered and the bulk update of
    the existing ones is rejected, [deployAddInstances] throws the error of
    the update, after both calls, and every instance the insert reports as
    succeeded keeps the [Id] written into it. *)
Theorem add_rejected_update_keeps_inserted_ids
    (E : Externals) (client : SalesforceClient) (idFields : list Field)
    (first : InstanceElement) (rest : list InstanceElement)
    (w w1 : World) (records : list SalesforceRecord)
    (results : list BatchResultInfo) (e : JsError) :
  let instances := first :: rest in
  let type := refType first in
  let typeName := apiName_type E type in
  let ids := map field_name idFields in
  let new := newOf E type ids records w instances in
  let existing := existingOf E type ids records w instances in
  let created := instancesToCreateRecords E (map (instanceState w) new) in
  NoDup (map value instances) ->
  getRecordsBySaltoIds E type instances idFields client w = (inr records, w1) ->
  new <> [] -> existing <> [] ->
  bulkLoadOperation client (calls w1) typeName OpInsert created = inr results ->
  length new <= length results ->
  (forall log recs, bulkLoadOperation client log typeName OpUpdate recs = inl e) ->
  exists w' updated,
    deployAddInstances E instances idFields client w = (inl e, w')
    /\ calls w'
       = calls w1 ++ [EvBulk typeName OpInsert created (inr results);
                      EvBulk typeName OpUpdate updated (inl e)]
    /\ (forall j x r,
          new !! j = Some x -> results !! j = Some r -> result_success r = true ->
          Js.get (valueIn w' x) CUSTOM_OBJECT_ID_FIELD = resultIdValue r).
Proof.
  intros instances type typeName ids new existing created
         Hnd Hrec Hnew Hex Hins Hlen Hupd.
  pose proof (getRecordsBySaltoIds_frame E type instances idFields client w) as [Hst1 _].
  rewrite Hrec in Hst1. cbn [snd] in Hst1.
  subst instances. rewrite (deployAddInstances_steps E client idFields first rest
                              w records w1 Hnd Hrec).
  fold type typeName ids. fold new existing.
  assert (Hnd_new : NoDup (map value new)) by (apply NoDup_map_filter, Hnd).
  rewrite (insertInstances_run E client typeName new w1 Hnew). cbv zeta.
  rewrite (instanceState_store w w1 new Hst1). fold created. rewrite Hins.
  rewrite (definedResults_zip results new Hlen).
  rewrite (updateInstances_run E client typeName existing _ Hex). cbv zeta.
  rewrite Hupd.
  eexists _, _. split; [reflexivity|]. split.
  - unfold afterBulk. cbn [calls]. rewrite Hins, Hupd, <- app_assoc. reflexivity.
  - intros j x r Hx Hr Hs. unfold valueIn, afterBulk. cbn [store].
    assert (Hxin : x ∈ new) by (apply list_elem_of_lookup; eauto).
    rewrite writeMatched_lookup_notin.
    2:{ intros Hin. apply elem_of_map_inv in Hin as [y [Hy Hyin]].
        apply (existing_not_new E idFields first rest records w y Hnd Hyin).
        rewrite Hy. apply elem_of_map, Hxin. }
    rewrite (writeIds_lookup_in (succeeded (zip new results)) _ x r).
    + cbn [default]. apply get_set_eq.
    + apply NoDup_map_filter.
      replace (map (fun ir : InstanceAndResult => value (fst ir)) (zip new results))
        with (map value (map fst (zip new results))) by (rewrite map_map; reflexivity).
      rewrite map_fst_zip_le by exact Hlen. exact Hnd_new.
    + apply elem_of_filter_bool. split; [|exact Hs].
      apply list_elem_of_lookup. exists j. apply zip_lookup_pair; assumption.
Qed.

Lemma add_rejected_update_keeps_inserted_ids_witness :
  exists w' updated,
    deployAddInstances Sample.env [Sample.acme; Sample.twin] Sample.nameField
      Cases.rejectingUpdates Sample.trioWorld
    = (inl Cases.locked, w')
    /\ calls w'
       = [EvQuery "SELECT Id FROM Account" (inr [Sample.remoteAcme])]
         ++ [EvBulk "Account" OpInsert [[("Name", VStr "Twin")]] (inr [Sample.ok "002"]);
             EvBulk "Account" OpUpdate updated (inl Cases.locked)]
    /\ Js.get (valueIn w' Sample.twin) CUSTOM_OBJECT_ID_FIELD = VStr "002".
Proof.
  assert (Hnd : NoDup (map value [Sample.acme; Sample.twin])).
  { cbn. apply NoDup_cons. split; [|apply NoDup_singleton].
    intros H. apply list_elem_of_singleton in H. discriminate. }
  destruct (add_rejected_update_keeps_inserted_ids
              Sample.env Cases.rejectingUpdates Sample.nameField
              Sample.acme [Sample.twin] Sample.trioWorld
              (mkWorld (store Sample.trioWorld)
                 [EvQuery "SELECT Id FROM Account" (inr [Sample.remoteAcme])])
              [Sample.remoteAcme] [Sample.ok "002"] Cases.locked
              Hnd
              ltac:(vm_compute; reflexivity)
              ltac:(intros H; vm_compute in H; discriminate H)
              ltac:(intros H; vm_compute in H; discriminate H)
              ltac:(reflexivity)
              ltac:(vm_compute; lia)
              ltac:(intros log recs; reflexivity))
    as (w' & updated & Hrun & Hcalls & Hids).
  exists w', updated. split; [exact Hrun|]. split; [exact Hcalls|].
  apply (Hids 0 Sample.twin (Sample.ok "002")); vm_compute; reflexivity.
Defined.

Lemma filter_complement_Permutation {A : Type} (p : A -> bool) (l : list A) :
  List.filter (fun x => negb (p x)) l ++ List.filter p l ≡ₚ l.
Proof.
  induction l as [|a t IH]; [reflexivity|].
  cbn [List.filter]. destruct (p a); cbn [negb].
  - rewrite <- Permutation_middle. constructor. exact IH.
  - cbn [app]. constructor. exact IH.
Qed.

Lemma getActionResult_app (a b : list InstanceAndResult) :
  successInstances (getActionResult (a ++ b))
  = successInstances (getActionResult a) ++ successInstances (getActionResult b)
  /\ errorMessages (getActionResult (a ++ b))
     = errorMessages (getActionResult a) ++ errorMessages (getActionResult b).
Proof.
  unfold getActionResult, getAndLogErrors, getErrorMessagesFromInstAndResults.
  cbn [successInstances errorMessages].
  rewrite !List.filter_app, !map_app. split; reflexivity.
Qed.

(** X17. An Add change group whose calls are answered returns, and its
    outcome is read from one result for each instance of the group: once the
    records are fetched, with the bulk insert of the new instances answered
    by [insResults] and the bulk update of the existing ones answered by
    [updResults], a result at least for each instance, [deployAddInstances]
    returns the "add" changes of the instances whose result, the one at
    their position, reports success, and the messages of the results that
    report errors, the new instances first.  The insert is issued after the
    queries when there is a new instance, the update after it, with the
    [Id]s of the inserted and of the matched written, when there is an
    existing one, and there is no other call. *)
Theorem add_outcome_has_one_result_for_each_instance
    (E : Externals) (client : SalesforceClient) (idFields : list Field)
    (first : InstanceElement) (rest : list InstanceElement)
    (w w1 : World) (records : list SalesforceRecord)
    (insResults updResults : list BatchResultInfo) :
  let instances := first :: rest in
  let type := refType first in
  let typeName := apiName_type E type in
  let ids := map field_name idFields in
  let new := newOf E type ids records w instances in
  let existing := existingOf E type ids records w instances in
  let created := instancesToCreateRecords E (map (instanceState w) new) in
  let insIrs := zip new insResults in
  let updIrs := zip existing updResults in
  let w2 :=
    mkWorld (writeMatched E type ids records
               (writeIds (store w) (succeeded insIrs)) existing)
            (match new with
             | [] => calls w1
             | _ :: _ => calls w1 ++ [EvBulk typeName OpInsert created (inr insResults)]
             end) in
  let updated := instancesToUpdateRecords E (map (instanceState w2) existing) in
  NoDup (map value instances) ->
  getRecordsBySaltoIds E type instances idFields client w = (inr records, w1) ->
  (new <> [] ->
   bulkLoadOperation client (calls w1) typeName OpInsert created = inr insResults) ->
  (existing <> [] ->
   bulkLoadOperation client (calls w2) typeName OpUpdate updated = inr updResults) ->
  length new <= length insResults ->
  length existing <= length updResults ->
  deployAddInstances E instances idFields client w
  = (inr (mkDeployResult
            (map AdditionChange (successInstances (getActionResult (insIrs ++ updIrs))))
            (map Error (errorMessages (getActionResult (insIrs ++ updIrs))))),
     mkWorld (store w2)
             (match existing with
              | [] => calls w2
              | _ :: _ => calls w2 ++ [EvBulk typeName OpUpdate updated (inr updResults)]
              end))
  /\ map fst (insIrs ++ updIrs) ≡ₚ instances.
Proof.
  intros instances type typeName ids new existing created insIrs updIrs w2 updated
         Hnd Hrec Hins Hupd Hlen1 Hlen2.
  pose proof (getRecordsBySaltoIds_frame E type instances idFields client w) as [Hst1 _].
  rewrite Hrec in Hst1. cbn [snd] in Hst1.
  destruct (getActionResult_app insIrs updIrs) as [Hs He].
  split.
  2:{ rewrite map_app. unfold insIrs, updIrs.
      rewrite !map_fst_zip_le by assumption.
      apply filter_complement_Permutation. }
  subst instances.
  rewrite (deployAddInstances_steps E client idFields first rest w records w1 Hnd Hrec).
  fold type typeName ids. fold new existing.
  rewrite Hs, He.
  assert (Hinsert :
            insertInstances E typeName new client w1
            = (inr (getActionResult insIrs),
               mkWorld (writeIds (store w) (succeeded insIrs))
                       (match new with
                        | [] => calls w1
                        | _ :: _ =>
                            calls w1 ++ [EvBulk typeName OpInsert created (inr insResults)]
                        end))).
  { destruct new as [|n0 nr] eqn:Hnew.
    - cbn. rewrite <- Hst1. destruct w1; reflexivity.
    - rewrite (insertInstances_run E client typeName (n0 :: nr) w1) by discriminate.
      cbv zeta. rewrite (instanceState_store w w1 (n0 :: nr) Hst1). fold created.
      rewrite (Hins ltac:(discriminate)).
      rewrite (definedResults_zip insResults (n0 :: nr)) by exact Hlen1.
      fold insIrs. unfold afterBulk. cbn [calls]. rewrite (Hins ltac:(discriminate)).
      rewrite Hst1. reflexivity. }
  rewrite Hinsert. cbn [store calls]. fold w2.
  destruct existing as [|x0 xr] eqn:Hex.
  - cbn. reflexivity.
  - rewrite (updateInstances_run E client typeName (x0 :: xr) w2) by discriminate.
    cbv zeta. fold updated. rewrite (Hupd ltac:(discriminate)).
    rewrite (definedResults_zip updResults (x0 :: xr)) by exact Hlen2.
    fold updIrs. unfold afterBulk. rewrite (Hupd ltac:(discriminate)).
    reflexivity.
Qed.

Lemma add_outcome_has_one_result_for_each_instance_witness :
  let client :=
    Sample.client [Sample.remoteAcme] (inr [Sample.ok "002"])
      (inr [Sample.failed ["locked"]]) (inr []) in
  let run :=
    deployAddInstances Sample.env [Sample.acme; Sample.twin] Sample.nameField
      client Sample.trioWorld in
  fst run
  = inr (mkDeployResult
           [AdditionChange Sample.twin]
           [Error ("acme:" +:+ newline +:+ "    " +:+ tab +:+ "locked")])
  /\ calls (snd run)
     = [EvQuery "SELECT Id FROM Account" (inr [Sample.remoteAcme]);
        EvBulk "Account" OpInsert [[("Name", VStr "Twin")]] (inr [Sample.ok "002"]);
        EvBulk "Account" OpUpdate [[("Name", VStr "Acme"); ("Id", VStr "001")]]
          (inr [Sample.failed ["locked"]])].
Proof.
  intros client run.
  assert (Hnd : NoDup (map value [Sample.acme; Sample.twin])).
  { cbn. apply NoDup_cons. split; [|apply NoDup_singleton].
    intros H. apply list_elem_of_singleton in H. discriminate. }
  destruct (add_outcome_has_one_result_for_each_instance
              Sample.env client Sample.nameField Sample.acme [Sample.twin]
              Sample.trioWorld
              (mkWorld (store Sample.trioWorld)
                 [EvQuery "SELECT Id FROM Account" (inr [Sample.remoteAcme])])
              [Sample.remoteAcme] [Sample.ok "002"] [Sample.failed ["locked"]]
              Hnd
              ltac:(vm_compute; reflexivity)
              ltac:(intros _; reflexivity)
              ltac:(intros _; reflexivity)
              ltac:(vm_compute; lia)
              ltac:(vm_compute; lia))
    as [Hrun _].
  unfold run. rewrite Hrun. split; vm_compute; reflexivity.
Defined.

(** ** Records without null *)

Lemma containsNull_obj es :
  containsNull (VObj es) = existsb (fun kv : string * Value => containsNull (snd kv)) es.
Proof.
  cbn [containsNull]. induction es as [|[k x] r IH]; [reflexivity|].
  cbn [existsb snd]. rewrite <- IH. reflexivity.
Qed.

Section EntriesForall.

Variable P : string * Value -> Prop.

Lemma replace_Forall o k v : Forall P o -> P (k, v) -> Forall P (Js.replace o k v).
Proof.
  intros Ho Hv. induction o as [|[k' v'] r IH]; cbn; [constructor|].
  apply Forall_cons in Ho as [Hh Ho].
  destruct (String.eqb_spec k' k) as [->|Hne]; apply Forall_cons; split; eauto.
Qed.

Lemma insertIndex_Forall o n k v :
  Forall P o -> P (k, v) -> Forall P (Js.insertIndex o n k v).
Proof.
  intros Ho Hv. induction o as [|[k' v'] r IH]; cbn.
  - apply Forall_cons. split; [exact Hv|constructor].
  - pose proof Ho as Ho'. apply Forall_cons in Ho' as [Hh Hr].
    destruct (Js.arrayIndex k') as [m|]; [destruct (m <? n)%N|].
    + apply Forall_cons. split; [exact Hh|apply IH, Hr].
    + apply Forall_cons. split; [exact Hv|exact Ho].
    + apply Forall_cons. split; [exact Hv|exact Ho].
Qed.

Lemma set_Forall o k v : Forall P o -> P (k, v) -> Forall P (Js.set o k v).
Proof.
  intros Ho Hv. unfold Js.set. destruct (Js.has o k).
  - apply replace_Forall; assumption.
  - destruct (Js.arrayIndex k).
    + apply insertIndex_Forall; assumption.
    + apply Forall_app. split; [exact Ho|].
      apply Forall_cons. split; [exact Hv|constructor].
Qed.

(** What holds of every entry holds of every property of the object
    [Object.fromEntries] builds from them. *)
Lemma fromEntries_Forall es : Forall P es -> Forall P (Js.fromEntries es).
Proof.
  unfold Js.fromEntries.
  assert (H : forall acc, Forall P acc -> Forall P es ->
                          Forall P (foldl (fun o e => Js.set o (fst e) (snd e)) acc es)).
  { induction es as [|[k v] t IH]; intros acc Hacc Hes; [exact Hacc|].
    apply Forall_cons in Hes as [Hh Ht]. cbn [foldl fst snd].
    apply IH; [apply set_Forall; assumption|exact Ht]. }
  apply H. constructor.
Qed.

End EntriesForall.

Lemma clone_entries_Forall (P : Value -> Prop) (val : Values) :
  Forall (fun kv : string * Value =>
            isNull (snd kv) = false -> P (cloneWithoutNullsValue (snd kv))) val ->
  Forall (fun kv : string * Value => P (snd kv)) (cloneWithoutNulls val).
Proof.
  intros H. unfold cloneWithoutNulls, Js.entries.
  apply fromEntries_Forall.
  induction val as [|[k x] r IH]; [constructor|].
  apply Forall_cons in H as [Hx Hr]. cbn [List.filter snd].
  destruct (isNull x) eqn:Hn; cbn [negb map]; [apply IH, Hr|].
  apply Forall_cons. split; [apply Hx; exact Hn|apply IH, Hr].
Qed.

Lemma cloneWithoutNullsValue_no_null v :
  isNull v = false -> containsNull (cloneWithoutNullsValue v) = false.
Proof.
  induction v as [| | | | |es IH] using Value_nested_ind; intros Hn;
    try reflexivity; try discriminate.
  rewrite cloneWithoutNullsValue_obj, containsNull_obj.
  apply not_true_iff_false. intros Hex.
  apply existsb_exists in Hex as [kv [Hin Hkv]].
  assert (Hall : Forall (fun kv : string * Value => containsNull (snd kv) = false)
                        (cloneWithoutNulls es)).
  { apply (clone_entries_Forall (fun v => containsNull v = false)). exact IH. }
  rewrite Forall_forall in Hall.
  rewrite (Hall kv (proj2 (list_elem_of_In _ _) Hin)) in Hkv. discriminate.
Qed.

(** X18. The clone [cloneWithoutNulls] returns holds no [null], at any
    depth. *)
Theorem cloneWithoutNulls_leaves_no_null (val : Values) :
  containsNull (VObj (cloneWithoutNulls val)) = false.
Proof.
  rewrite <- cloneWithoutNullsValue_obj.
  apply cloneWithoutNullsValue_no_null. reflexivity.
Qed.

(** *** Array indices *)

Lemma isDigit_bound c : Js.isDigit c = true -> (digitOf c <= 9)%N.
Proof.
  unfold Js.isDigit, digitOf. intros H. apply andb_true_iff in H as [H1 H2].
  apply Nat.leb_le in H1, H2. lia.
Qed.

Lemma isDigit_inj c c' :
  Js.isDigit c = true -> Js.isDigit c' = true -> digitOf c = digitOf c' -> c = c'.
Proof.
  unfold Js.isDigit, digitOf. intros H H' Heq.
  apply andb_true_iff in H as [H1 H2]. apply andb_true_iff in H' as [H1' H2'].
  apply Nat.leb_le in H1, H2, H1', H2'.
  rewrite <- (ascii_nat_embedding c), <- (ascii_nat_embedding c'). f_equal. lia.
Qed.

Lemma digitsValue_cons c r acc n :
  Js.digitsValue (String c r) acc = Some n ->
  Js.isDigit c = true /\ Js.digitsValue r (10 * acc + digitOf c)%N = Some n.
Proof. cbn. destruct (Js.isDigit c); [auto|discriminate]. Qed.

Lemma digitsValue_bounds s acc n :
  Js.digitsValue s acc = Some n ->
  (acc * 10 ^ N.of_nat (String.length s) <= n
   < (acc + 1) * 10 ^ N.of_nat (String.length s))%N.
Proof.
  revert acc. induction s as [|c r IH]; intros acc H.
  - cbn in H. injection H as <-. cbn. lia.
  - apply digitsValue_cons in H as [Hd H]. apply isDigit_bound in Hd.
    apply IH in H. cbn [String.length]. rewrite Nat2N.inj_succ, N.pow_succ_r'.
    set (p := (10 ^ N.of_nat (String.length r))%N) in *. nia.
Qed.

Lemma digitsValue_inj s s' acc acc' n :
  String.length s = String.length s' ->
  Js.digitsValue s acc = Some n -> Js.digitsValue s' acc' = Some n ->
  s = s' /\ acc = acc'.
Proof.
  revert s' acc acc'. induction s as [|c r IH]; intros [|c' r'] acc acc' Hlen H H';
    try discriminate.
  - cbn in H, H'. split; [reflexivity|congruence].
  - cbn in Hlen. injection Hlen as Hlen.
    apply digitsValue_cons in H as [Hd H]. apply digitsValue_cons in H' as [Hd' H'].
    destruct (IH r' _ _ Hlen H H') as [-> Hacc].
    pose proof (isDigit_bound c Hd). pose proof (isDigit_bound c' Hd').
    assert (digitOf c = digitOf c' /\ acc = acc') as [Hdig ->] by lia.
    rewrite (isDigit_inj c c' Hd Hd' Hdig). auto.
Qed.

(** The text of an array index: a zero, or digits that start with none. *)
Lemma arrayIndex_text k n :
  Js.arrayIndex k = Some n ->
  Js.digitsValue k 0 = Some n
  /\ ((k = "0" /\ n = 0%N)
      \/ (n <> 0%N
          /\ (10 ^ N.of_nat (String.length k - 1) <= n
              < 10 ^ N.of_nat (String.length k))%N)).
Proof.
  unfold Js.arrayIndex. destruct k as [|c r]; [discriminate|].
  destruct (Ascii.eqb_spec c "0") as [->|Hc]; cbn [andb].
  - destruct (String.eqb_spec r "") as [->|Hr]; cbn [negb]; [|discriminate].
    cbn. intros [= <-]. auto.
  - destruct (Js.digitsValue (String c r) 0) as [m|] eqn:Hm; [|discriminate].
    destruct (m <? 4294967295)%N; [|discriminate]. intros [= <-].
    split; [reflexivity|]. right.
    apply digitsValue_cons in Hm as [Hd Hm].
    assert (Hpos : (1 <= digitOf c)%N).
    { destruct (N.eq_dec (digitOf c) 0%N) as [H0|H0]; [|lia].
      exfalso. apply Hc. apply (isDigit_inj c "0" Hd eq_refl). rewrite H0. reflexivity. }
    pose proof (isDigit_bound c Hd) as Hle.
    apply digitsValue_bounds in Hm.
    cbn [String.length]. rewrite Nat.sub_succ, Nat.sub_0_r, Nat2N.inj_succ, N.pow_succ_r'.
    set (p := (10 ^ N.of_nat (String.length r))%N) in *.
    assert (0 < p)%N by (apply N.neq_0_lt_0, N.pow_nonzero; discriminate).
    nia.
Qed.

Lemma arrayIndex_inj k k' n :
  Js.arrayIndex k = Some n -> Js.arrayIndex k' = Some n -> k = k'.
Proof.
  intros H H'. apply arrayIndex_text in H as [Hv H], H' as [Hv' H'].
  destruct H as [[-> ->]|[Hn Hb]], H' as [[-> Hz]|[Hn' Hb']];
    try reflexivity; try contradiction; try (exfalso; apply Hn; exact Hz).
  assert (Hlen : String.length k = String.length k').
  { destruct k as [|c r]; [cbn in Hv; congruence|].
    destruct k' as [|c' r']; [cbn in Hv'; congruence|].
    cbn [String.length] in *. rewrite !Nat.sub_succ, !Nat.sub_0_r in *.
    destruct (Nat.lt_trichotomy (String.length r) (String.length r')) as [Hlt|[Heq|Hlt]].
    - exfalso.
      assert (10 ^ N.of_nat (S (String.length r)) <= 10 ^ N.of_nat (String.length r'))%N
        by (apply N.pow_le_mono_r; lia).
      lia.
    - congruence.
    - exfalso.
      assert (10 ^ N.of_nat (S (String.length r')) <= 10 ^ N.of_nat (String.length r))%N
        by (apply N.pow_le_mono_r; lia).
      lia. }
  apply (digitsValue_inj k k' 0%N 0%N n Hlen Hv Hv').
Qed.

(** *** Objects that list their properties in order *)

Lemma keyBefore_neq k k' : keyBefore k k' -> k <> k'.
Proof.
  unfold keyBefore. intros H ->.
  destruct (Js.arrayIndex k') as [n|]; [lia|]. contradiction.
Qed.

Lemma has_false_of_neq (o : Values) k :
  Forall (fun kv : string * Value => fst kv <> k) o -> Js.has o k = false.
Proof.
  induction o as [|[k' v'] r IH]; intros H; [reflexivity|].
  apply Forall_cons in H as [Hh Hr]. cbn in Hh |- *.
  apply String.eqb_neq in Hh. rewrite Hh. apply IH, Hr.
Qed.

Lemma has_false_neq (o : Values) k :
  Js.has o k = false -> Forall (fun kv : string * Value => fst kv <> k) o.
Proof.
  induction o as [|[k' v'] r IH]; intros H; [constructor|].
  cbn in H. apply orb_false_iff in H as [Hh Hr].
  apply Forall_cons. split; [apply String.eqb_neq, Hh|apply IH, Hr].
Qed.

Lemma ordered_app a b :
  ordered (a ++ b)
  <-> ordered a /\ ordered b
      /\ Forall (fun x : string * Value =>
                   Forall (fun y : string * Value => keyBefore (fst x) (fst y)) b) a.
Proof.
  induction a as [|[k v] r IH]; cbn [app ordered].
  - split; [intros H; repeat split; [exact H|constructor]|tauto].
  - rewrite Forall_app, IH, Forall_cons. cbn [fst]. tauto.
Qed.

Lemma ordered_keys (o o' : Values) :
  map fst o = map fst o' -> ordered o -> ordered o'.
Proof.
  revert o'. induction o as [|[k v] r IH]; intros [|[k' v'] r'] Hk; try discriminate;
    [auto|].
  cbn in Hk. injection Hk as -> Hk. cbn [ordered]. intros [Hh Hr].
  split; [|apply IH; assumption].
  assert (Hf : Forall (keyBefore k') (map fst r))
    by (apply (Forall_fmap fst (keyBefore k') r); exact Hh).
  rewrite Hk in Hf. exact (proj1 (Forall_fmap fst (keyBefore k') r') Hf).
Qed.

Lemma replace_keys o k v : map fst (Js.replace o k v) = map fst o.
Proof.
  induction o as [|[k' v'] r IH]; [reflexivity|].
  cbn. destruct (String.eqb k' k); cbn; [reflexivity|f_equal; exact IH].
Qed.

(** Setting a property that comes after all the others adds it at the end. *)
Lemma insertIndex_last o n k v :
  Js.arrayIndex k = Some n ->
  Forall (fun kv : string * Value => keyBefore (fst kv) k) o ->
  Js.insertIndex o n k v = o ++ [(k, v)].
Proof.
  intros Hk. induction o as [|[k' v'] r IH]; intros H; [reflexivity|].
  apply Forall_cons in H as [Hh Hr]. cbn [fst] in Hh. unfold keyBefore in Hh.
  rewrite Hk in Hh. cbn [Js.insertIndex app].
  destruct (Js.arrayIndex k') as [m|]; [|contradiction].
  apply N.ltb_lt in Hh. rewrite Hh. f_equal. apply IH, Hr.
Qed.

Lemma set_last o k v :
  Forall (fun kv : string * Value => keyBefore (fst kv) k) o ->
  Js.set o k v = o ++ [(k, v)].
Proof.
  intros H. unfold Js.set.
  rewrite has_false_of_neq
    by (eapply Forall_impl; [exact H|]; intros kv; apply keyBefore_neq).
  destruct (Js.arrayIndex k) as [n|] eqn:Hk; [|reflexivity].
  apply insertIndex_last; assumption.
Qed.

Lemma foldl_set_ordered acc (es : list (string * Value)) :
  ordered (acc ++ es) ->
  foldl (fun o e => Js.set o (fst e) (snd e)) acc es = acc ++ es.
Proof.
  revert acc. induction es as [|[k v] t IH]; intros acc H.
  - cbn. rewrite app_nil_r. reflexivity.
  - cbn [foldl fst snd].
    replace (acc ++ (k, v) :: t) with ((acc ++ [(k, v)]) ++ t) in H |- *
      by (rewrite <- app_assoc; reflexivity).
    assert (Hlast : Forall (fun kv : string * Value => keyBefore (fst kv) k) acc).
    { apply ordered_app in H as [H _]. apply ordered_app in H as (_ & _ & H).
      eapply Forall_impl; [exact H|]. intros x Hx.
      apply Forall_cons in Hx as [Hx _]. exact Hx. }
    rewrite (set_last acc k v Hlast). apply IH, H.
Qed.

Lemma fromEntries_ordered (o : Values) : ordered o -> Js.fromEntries o = o.
Proof. intros H. unfold Js.fromEntries. apply (foldl_set_ordered [] o H). Qed.

Lemma insertIndex_ordered o n k v :
  Js.arrayIndex k = Some n -> Js.has o k = false ->
  ordered o -> ordered (Js.insertIndex o n k v).
Proof.
  intros Hk. induction o as [|[k' v'] r IH]; intros Hhas Ho.
  - cbn. split; [constructor|exact I].
  - cbn in Hhas. apply orb_false_iff in Hhas as [Hne Hhas].
    apply String.eqb_neq in Hne.
    destruct Ho as [Hh Hr]. cbn [Js.insertIndex].
    assert (Hrest : Forall (fun kv : string * Value => fst kv <> k) r)
      by (apply has_false_neq, Hhas).
    destruct (Js.arrayIndex k') as [m|] eqn:Hk'; [destruct (m <? n)%N eqn:Hlt|].
    + cbn [ordered]. split; [|apply IH; assumption].
      apply insertIndex_Forall; [exact Hh|].
      cbn [fst]. unfold keyBefore. rewrite Hk', Hk. apply N.ltb_lt, Hlt.
    + apply N.ltb_ge in Hlt.
      assert (Hnm : (n < m)%N).
      { destruct (N.eq_dec n m) as [->|Hnm]; [|lia].
        exfalso. apply Hne. apply (arrayIndex_inj k' k m Hk' Hk). }
      cbn [ordered]. split; [|split; assumption].
      apply Forall_cons. split.
      * cbn [fst]. unfold keyBefore. rewrite Hk, Hk'. exact Hnm.
      * rewrite Forall_forall in Hh, Hrest |- *. intros kv Hin.
        specialize (Hh kv Hin). specialize (Hrest kv Hin).
        unfold keyBefore in Hh |- *. rewrite Hk' in Hh. rewrite Hk.
        destruct (Js.arrayIndex (fst kv)) as [m'|]; [lia|].
        intros Heq. apply Hrest. symmetry. exact Heq.
    + cbn [ordered]. split; [|split; assumption].
      apply Forall_cons. split.
      * cbn [fst]. unfold keyBefore. rewrite Hk, Hk'.
        intros Heq. apply Hne. symmetry. exact Heq.
      * rewrite Forall_forall in Hh, Hrest |- *. intros kv Hin.
        specialize (Hh kv Hin). specialize (Hrest kv Hin).
        unfold keyBefore in Hh |- *. rewrite Hk' in Hh. rewrite Hk.
        destruct (Js.arrayIndex (fst kv)) as [m'|]; [contradiction|].
        intros Heq. apply Hrest. symmetry. exact Heq.
Qed.

Lemma set_ordered o k v : ordered o -> ordered (Js.set o k v).
Proof.
  intros Ho. unfold Js.set. destruct (Js.has o k) eqn:Hhas.
  - apply (ordered_keys o); [symmetry; apply replace_keys|exact Ho].
  - destruct (Js.arrayIndex k) as [n|] eqn:Hk.
    + apply insertIndex_ordered; assumption.
    + apply ordered_app. split; [exact Ho|]. split; [split; [constructor|exact I]|].
      pose proof (has_false_neq o k Hhas) as Hne.
      eapply Forall_impl; [exact Hne|]. intros kv Hkv.
      apply Forall_cons. split; [|constructor].
      cbn [fst]. unfold keyBefore. rewrite Hk.
      destruct (Js.arrayIndex (fst kv)); exact Hkv.
Qed.

Lemma fromEntries_is_ordered es : ordered (Js.fromEntries es).
Proof.
  unfold Js.fromEntries.
  assert (H : forall acc, ordered acc ->
                          ordered (foldl (fun o e => Js.set o (fst e) (snd e)) acc es)).
  { induction es as [|[k v] t IH]; intros acc Hacc; [exact Hacc|].
    cbn [foldl fst snd]. apply IH, set_ordered, Hacc. }
  apply H. exact I.
Qed.

Lemma wellListed_obj es :
  wellListed (VObj es)
  <-> ordered es /\ Forall (fun kv : string * Value => wellListed (snd kv)) es.
Proof.
  cbn [wellListed].
  assert (H : (fix all (es : list (string * Value)) : Prop :=
                 match es with
                 | [] => True
                 | (_, x) :: r => wellListed x /\ all r
                 end) es
              <-> Forall (fun kv : string * Value => wellListed (snd kv)) es).
  { induction es as [|[k x] r IH]; [split; [constructor|auto]|].
    rewrite Forall_cons, IH. reflexivity. }
  rewrite H. reflexivity.
Qed.

Lemma containsNull_obj_false es :
  containsNull (VObj es) = false
  <-> Forall (fun kv : string * Value => containsNull (snd kv) = false) es.
Proof.
  rewrite containsNull_obj. induction es as [|[k x] r IH]; cbn [existsb snd].
  - split; [constructor|reflexivity].
  - rewrite orb_false_iff, IH, Forall_cons. reflexivity.
Qed.

Lemma containsNull_isNull v : containsNull v = false -> isNull v = false.
Proof. destruct v; try reflexivity. discriminate. Qed.

(** [cloneWithoutNulls] leaves a value without [null] as it is. *)
Lemma cloneWithoutNullsValue_fixed v :
  wellListed v -> containsNull v = false -> cloneWithoutNullsValue v = v.
Proof.
  induction v as [| | | | |es IH] using Value_nested_ind; intros Hw Hn;
    try reflexivity.
  rewrite cloneWithoutNullsValue_obj. f_equal.
  apply wellListed_obj in Hw as [Hord Hw]. apply containsNull_obj_false in Hn.
  unfold cloneWithoutNulls, Js.entries.
  assert (Hentries :
            map (fun kv : string * Value => (fst kv, cloneWithoutNullsValue (snd kv)))
                (List.filter (fun kv : string * Value => negb (isNull (snd kv))) es)
            = es).
  { clear Hord. induction es as [|[k x] r IHr]; [reflexivity|].
    apply Forall_cons in IH as [IHx IH], Hw as [Hwx Hw], Hn as [Hnx Hn].
    cbn [snd] in IHx, Hwx, Hnx. cbn [List.filter snd].
    rewrite (containsNull_isNull x Hnx). cbn [negb map fst snd].
    rewrite (IHx Hwx Hnx). f_equal. apply IHr; assumption. }
  rewrite Hentries. apply fromEntries_ordered, Hord.
Qed.

Lemma cloneWithoutNullsValue_wellListed v : wellListed (cloneWithoutNullsValue v).
Proof.
  induction v as [| | | | |es IH] using Value_nested_ind; try exact I.
  rewrite cloneWithoutNullsValue_obj. apply wellListed_obj.
  split; [apply fromEntries_is_ordered|].
  apply (clone_entries_Forall wellListed).
  eapply Forall_impl; [exact IH|]. intros kv H _. exact H.
Qed.

(** X19. [cloneWithoutNulls] is idempotent: the clone of a clone is the
    clone. *)
Theorem cloneWithoutNulls_idempotent (val : Values) :
  cloneWithoutNulls (cloneWithoutNulls val) = cloneWithoutNulls val.
Proof.
  assert (H : cloneWithoutNullsValue (VObj (cloneWithoutNulls val))
              = VObj (cloneWithoutNulls val)).
  { apply cloneWithoutNullsValue_fixed.
    - rewrite <- cloneWithoutNullsValue_obj. apply cloneWithoutNullsValue_wellListed.
    - rewrite <- cloneWithoutNullsValue_obj.
      apply cloneWithoutNullsValue_no_null. reflexivity. }
  rewrite cloneWithoutNullsValue_obj in H. injection H as H. exact H.
Qed.

(** X20. A record that holds no [null], at any depth, and whose objects
    list their properties as JavaScript does, is its own clone: properties,
    values and order are kept. *)
Theorem cloneWithoutNulls_keeps_record_without_null (val : Values) :
  wellListed (VObj val) -> containsNull (VObj val) = false ->
  cloneWithoutNulls val = val.
Proof.
  intros Hw Hn. pose proof (cloneWithoutNullsValue_fixed (VObj val) Hw Hn) as H.
  rewrite cloneWithoutNullsValue_obj in H. injection H as H. exact H.
Qed.

Lemma cloneWithoutNulls_keeps_record_without_null_witness :
  cloneWithoutNulls [("7", VNum 1); ("Name", VStr "Acme");
                     ("Address", VObj [("city", VStr "Paris"); ("zip", VUndefined)])]
  = [("7", VNum 1); ("Name", VStr "Acme");
     ("Address", VObj [("city", VStr "Paris"); ("zip", VUndefined)])].
Proof.
  apply (cloneWithoutNulls_keeps_record_without_null
           [("7", VNum 1); ("Name", VStr "Acme");
            ("Address", VObj [("city", VStr "Paris"); ("zip", VUndefined)])]).
  - cbn [wellListed ordered].
    repeat split; repeat (apply List.Forall_cons || apply List.Forall_nil);
      cbn [fst]; unfold keyBefore; cbn; discriminate.
  - reflexivity.
Defined.

(** ** The exported function and its guards *)

(** X21. A group the exported function rejects on inspection (no change
    at all, more than one type, no data management, invalid id fields of an
    Add group, or changes of more than one kind) is rejected before
    anything is done: the world the function leaves is the one it found, no
    call issued and no value written.  The empty group is rejected with a
    [TypeError]. *)
Theorem group_rejected_before_any_call
    (E : Externals) (client : SalesforceClient) (changes : list Change)
    (dataManagement : option (DataManagement E)) (w : World) :
  let run := deployCustomObjectInstancesGroup E changes client dataManagement w in
  (changes = [] -> exists msg, run = (inr (mkDeployResult [] [TypeError msg]), w))
  /\ (1 < length (instanceTypesOf E changes) -> snd run = w)
  /\ (forall first,
        head (map getChangeElement changes) = Some first ->
        length (instanceTypesOf E changes) <= 1 ->
        (actualDataManagementOf E first dataManagement = None -> snd run = w)
        /\ (forall d f fs,
              actualDataManagementOf E first dataManagement = Some d ->
              forallb isAdditionChange changes = true ->
              snd (getIdFields E (refType first) d) = Some (f :: fs) ->
              snd run = w)
        /\ (forall d,
              actualDataManagementOf E first dataManagement = Some d ->
              forallb isAdditionChange changes = false ->
              forallb isRemovalChange changes = false ->
              forallb isModificationChange changes = false ->
              snd run = w)).
Proof.
  intros run. subst run. split; [|split].
  - intros ->. eexists. reflexivity.
  - intros Hlt. rewrite (group_run_many_types E client changes dataManagement w Hlt).
    reflexivity.
  - intros first Hhead Hle.
    rewrite (group_run_one_type E client changes dataManagement first w Hhead Hle).
    unfold tryCatch. split; [|split].
    + intros ->. reflexivity.
    + intros d f fs -> Hadd Hinv. unfold groupDispatchOf. rewrite Hadd, Hinv. reflexivity.
    + intros d -> Hadd Hrem Hmod. unfold groupDispatchOf.
      rewrite Hadd, Hrem, (modificationData_None _ Hmod). reflexivity.
Qed.

(** X22. For a group whose first instance is of a list custom settings
    type the data management given to the exported function is not used:
    the function does the same with any other, or with none. *)
Theorem custom_settings_group_ignores_dataManagement
    (E : Externals) (client : SalesforceClient) (changes : list Change)
    (dm1 dm2 : option (DataManagement E)) (first : InstanceElement) (w : World) :
  head (map getChangeElement changes) = Some first ->
  isListCustomSettingsObject E (refType first) = true ->
  deployCustomObjectInstancesGroup E changes client dm1 w
  = deployCustomObjectInstancesGroup E changes client dm2 w.
Proof.
  intros Hhead Hlist.
  destruct (le_lt_dec (length (instanceTypesOf E changes)) 1) as [Hle|Hlt].
  - rewrite !(group_run_one_type E client changes _ first w Hhead Hle).
    unfold actualDataManagementOf. rewrite Hlist. reflexivity.
  - rewrite !(group_run_many_types E client changes _ w Hlt). reflexivity.
Qed.

Lemma custom_settings_group_ignores_dataManagement_witness :
  deployCustomObjectInstancesGroup Cases.env [AdditionChange Cases.setting]
    Sample.twinsClient None Sample.upsertWorld
  = deployCustomObjectInstancesGroup Cases.env [AdditionChange Cases.setting]
      Sample.twinsClient (Some ["Other"]) Sample.upsertWorld.
Proof.
  apply (custom_settings_group_ignores_dataManagement
           Cases.env Sample.twinsClient [AdditionChange Cases.setting]
           None (Some ["Other"]) Cases.setting Sample.upsertWorld).
  - reflexivity.
  - reflexivity.
Defined.

(** ** The calls of a group *)

Lemma emits_ret {A : Type} P (a : A) : emits P (mret a).
Proof. intros w. exists []. split; [cbn; rewrite app_nil_r; reflexivity|constructor]. Qed.

Lemma emits_throw {A : Type} P (e : JsError) : emits P (@throw A e).
Proof. intros w. exists []. split; [cbn; rewrite app_nil_r; reflexivity|constructor]. Qed.

Lemma emits_liftResult {A : Type} P (r : JsError + A) : emits P (liftResult r).
Proof. destruct r; [apply emits_throw|apply emits_ret]. Qed.

Lemma emits_bind {A B : Type} P (m : M A) (f : A -> M B) :
  emits P m -> (forall a, emits P (f a)) -> emits P (m ≫= f).
Proof.
  intros Hm Hf w. destruct (Hm w) as (evs1 & Hc1 & Hp1).
  unfold mbind, M_bind. destruct (m w) as [[e1|a] w1]; cbn [fst snd] in *.
  - exists evs1. split; assumption.
  - destruct (Hf a w1) as (evs2 & Hc2 & Hp2).
    exists (evs1 ++ evs2). split; [rewrite Hc2, Hc1, app_assoc; reflexivity|].
    apply Forall_app. split; assumption.
Qed.

Lemma emits_tryCatch {A : Type} P (m : M A) (h : JsError -> M A) :
  emits P m -> (forall e, emits P (h e)) -> emits P (tryCatch m h).
Proof.
  intros Hm Hh w. destruct (Hm w) as (evs1 & Hc1 & Hp1).
  unfold tryCatch. destruct (m w) as [[e1|a] w1]; cbn [fst snd] in *.
  - destruct (Hh e1 w1) as (evs2 & Hc2 & Hp2).
    exists (evs1 ++ evs2). split; [rewrite Hc2, Hc1, app_assoc; reflexivity|].
    apply Forall_app. split; assumption.
  - exists evs1. split; assumption.
Qed.

Lemma emits_readValue P i : emits P (readValue i).
Proof. intros w. exists []. split; [cbn; rewrite app_nil_r; reflexivity|constructor]. Qed.

Lemma emits_writeValue P i k v : emits P (writeValue i k v).
Proof. intros w. exists []. split; [cbn; rewrite app_nil_r; reflexivity|constructor]. Qed.

Lemma emits_readInstance P i : emits P (readInstance i).
Proof. apply emits_bind; [apply emits_readValue|intros; apply emits_ret]. Qed.

Lemma emits_callQueryAll (P : ClientEvent -> Prop) client q :
  (forall q' a, P (EvQuery q' a)) -> emits P (callQueryAll client q).
Proof.
  intros HP w. eexists. split; [reflexivity|].
  apply Forall_cons. split; [apply HP|constructor].
Qed.

Lemma emits_callBulk (P : ClientEvent -> Prop) client tn op records :
  (forall rs a, P (EvBulk tn op rs a)) ->
  emits P (callBulkLoadOperation client tn op records).
Proof.
  intros HP w. eexists. split; [reflexivity|].
  apply Forall_cons. split; [apply HP|constructor].
Qed.

Lemma emits_mapM {A B : Type} P (f : A -> M B) l :
  (forall x, emits P (f x)) -> emits P (mapM f l).
Proof.
  intros Hf. induction l as [|x r IH]; cbn [mapM]; [apply emits_ret|].
  apply emits_bind; [apply Hf|]. intros y.
  apply emits_bind; [apply IH|]. intros ys. apply emits_ret.
Qed.

Lemma emits_forEach {A : Type} P (f : A -> M unit) l :
  (forall x, emits P (f x)) -> emits P (forEach f l).
Proof.
  intros Hf. induction l as [|x r IH]; cbn [forEach]; [apply emits_ret|].
  apply emits_bind; [apply Hf|]. intros _. apply IH.
Qed.

Lemma emits_partitionM {A : Type} P (p : A -> M bool) l :
  (forall x, emits P (p x)) -> emits P (partitionM p l).
Proof.
  intros Hp. induction l as [|x r IH]; cbn [partitionM]; [apply emits_ret|].
  apply emits_bind; [apply Hp|]. intros b.
  apply emits_bind; [apply IH|]. intros yn. apply emits_ret.
Qed.

Lemma emits_filterM {A : Type} P (p : A -> M bool) l :
  (forall x, emits P (p x)) -> emits P (filterM p l).
Proof.
  intros Hp. induction l as [|x r IH]; cbn [filterM]; [apply emits_ret|].
  apply emits_bind; [apply Hp|]. intros b.
  apply emits_bind; [apply IH|]. intros ys. apply emits_ret.
Qed.

Create HintDb emits.
#[local] Hint Resolve emits_ret emits_throw emits_liftResult emits_readValue
  emits_writeValue emits_readInstance : emits.

(** Every step of a computation built from binds adds calls of [P] only,
    when the calls it issues are calls of [P]. *)
Ltac emits_steps :=
  repeat first
    [ apply emits_bind; [|intros ?]
    | apply emits_mapM; intros ?
    | apply emits_forEach; intros ?
    | apply emits_partitionM; intros ?
    | apply emits_filterM; intros ?
    | solve [auto with emits]
    | solve [apply emits_callQueryAll; auto]
    | solve [apply emits_callBulk; auto]
    | match goal with
      | |- emits _ (match ?x with _ => _ end) => destruct x
      | |- emits _ (if ?b then _ else _) => destruct b
      end ].

Section Emits.

Variable E : Externals.
Variable client : SalesforceClient.
Variable P : ClientEvent -> Prop.

Lemma emits_getRecordsBySaltoIds type instances idFields :
  (forall q a, P (EvQuery q a)) ->
  emits P (getRecordsBySaltoIds E type instances idFields client).
Proof. intros HP. unfold getRecordsBySaltoIds. emits_steps. Qed.

Lemma emits_insertInstances tn instances :
  (forall rs a, P (EvBulk tn OpInsert rs a)) ->
  emits P (insertInstances E tn instances client).
Proof. intros HP. unfold insertInstances. emits_steps. Qed.

Lemma emits_updateInstances tn instances :
  (forall rs a, P (EvBulk tn OpUpdate rs a)) ->
  emits P (updateInstances E tn instances client).
Proof. intros HP. unfold updateInstances. emits_steps. Qed.

Lemma emits_deleteInstances tn instances :
  (forall rs a, P (EvBulk tn OpDelete rs a)) ->
  emits P (deleteInstances E tn instances client).
Proof. intros HP. unfold deleteInstances. emits_steps. Qed.

Lemma emits_deployAddInstances first rest idFields :
  (forall q a, P (EvQuery q a)) ->
  (forall rs a, P (EvBulk (apiName_type E (refType first)) OpInsert rs a)) ->
  (forall rs a, P (EvBulk (apiName_type E (refType first)) OpUpdate rs a)) ->
  emits P (deployAddInstances E (first :: rest) idFields client).
Proof.
  intros HQ HI HU. unfold deployAddInstances.
  pose proof (emits_getRecordsBySaltoIds (refType first) (first :: rest) idFields HQ).
  pose proof (fun l => emits_insertInstances (apiName_type E (refType first)) l HI).
  pose proof (fun l => emits_updateInstances (apiName_type E (refType first)) l HU).
  emits_steps; auto.
Qed.

Lemma emits_deployRemoveInstances first rest :
  (forall rs a, P (EvBulk (apiName_type E (refType first)) OpDelete rs a)) ->
  emits P (deployRemoveInstances E (first :: rest) client).
Proof.
  intros HD. unfold deployRemoveInstances.
  pose proof (fun l => emits_deleteInstances (apiName_type E (refType first)) l HD).
  emits_steps; auto.
Qed.

Lemma emits_deployModifyChanges first rest :
  (forall rs a, P (EvBulk (apiName_type E (refType (snd first))) OpUpdate rs a)) ->
  emits P (deployModifyChanges E (first :: rest) client).
Proof.
  intros HU. unfold deployModifyChanges, sameApiName, diffApiNameError, foundEqual.
  pose proof (fun l => emits_updateInstances (apiName_type E (refType (snd first))) l HU).
  emits_steps; auto.
Qed.

End Emits.

Lemma modificationData_head changes d data :
  modificationData changes = Some (d :: data) ->
  head (map getChangeElement changes) = Some (snd d).
Proof.
  destruct changes as [|[a|b|b a] r]; cbn; try discriminate.
  destruct (modificationData r); cbn; [|discriminate].
  intros [= <- _]. reflexivity.
Qed.

Lemma emits_groupDispatch E client changes first d :
  head (map getChangeElement changes) = Some first ->
  emits (callOfGroup E changes) (groupDispatchOf E client changes first d).
Proof.
  intros Hhead.
  assert (Hname : head (map (fun c => apiName_type E (refType (getChangeElement c)))
                            changes)
                  = Some (apiName_type E (refType first))).
  { destruct changes as [|c r]; [discriminate|]. cbn in Hhead |- *. congruence. }
  unfold groupDispatchOf.
  destruct (map getChangeElement changes) as [|first' rest'] eqn:Hinst; [discriminate|].
  cbn in Hhead. injection Hhead as ->.
  destruct (forallb isAdditionChange changes) eqn:Hadd.
  { destruct (snd (getIdFields E _ d)) as [[|f fs]|].
    2: apply emits_throw.
    all: apply emits_deployAddInstances; intros; cbn [callOfGroup];
      rewrite ?Hadd; auto. }
  destruct (forallb isRemovalChange changes) eqn:Hrem.
  { apply emits_deployRemoveInstances. intros; cbn [callOfGroup]. auto. }
  destruct (modificationData changes) as [[|d0 data]|] eqn:Hmod.
  - apply emits_throw.
  - apply emits_deployModifyChanges. intros rs a.
    pose proof (modificationData_head _ _ _ Hmod) as Hhead.
    rewrite Hinst in Hhead. cbn in Hhead. injection Hhead as <-.
    cbn [callOfGroup]. split; [exact Hname|].
    destruct (forallb isModificationChange changes) eqn:Hall;
      [apply orb_true_r|].
    rewrite (modificationData_None _ Hall) in Hmod. discriminate.
  - apply emits_throw.
Qed.

(** X23. The calls [deployCustomObjectInstancesGroup] issues follow the
    kind of the changes, whether it ends with applied changes or with an
    error: queries and bulk inserts in a group of additions only, bulk
    updates in a group of additions or of modifications only, bulk deletes
    in a group of removals only, and every bulk call for the api name of
    the type of the first instance. *)
Theorem group_calls_follow_the_action
    (E : Externals) (client : SalesforceClient) (changes : list Change)
    (dataManagement : option (DataManagement E)) (w : World) :
  exists evs,
    calls (snd (deployCustomObjectInstancesGroup E changes client dataManagement w))
    = calls w ++ evs
    /\ Forall (callOfGroup E changes) evs.
Proof.
  destruct (le_lt_dec (length (instanceTypesOf E changes)) 1) as [Hle|Hlt].
  2:{ rewrite (group_run_many_types E client changes dataManagement w Hlt).
      exists []. split; [cbn; rewrite app_nil_r; reflexivity|constructor]. }
  destruct (head (map getChangeElement changes)) as [first|] eqn:Hhead.
  2:{ destruct changes; [|discriminate].
      exists []. split; [cbn; rewrite app_nil_r; reflexivity|constructor]. }
  rewrite (group_run_one_type E client changes dataManagement first w Hhead Hle).
  apply emits_tryCatch; [|intros e; apply emits_ret].
  destruct (actualDataManagementOf E first dataManagement) as [d|];
    [apply emits_groupDispatch, Hhead|apply emits_throw].
Qed.

(** ** The bulk executors and the empty list *)




(** [deleteInstances] has no test of its own for the empty list: applied
    to one it would issue a call.  No caller does so, see below. *)
Lemma deleteInstances_nil_issues_call :
  calls (snd (deleteInstances Sample.env "Account" []
                (Sample.client [] (inr []) (inr []) (inr [])) (Sample.world [])))
  = [EvBulk "Account" OpDelete [] (inr [])].
Proof. reflexivity. Qed.

